(** * rotatefile: a size-based rotating log file (Go), embedded in Rocq

    The development follows the source of package [rotatefile]: the record
    [RotateFile], the two open helpers, the private [write] with its
    rollover block, the public [Write] and the constructor [New].  The
    operating system is modelled by a small file system (a name space over
    inodes), a clock, a log of the calls made and a script of injected
    failures, so that every function of the source stays an executable
    Rocq function.  The properties follow: first the equations of [write]
    and what its system calls log, then one section per property of the
    specification. *)

From Stdlib Require Import ZArith Lia.
From stdpp Require Import gmap strings list fin_maps pretty relations.

Open Scope Z_scope.

(* ===================================================================== *)
(** ** Go's [int] on the 64-bit targets *)
(* ===================================================================== *)

Module GoInt.

Definition min_int : Z := - 2 ^ 63.
Definition max_int : Z := 2 ^ 63 - 1.

(** Two's complement wrap-around of an unbounded result. *)
Definition wrap (z : Z) : Z := (z + 2 ^ 63) mod 2 ^ 64 - 2 ^ 63.

Definition add (a b : Z) : Z := wrap (a + b).
Definition sub (a b : Z) : Z := wrap (a - b).

Definition in_range (z : Z) : Prop := min_int <= z <= max_int.

End GoInt.

(** A [[]byte] is a list of bytes; [len(b)] is its length. *)
Abbreviation byte := Byte.byte.

Definition len (b : list byte) : Z := Z.of_nat (length b).

(* ===================================================================== *)
(** ** The operating system *)
(* ===================================================================== *)

(** The [error] values the model distinguishes: the three that package [os]
    produces by itself on the paths of this program, and the failures
    reported by the kernel, which are numbered. *)
Inductive error : Type :=
| ErrInvalid                 (* method called on a nil *os.File *)
| ErrClosed                  (* method called on a closed *os.File *)
| ErrNotExist                (* no such file or directory *)
| ErrIO (code : nat).        (* any other failure of a system call *)

(** What a file holds: its bytes and its modification time. *)
Record Inode : Type := mkInode { data : list byte; modTime : Z }.

Global Instance Inode_inhabited : Inhabited Inode :=
  populate (mkInode [] 0).

(** The calls that reach the operating system, in the order they are made. *)
Inductive Event : Type :=
| EvOpen (name : string) (flag : Z)
| EvWrite (ino : nat) (b : list byte)
| EvClose (ino : nat)
| EvFstat (ino : nat)
| EvStat (name : string)
| EvRemove (name : string)
| EvRename (src dst : string).

(** The outcome the environment imposes on the next system call: it goes
    through, it fails, or (for a write) it fails after [k] bytes. *)
Inductive Fault : Type :=
| Pass
| Fail (e : error)
| Short (k : nat) (e : error).

Record World : Type := mkWorld {
  names  : gmap string nat;      (* directory: file name to inode *)
  inodes : gmap nat Inode;       (* inode table *)
  clock  : Z;                    (* what time.Now() returns next *)
  faults : list Fault;           (* script of the coming system calls *)
  trace  : list Event            (* system calls made so far *)
}.

(** A [*os.File]: nil, an open descriptor on an inode, or a closed one. *)
Inductive osFile : Type :=
| FileNil
| FileOpen (ino : nat)
| FileClosed.

(** [os.FileInfo], as far as the program reads it. *)
Record FileInfo : Type := mkFileInfo { Size : Z; ModTime : Z }.

Definition O_WRONLY : Z := 1.
Definition O_CREATE : Z := 64.
Definition O_TRUNC  : Z := 512.
Definition O_APPEND : Z := 1024.

Definition has_flag (flag bit : Z) : bool := negb (Z.land flag bit =? 0).

Module OS.

Definition log (e : Event) (w : World) : World :=
  mkWorld (names w) (inodes w) (clock w) (faults w) (trace w ++ [e]).

(** Every system call consumes one entry of the script; an exhausted
    script lets the call through. *)
Definition next_fault (w : World) : Fault * World :=
  match faults w with
  | [] => (Pass, w)
  | ft :: rest => (ft, mkWorld (names w) (inodes w) (clock w) rest (trace w))
  end.

Definition syscall (e : Event) (w : World) : Fault * World :=
  next_fault (log e w).

Definition set_names (ns : gmap string nat) (w : World) : World :=
  mkWorld ns (inodes w) (clock w) (faults w) (trace w).

Definition set_inodes (tbl : gmap nat Inode) (w : World) : World :=
  mkWorld (names w) tbl (clock w) (faults w) (trace w).

(** Appending to an inode; the modification time moves when bytes land. *)
Definition append (i : nat) (p : list byte) (w : World) : World :=
  let old := inodes w !!! i in
  let new := mkInode (data old ++ p)
                     (if decide (p = []) then modTime old else clock w) in
  set_inodes (<[i := new]> (inodes w)) w.

Definition truncate (i : nat) (w : World) : World :=
  set_inodes (<[i := mkInode [] (clock w)]> (inodes w)) w.

Definition create (name : string) (w : World) : nat * World :=
  let i := fresh (dom (inodes w)) in
  (i, set_names (<[name := i]> (names w))
        (set_inodes (<[i := mkInode [] (clock w)]> (inodes w)) w)).

Definition info (i : nat) (w : World) : FileInfo :=
  let f := inodes w !!! i in mkFileInfo (len (data f)) (modTime f).

(** [time.Now()]: reads the clock, which then moves on. *)
Definition Now (w : World) : Z * World :=
  (clock w, mkWorld (names w) (inodes w) (clock w + 1) (faults w) (trace w)).

(** [os.OpenFile(name, flag, 0644)]. *)
Definition OpenFile (name : string) (flag : Z) (w : World)
  : (osFile * option error) * World :=
  let (ft, w) := syscall (EvOpen name flag) w in
  match ft with
  | Fail e | Short _ e => ((FileNil, Some e), w)
  | Pass =>
      match names w !! name with
      | Some i =>
          ((FileOpen i, None),
           if has_flag flag O_TRUNC then truncate i w else w)
      | None =>
          if has_flag flag O_CREATE
          then let (i, w) := create name w in ((FileOpen i, None), w)
          else ((FileNil, Some ErrNotExist), w)
      end
  end.

(** [os.Stat(name)]. *)
Definition Stat (name : string) (w : World)
  : (option FileInfo * option error) * World :=
  let (ft, w) := syscall (EvStat name) w in
  match ft with
  | Fail e | Short _ e => ((None, Some e), w)
  | Pass =>
      match names w !! name with
      | Some i => ((Some (info i w), None), w)
      | None => ((None, Some ErrNotExist), w)
      end
  end.

(** [os.Remove(name)]. *)
Definition Remove (name : string) (w : World) : option error * World :=
  let (ft, w) := syscall (EvRemove name) w in
  match ft with
  | Fail e | Short _ e => (Some e, w)
  | Pass =>
      match names w !! name with
      | Some _ => (None, set_names (delete name (names w)) w)
      | None => (Some ErrNotExist, w)
      end
  end.

(** [os.Rename(src, dst)]: [dst] is replaced when it exists. *)
Definition Rename (src dst : string) (w : World) : option error * World :=
  let (ft, w) := syscall (EvRename src dst) w in
  match ft with
  | Fail e | Short _ e => (Some e, w)
  | Pass =>
      match names w !! src with
      | Some i =>
          (None, set_names (<[dst := i]> (delete src (names w))) w)
      | None => (Some ErrNotExist, w)
      end
  end.

(** [f.File.Write(b)] on an [*os.File].  A nil or closed file is refused
    before any system call; a non-nil error comes with the count of the
    bytes that did land. *)
Definition Write (h : osFile) (b : list byte) (w : World)
  : (Z * option error) * World :=
  match h with
  | FileNil => ((0, Some ErrInvalid), w)
  | FileClosed => ((0, Some ErrClosed), w)
  | FileOpen i =>
      let (ft, w) := syscall (EvWrite i b) w in
      match ft with
      | Pass => ((len b, None), append i b w)
      | Fail e => ((0, Some e), w)
      | Short k e =>
          let p := take k b in ((len p, Some e), append i p w)
      end
  end.

(** [f.File.Close()]: the descriptor is released even when the
    kernel reports a failure.  Returns the error and the file after. *)
Definition Close (h : osFile) (w : World) : (option error * osFile) * World :=
  match h with
  | FileNil => ((Some ErrInvalid, FileNil), w)
  | FileClosed => ((Some ErrClosed, FileClosed), w)
  | FileOpen i =>
      let (ft, w) := syscall (EvClose i) w in
      match ft with
      | Pass => ((None, FileClosed), w)
      | Fail e | Short _ e => ((Some e, FileClosed), w)
      end
  end.

(** [f.File.Stat()]. *)
Definition Fstat (h : osFile) (w : World)
  : (option FileInfo * option error) * World :=
  match h with
  | FileNil => ((None, Some ErrInvalid), w)
  | FileClosed => ((None, Some ErrClosed), w)
  | FileOpen i =>
      let (ft, w) := syscall (EvFstat i) w in
      match ft with
      | Pass => ((Some (info i w), None), w)
      | Fail e | Short _ e => ((None, Some e), w)
      end
  end.

End OS.

(** [fmt.Sprintf("%s.%d", name, i)]. *)
Definition Sprintf_s_d (name : string) (i : Z) : string :=
  name +:+ "." +:+ pretty i.

(* ===================================================================== *)
(** ** The program *)
(* ===================================================================== *)

(** [type RotateFile struct].  [UpdateAt] is a [time.Time], here the clock
    value; the zero [time.Time] is [0]. *)
Record RotateFile : Type := mkRotateFile {
  Backup   : Z;
  CapLimit : Z;
  CapUsing : Z;
  File     : osFile;
  Name     : string;
  UpdateAt : Z
}.

Definition set_CapUsing (v : Z) (f : RotateFile) : RotateFile :=
  mkRotateFile (Backup f) (CapLimit f) v (File f) (Name f) (UpdateAt f).

Definition set_File (v : osFile) (f : RotateFile) : RotateFile :=
  mkRotateFile (Backup f) (CapLimit f) (CapUsing f) v (Name f) (UpdateAt f).

Definition set_UpdateAt (v : Z) (f : RotateFile) : RotateFile :=
  mkRotateFile (Backup f) (CapLimit f) (CapUsing f) (File f) (Name f) v.

(** A method runs on the receiver [f] (behind a pointer, so its fields are
    state) and on the operating system. *)
Definition St : Type := RotateFile * World.

(** What a Go [panic] carries on the paths of this program. *)
Inductive PanicValue : Type :=
| SliceBounds (bound : Z) (length : Z)   (* slice bounds out of range *)
| PanicError (e : error).                (* panic(err) *)

Inductive Res (A : Type) : Type :=
| Val (a : A)
| Panic (p : PanicValue).
Arguments Val {A} a.
Arguments Panic {A} p.

(** The monad of the methods: state, and a panic that unwinds past the
    rest of the body with the state as it is at that point. *)
Definition M (A : Type) : Type := St -> Res A * St.

Definition ret {A} (a : A) : M A := fun s => (Val a, s).

Definition bind {A B} (m : M A) (k : A -> M B) : M B :=
  fun s => match m s with
           | (Val a, s') => k a s'
           | (Panic p, s') => (Panic p, s')
           end.

Definition panic {A} (p : PanicValue) : M A := fun s => (Panic p, s).

Global Instance M_ret : MRet M := @ret.
Global Instance M_bind : MBind M := fun A B k m => bind m k.

(** Reading the receiver, assigning to one of its fields, calling the
    operating system, calling a method that cannot panic. *)
Definition self : M RotateFile := fun s => (Val (fst s), s).

Definition assign (upd : RotateFile -> RotateFile) : M unit :=
  fun s => (Val tt, (upd (fst s), snd s)).

Definition sys {A} (c : World -> A * World) : M A :=
  fun s => let (a, w) := c (snd s) in (Val a, (fst s, w)).

Definition call {A} (c : St -> A * St) : M A :=
  fun s => let (a, s') := c s in (Val a, s').

(** [b[:hi]] and [b[lo:]].  A slice is modelled with its capacity equal to
    its length. *)
Definition slice_to (b : list byte) (hi : Z) : M (list byte) :=
  if (hi <? 0) || (len b <? hi)
  then panic (SliceBounds hi (len b))
  else ret (take (Z.to_nat hi) b).

Definition slice_from (b : list byte) (lo : Z) : M (list byte) :=
  if (lo <? 0) || (len b <? lo)
  then panic (SliceBounds lo (len b))
  else ret (drop (Z.to_nat lo) b).

(** [func isFileExist(name string) bool] *)
Definition isFileExist (name : string) (w : World) : bool * World :=
  let '((_, err), w) := OS.Stat name w in
  (match err with None => true | Some _ => false end, w).

(** [func (f *RotateFile) OpenWronlyTrunca() error] *)
Definition OpenWronlyTrunca (s : St) : option error * St :=
  let (f, w) := s in
  let '((r, err), w) := OS.OpenFile (Name f) (Z.lor O_WRONLY O_TRUNC) w in
  match err with
  | Some e => (Some e, (f, w))
  | None => (None, (set_File r f, w))
  end.

(** [func (f *RotateFile) OpenWronlyCreateAppend() error] *)
Definition OpenWronlyCreateAppend (s : St) : option error * St :=
  let (f, w) := s in
  let '((r, err), w) :=
    OS.OpenFile (Name f) (Z.lor (Z.lor O_WRONLY O_CREATE) O_APPEND) w in
  match err with
  | Some e => (Some e, (f, w))
  | None => (None, (set_File r f, w))
  end.

(** The loop of [write], lines 79-94:
    [for i := f.Backup - 1; i > 0; i-- { ... }], by recursion on the value
    of [i], which the caller starts at [f.Backup - 1].  An error leaves the
    loop (and [write]) at once. *)
Fixpoint shift_backups (name : string) (i : nat) (w : World)
  : option error * World :=
  match i with
  | O => (None, w)
  | S i' =>
      let sfn := Sprintf_s_d name (Z.of_nat i) in
      let dfn := Sprintf_s_d name (GoInt.add (Z.of_nat i) 1) in
      let (src_exists, w) := isFileExist sfn w in
      if src_exists then
        let (dst_exists, w) := isFileExist dfn w in
        let (err, w) := if dst_exists then OS.Remove dfn w else (None, w) in
        match err with
        | Some e => (Some e, w)
        | None =>
            let (err, w) := OS.Rename sfn dfn w in
            match err with
            | Some e => (Some e, w)
            | None => shift_backups name i' w
            end
        end
      else shift_backups name i' w
  end.

(** The rollover block of [write], lines 78-106: [if f.Backup > 0 { ... }].
    Returns the error that makes [write] return, if any. *)
Definition rollover (name : string) (backup : Z) (w : World)
  : option error * World :=
  if 0 <? backup then
    let (err, w) :=
      shift_backups name (Z.to_nat (GoInt.sub backup 1)) w in
    match err with
    | Some e => (Some e, w)
    | None =>
        let dfn := Sprintf_s_d name 1 in
        let (dst_exists, w) := isFileExist dfn w in
        let (err, w) := if dst_exists then OS.Remove dfn w else (None, w) in
        match err with
        | Some e => (Some e, w)
        | None => OS.Rename name dfn w
        end
    end
  else (None, w).

(** [func (f *RotateFile) write(b []byte) (n int, err error)] *)
Definition write (b : list byte) : M (Z * option error) :=
  f ← self;
  let capSpace := GoInt.sub (CapLimit f) (CapUsing f) in
  if len b <=? capSpace then
    '(n, err) ← sys (OS.Write (File f) b);
    assign (fun f => set_CapUsing (GoInt.add (CapUsing f) n) f);;
    now ← sys OS.Now;
    assign (set_UpdateAt now);;
    ret (n, err)
  else
    head ← slice_to b capSpace;
    '(writeN, err) ← sys (OS.Write (File f) head);
    let n := GoInt.add 0 writeN in
    assign (fun f => set_CapUsing (GoInt.add (CapUsing f) writeN) f);;
    now ← sys OS.Now;
    assign (set_UpdateAt now);;
    match err with
    | Some e => ret (n, Some e)
    | None =>
    '(err, closed) ← sys (OS.Close (File f));
    assign (set_File closed);;
    match err with
    | Some e => ret (n, Some e)
    | None =>
    err ← sys (rollover (Name f) (Backup f));
    match err with
    | Some e => ret (n, Some e)
    | None =>
    err ← call OpenWronlyCreateAppend;
    match err with
    | Some e => ret (n, Some e)
    | None =>
    f ← self;
    tail ← slice_from b capSpace;
    '(writeN, err) ← sys (OS.Write (File f) tail);
    let n := GoInt.add n writeN in
    assign (set_CapUsing writeN);;
    now ← sys OS.Now;
    assign (set_UpdateAt now);;
    ret (n, err)
    end end end end.

(** [doa.Try2] of the library [github.com/mohanson/doa]: returns its first
    argument, and panics with the error when there is one (the comment on
    [Write] reads: panic directly to avoid errors being eaten).  The type
    assertion [.(int)] on its result cannot fail here. *)
Definition doa_Try2 (r : Z * option error) : M Z :=
  match snd r with
  | Some e => panic (PanicError e)
  | None => ret (fst r)
  end.

(** [func (f *RotateFile) Write(b []byte) (n int, err error)] *)
Definition Write (b : list byte) : M (Z * option error) :=
  r ← write b;
  n ← doa_Try2 r;
  ret (n, None).

(** [func (f *RotateFile) Close() error] *)
Definition Close : M (option error) :=
  f ← self;
  '(err, closed) ← sys (OS.Close (File f));
  assign (set_File closed);;
  ret err.

(** [func New(name string, backup int, size int)], which returns a
    [*RotateFile] and an [error];
    the pointer returned is [None] for nil.  [int(s.Size())] converts an
    [int64]. *)
Definition New (name : string) (backup size : Z) (w : World)
  : (option RotateFile * option error) * World :=
  let r := mkRotateFile backup size 0 FileNil name 0 in
  let '(err, (r, w)) := OpenWronlyCreateAppend (r, w) in
  match err with
  | Some e => ((Some r, Some e), w)
  | None =>
      let '((s, err), w) := OS.Fstat (File r) w in
      match s, err with
      | Some s, None =>
          let r := set_CapUsing (GoInt.wrap (Size s)) r in
          let r := set_UpdateAt (ModTime s) r in
          ((Some r, None), w)
      | _, Some e => ((None, Some e), w)
      | None, None => ((None, None), w)
      end
  end.

(* ===================================================================== *)
(** ** Runs and observations *)
(* ===================================================================== *)

(** A run of calls to [write], one per input, on the same receiver.  The
    results are collected; the caller of [write] goes on after an error,
    and after a panic too (one that it recovers), with the state as the
    call left it. *)
Fixpoint run_writes (bs : list (list byte)) (s : St)
  : list (Res (Z * option error)) * St :=
  match bs with
  | [] => ([], s)
  | b :: rest =>
      let (r, s1) := write b s in
      let (rs, s2) := run_writes rest s1 in
      (r :: rs, s2)
  end.

(** A sink constructed by [New], with the world [New] left: [None] when
    [New] reported an error. *)
Definition opened (name : string) (backup size : Z) (w : World) : option St :=
  match New name backup size w with
  | ((Some r, None), w') => Some (r, w')
  | _ => None
  end.

(** A call succeeded: it returned, with a nil error. *)
Definition succeeded {A} (r : Res (A * option error)) : bool :=
  match r with
  | Val (_, None) => true
  | _ => false
  end.

(** No call of the list panicked or returned an error. *)
Definition all_succeeded {A} (rs : list (Res (A * option error))) : bool :=
  forallb succeeded rs.

(** The cumulative size of a sequence of inputs. *)
Definition total_len (bs : list (list byte)) : Z :=
  foldr (fun b acc => len b + acc) 0 bs.

Definition bytes_of (s : string) : list byte := String.list_byte_of_string s.

(** The bytes found under a name. *)
Definition content (name : string) (w : World) : option (list byte) :=
  i ← names w !! name; Some (data (inodes w !!! i)).

(** The flags of [OpenWronlyCreateAppend]. *)
Definition append_flags : Z := Z.lor (Z.lor O_WRONLY O_CREATE) O_APPEND.

(** The events a computation added to the log. *)
Definition events_since (w w' : World) : list Event :=
  drop (length (trace w)) (trace w').

(** The events that touch the handle of the active file or the directory. *)
Definition is_close (e : Event) : bool :=
  match e with EvClose _ => true | _ => false end.
Definition is_open (e : Event) : bool :=
  match e with EvOpen _ _ => true | _ => false end.
Definition is_rename (e : Event) : bool :=
  match e with EvRename _ _ => true | _ => false end.
Definition is_remove (e : Event) : bool :=
  match e with EvRemove _ => true | _ => false end.

(** A call rotates when it closes, renames or reopens. *)
Definition is_rotation (e : Event) : bool :=
  is_close e || is_rename e || is_open e.

(** The active file [name] is renamed away. *)
Definition moves (name : string) (e : Event) : bool :=
  match e with
  | EvRename src _ => bool_decide (src = name)
  | _ => false
  end.

(** The calls of the rollover block: probes, removals and renames. *)
Definition dir_event (e : Event) : Prop :=
  match e with
  | EvStat _ | EvRemove _ | EvRename _ _ => True
  | _ => False
  end.

Definition count_events (p : Event -> bool) (evs : list Event) : nat :=
  length (filter (fun e => p e = true) evs).

(** The removals and renames among the calls logged. *)
Definition mutations (evs : list Event) : list Event :=
  filter (fun e => is_remove e || is_rename e = true) evs.

(** [logs P w w']: going from [w] to [w'] added system calls to the log,
    all of them of the kind [P]. *)
Definition logs (P : Event -> Prop) (w w' : World) : Prop :=
  exists evs, trace w' = trace w ++ evs /\ Forall P evs.

(* ===================================================================== *)
(** ** Scripts of failures *)
(* ===================================================================== *)

(** The next [n] system calls go through. *)
Definition calm (n : nat) (w : World) : Prop :=
  Forall (eq Pass) (take n (faults w)).

(** No failure is scripted: every system call goes through, unless it is
    refused for what it asks (a missing file, a closed handle). *)
Definition quiet (w : World) : Prop := Forall (eq Pass) (faults w).

Definition with_faults (fs : list Fault) (w : World) : World :=
  mkWorld (names w) (inodes w) (clock w) fs (trace w).

(** [after w evs d w1]: from [w], the calls [evs] were logged, the
    directory became [d], the files are untouched and the script stays
    quiet. *)
Definition after (w : World) (evs : list Event) (d : gmap string nat)
  (w1 : World) : Prop :=
  names w1 = d /\ inodes w1 = inodes w /\ trace w1 = trace w ++ evs /\
  quiet w1.

(* ===================================================================== *)
(** ** The steps of [write] and what they preserve *)
(* ===================================================================== *)

(** The assignments [f.CapUsing = n; f.UpdateAt = time.Now()] that follow
    each write, on the world [w] the write left. *)
Definition touch (n : Z) (w : World) (f : RotateFile) : St :=
  (set_UpdateAt (clock w) (set_CapUsing n f), snd (OS.Now w)).

(** The code that deletes any existing [dst] and renames [src] to [dst],
    as it stands twice in [write] (lines 83-92 and 96-105). *)
Definition remove_then_rename (src dst : string) (w : World)
  : option error * World :=
  let (dst_exists, w) := isFileExist dst w in
  let (err, w) := if dst_exists then OS.Remove dst w else (None, w) in
  match err with
  | Some e => (Some e, w)
  | None => OS.Rename src dst w
  end.

(** The steps a call of [write] is made of: a write on the active handle
    followed by the accounting, the close, the rollover block, the reopen. *)
Inductive step : St -> St -> Prop :=
| step_write f w c n :
    step (f, w) (touch n (snd (OS.Write (File f) c w)) f)
| step_close f w :
    step (f, w)
         (set_File (snd (fst (OS.Close (File f) w))) f,
          snd (OS.Close (File f) w))
| step_rollover f w :
    step (f, w) (f, snd (rollover (Name f) (Backup f) w))
| step_reopen f w :
    step (f, w) (snd (OpenWronlyCreateAppend (f, w))).

(** The fields that no method assigns. *)
Definition same_config (f f' : RotateFile) : Prop :=
  Backup f' = Backup f /\ CapLimit f' = CapLimit f /\ Name f' = Name f.

(** [grows w w']: every name of [w] still leads to the same inode in [w'],
    and every inode of [w'] holds what it held in [w], followed by more. *)
Definition grows (w w' : World) : Prop :=
  (forall n i, names w !! n = Some i -> names w' !! n = Some i) /\
  (forall i, data (inodes w !!! i) `prefix_of` data (inodes w' !!! i)).

(** The handle of the sink, when open, is on the file found at [Name]. *)
Definition linked (s : St) : Prop :=
  match File (fst s) with
  | FileOpen i => names (snd s) !! Name (fst s) = Some i
  | _ => True
  end.

(** The numbered backups of [name] in the directory are among [name.1],
    ..., [name.backup]. *)
Definition bounded (name : string) (backup : Z) (d : gmap string nat) : Prop :=
  forall j, ~ (1 <= j <= backup) -> d !! Sprintf_s_d name j = None.

(* ===================================================================== *)
(** ** The rotation of the backups, as the specification words it *)
(* ===================================================================== *)

(** The rotation is described on a directory [d], together with the list
    [ops] of the removals and renames made.

    [spec_replace src dst x]: delete any existing [dst], and rename [src]
    (which is the file [x]) to [dst]. *)
Definition spec_replace (src dst : string) (x : nat)
  (st : gmap string nat * list Event) : gmap string nat * list Event :=
  let '(d, ops) := st in
  let '(d, ops) :=
    match d !! dst with
    | Some _ => (delete dst d, ops ++ [EvRemove dst])
    | None => (d, ops)
    end in
  (<[dst := x]> (delete src d), ops ++ [EvRename src dst]).

(** One value of [i]: if the file suffixed [.i] exists, it replaces the
    file suffixed [.(i+1)]. *)
Definition spec_shift_step (name : string) (i : Z)
  (st : gmap string nat * list Event) : gmap string nat * list Event :=
  match fst st !! Sprintf_s_d name i with
  | Some x => spec_replace (Sprintf_s_d name i) (Sprintf_s_d name (i + 1)) x st
  | None => st
  end.

(** For [i] from [k] down to [1]. *)
Fixpoint spec_shift (name : string) (k : nat)
  (st : gmap string nat * list Event) : gmap string nat * list Event :=
  match k with
  | O => st
  | S k' => spec_shift name k' (spec_shift_step name (Z.of_nat k) st)
  end.

(** For [i] from [backup - 1] down to [1]; afterwards the active file,
    which is the file [x], replaces the file suffixed [.1]. *)
Definition spec_rotate (name : string) (backup : Z) (x : nat)
  (d : gmap string nat) : gmap string nat * list Event :=
  spec_replace name (Sprintf_s_d name 1) x
    (spec_shift name (Z.to_nat (backup - 1)) (d, [])).

(* ===================================================================== *)
(** ** Worlds of the examples *)
(* ===================================================================== *)

(** An empty directory, and a directory with one file; the clock shows
    [t] and no failure is scripted. *)
Definition empty_world (t : Z) : World := mkWorld ∅ ∅ t [] [].

Definition one_file_world (name : string) (c : list byte) (mtime t : Z)
  : World :=
  mkWorld {[ name := 0%nat ]} {[ 0%nat := mkInode c mtime ]} t [] [].

(** A directory with the active file and three backups. *)
Definition three_backups_world : World :=
  mkWorld
    (list_to_map [("app.log"%string, 0%nat); ("app.log.1"%string, 1%nat);
                  ("app.log.2"%string, 2%nat); ("app.log.3"%string, 3%nat)])
    (list_to_map [(0%nat, mkInode (bytes_of "dddd") 4);
                  (1%nat, mkInode (bytes_of "cccc") 3);
                  (2%nat, mkInode (bytes_of "bbbb") 2);
                  (3%nat, mkInode (bytes_of "aaaa") 1)])
    5 [] [].

(* ===================================================================== *)
(** ** Proof automation *)
(* ===================================================================== *)

Global Arguments GoInt.wrap : simpl never.
Global Arguments GoInt.add : simpl never.
Global Arguments GoInt.sub : simpl never.
Global Arguments len : simpl never.
Global Arguments OS.OpenFile : simpl never.
Global Arguments OS.Stat : simpl never.
Global Arguments OS.Remove : simpl never.
Global Arguments OS.Rename : simpl never.
Global Arguments OS.Write : simpl never.
Global Arguments OS.Close : simpl never.
Global Arguments OS.Fstat : simpl never.
Global Arguments isFileExist : simpl never.
Global Arguments OpenWronlyCreateAppend : simpl never.
Global Arguments OpenWronlyTrunca : simpl never.
Global Arguments rollover : simpl never.
Global Arguments write : simpl never.
Global Arguments spec_replace : simpl never.

(** Unfolding the monad of the methods. *)
Ltac run_go :=
  unfold mbind, M_bind, bind, self, assign, sys, call, ret, mret, M_ret;
  simpl.

(** Case analysis on what a system call does. *)
Ltac os_cases :=
  unfold OS.Write, OS.Close, OS.OpenFile, OS.Stat, OS.Remove, OS.Rename,
    OS.Fstat, OS.syscall, OS.next_fault, OS.create;
  simpl; repeat case_match; simplify_eq; simpl.

(* ===================================================================== *)
(** ** Failures and what becomes of them *)
(* ===================================================================== *)

(** The error the script imposes on a system call, if any. *)
Definition fault_error (o : option Fault) : option error :=
  match o with
  | Some (Fail e) | Some (Short _ e) => Some e
  | _ => None
  end.

Definition is_stat (e : Event) : bool :=
  match e with EvStat _ => true | _ => false end.

(** [surfaces w w' err]: the system calls made from [w] to [w'] consumed
    the script in order, one entry each, and if one of them, other than an
    [os.Stat], was made to fail, then it was the last one and [err] is its
    error. *)
Definition surfaces (w w' : World) (err : option error) : Prop :=
  exists evs,
    trace w' = trace w ++ evs /\
    faults w' = drop (length evs) (faults w) /\
    forall k ev e,
      evs !! k = Some ev -> fault_error (faults w !! k) = Some e ->
      is_stat ev = false ->
      err = Some e /\ length evs = S k.

(* ===================================================================== *)
(** ** Further observations *)
(* ===================================================================== *)

(** The directory and the files are the same in [w] and [w']. *)
Definition same_files (w w' : World) : Prop :=
  names w' = names w /\ inodes w' = inodes w.

Definition is_open_file (h : osFile) : bool :=
  match h with FileOpen _ => true | _ => false end.

(** What a write on a nil or closed sink returns, when it returns. *)
Definition refused (r : Res (Z * option error)) : Prop :=
  match r with
  | Val (n, e) => n = 0 /\ (e = Some ErrClosed \/ e = Some ErrInvalid)
  | Panic _ => True
  end.

(** [CapUsing] is the size of the file found at [Name], when there is
    one. *)
Definition accurate (s : St) : Prop :=
  forall c, content (Name (fst s)) (snd s) = Some c ->
            CapUsing (fst s) = len c.

(** The sink keeps track of its file: the handle is on the file at [Name],
    and [CapUsing], an [int] that is not negative, is the size of that
    file. *)
Definition tracks (s : St) : Prop :=
  linked s /\ 0 <= CapUsing (fst s) <= GoInt.max_int /\ accurate s.

(** The number of bytes held by all the files, whether a name still leads
    to them or not. *)
Definition total_bytes (w : World) : Z :=
  map_fold (fun _ f acc => len (data f) + acc) 0 (inodes w).

(* ===================================================================== *)
(** ** Arithmetic of [int] *)
(* ===================================================================== *)

Lemma wrap_in_range z : GoInt.in_range z -> GoInt.wrap z = z.
Proof.
  unfold GoInt.in_range, GoInt.min_int, GoInt.max_int, GoInt.wrap.
  intros H. rewrite Z.mod_small; lia.
Qed.

Lemma wrap_range z : GoInt.in_range (GoInt.wrap z).
Proof.
  unfold GoInt.in_range, GoInt.min_int, GoInt.max_int, GoInt.wrap.
  pose proof (Z.mod_pos_bound (z + 2 ^ 63) (2 ^ 64)). lia.
Qed.

Lemma sub_range a b : GoInt.in_range (GoInt.sub a b).
Proof. apply wrap_range. Qed.

Lemma add_zero_l n : GoInt.in_range n -> GoInt.add 0 n = n.
Proof.
  intros H. unfold GoInt.add. rewrite Z.add_0_l. by apply wrap_in_range.
Qed.

Lemma len_nonneg b : 0 <= len b.
Proof. unfold len. lia. Qed.

Lemma len_take b k : 0 <= k <= len b -> len (take (Z.to_nat k) b) = k.
Proof. unfold len. intros H. rewrite length_take. lia. Qed.

Lemma len_take_le b k : len (take k b) <= len b.
Proof. unfold len. rewrite length_take. lia. Qed.

Lemma len_drop b k : 0 <= k <= len b -> len (drop (Z.to_nat k) b) = len b - k.
Proof. unfold len. intros H. rewrite length_drop. lia. Qed.

(* ===================================================================== *)
(** ** Names of the backups *)
(* ===================================================================== *)

Lemma string_length_app (s1 s2 : string) :
  String.length (s1 +:+ s2) = (String.length s1 + String.length s2)%nat.
Proof. induction s1 as [|c s1 IH]; simpl; [done | by rewrite IH]. Qed.

Lemma Sprintf_s_d_inj name i j :
  Sprintf_s_d name i = Sprintf_s_d name j -> i = j.
Proof.
  unfold Sprintf_s_d. intros H.
  apply String.app_inj in H. apply String.app_inj in H.
  by apply pretty_Z_inj in H.
Qed.

Lemma Sprintf_s_d_base name i : Sprintf_s_d name i <> name.
Proof.
  unfold Sprintf_s_d. intros H.
  apply (f_equal String.length) in H.
  rewrite string_length_app in H. simpl in H. lia.
Qed.

(* ===================================================================== *)
(** ** The two branches of [write], unfolded *)
(* ===================================================================== *)

(** The input fits: one write on the active handle, then the accounting. *)
Lemma write_fits f w b :
  len b <= GoInt.sub (CapLimit f) (CapUsing f) ->
  write b (f, w) =
    let '(r, w1) := OS.Write (File f) b w in
    (Val r, touch (GoInt.add (CapUsing f) (fst r)) w1 f).
Proof.
  intros H. unfold write. run_go.
  destruct (Z.leb_spec (len b) (GoInt.sub (CapLimit f) (CapUsing f))); [|lia].
  simpl. destruct (OS.Write (File f) b w) as [[n err] w1]. reflexivity.
Qed.

(** The input does not fit and the free space is not negative: head,
    close, rollover, reopen, tail; the first error ends the call. *)
Lemma write_spills f w b :
  let capSpace := GoInt.sub (CapLimit f) (CapUsing f) in
  0 <= capSpace < len b ->
  write b (f, w) =
    let '((k, err), w1) := OS.Write (File f) (take (Z.to_nat capSpace) b) w in
    let '(f1, w2) := touch (GoInt.add (CapUsing f) k) w1 f in
    let n := GoInt.add 0 k in
    match err with
    | Some e => (Val (n, Some e), (f1, w2))
    | None =>
    let '((err, closed), w3) := OS.Close (File f) w2 in
    let f2 := set_File closed f1 in
    match err with
    | Some e => (Val (n, Some e), (f2, w3))
    | None =>
    let '(err, w4) := rollover (Name f) (Backup f) w3 in
    match err with
    | Some e => (Val (n, Some e), (f2, w4))
    | None =>
    let '(err, (f3, w5)) := OpenWronlyCreateAppend (f2, w4) in
    match err with
    | Some e => (Val (n, Some e), (f3, w5))
    | None =>
    let '((k', err), w6) :=
      OS.Write (File f3) (drop (Z.to_nat capSpace) b) w5 in
    (Val (GoInt.add n k', err), touch k' w6 f3)
    end end end end.
Proof.
  intros capSpace H. unfold write. run_go. fold capSpace.
  destruct (Z.leb_spec (len b) capSpace); [lia|].
  unfold slice_to, slice_from.
  destruct (Z.ltb_spec capSpace 0); [lia|].
  destruct (Z.ltb_spec (len b) capSpace); [lia|]. simpl.
  unfold panic; run_go.
  destruct (OS.Write (File f) _ w) as [[k err] w1]. simpl.
  destruct err; [reflexivity|]. simpl.
  destruct (OS.Close (File f) _) as [[cerr closed] w3]. simpl.
  destruct cerr; [reflexivity|]. simpl.
  destruct (rollover _ _ w3) as [rerr w4]. simpl.
  destruct rerr; [reflexivity|]. simpl.
  destruct (OpenWronlyCreateAppend _) as [oerr [f3 w5]]. simpl.
  destruct oerr; [reflexivity|]. simpl.
  destruct (OS.Write (File f3) _ w5) as [[k' err'] w6]. reflexivity.
Qed.

(** The free space is negative: the slice expression [b[:capSpace]] panics
    before anything is written. *)
Lemma write_negative_space f w b :
  GoInt.sub (CapLimit f) (CapUsing f) < 0 ->
  write b (f, w) =
    (Panic (SliceBounds (GoInt.sub (CapLimit f) (CapUsing f)) (len b)), (f, w)).
Proof.
  intros H. unfold write. run_go.
  pose proof (len_nonneg b).
  destruct (Z.leb_spec (len b) (GoInt.sub (CapLimit f) (CapUsing f))); [lia|].
  unfold slice_to.
  destruct (Z.ltb_spec (GoInt.sub (CapLimit f) (CapUsing f)) 0); [|lia].
  reflexivity.
Qed.

(* ===================================================================== *)
(** ** What the system calls log and return *)
(* ===================================================================== *)

Lemma Write_trace h b w :
  trace (snd (OS.Write h b w)) =
  trace w ++ match h with FileOpen i => [EvWrite i b] | _ => [] end.
Proof. os_cases; by rewrite ?app_nil_r. Qed.

Lemma Write_names h b w : names (snd (OS.Write h b w)) = names w.
Proof. by os_cases. Qed.

Lemma Write_clock h b w : clock (snd (OS.Write h b w)) = clock w.
Proof. by os_cases. Qed.

Lemma Close_trace h w :
  trace (snd (OS.Close h w)) =
  trace w ++ match h with FileOpen i => [EvClose i] | _ => [] end.
Proof. os_cases; by rewrite ?app_nil_r. Qed.

Lemma OpenFile_trace name flag w :
  trace (snd (OS.OpenFile name flag w)) = trace w ++ [EvOpen name flag].
Proof. by os_cases. Qed.

Lemma Stat_trace name w :
  trace (snd (OS.Stat name w)) = trace w ++ [EvStat name].
Proof. by os_cases. Qed.

Lemma Remove_trace name w :
  trace (snd (OS.Remove name w)) = trace w ++ [EvRemove name].
Proof. by os_cases. Qed.

Lemma Rename_trace src dst w :
  trace (snd (OS.Rename src dst w)) = trace w ++ [EvRename src dst].
Proof. by os_cases. Qed.

(** [Write] returns a count between [0] and [len(b)], and a nil error only
    with the full count. *)
Lemma Write_count h b w : 0 <= fst (fst (OS.Write h b w)) <= len b.
Proof.
  pose proof (len_nonneg b).
  os_cases; try lia.
  pose proof (len_take_le b k). pose proof (len_nonneg (take k b)). lia.
Qed.

Lemma Write_nil_error h b w k w1 :
  OS.Write h b w = ((k, None), w1) -> k = len b /\ exists i, h = FileOpen i.
Proof. os_cases; intros; simplify_eq; eauto. Qed.

Lemma events_since_app w w' evs :
  trace w' = trace w ++ evs -> events_since w w' = evs.
Proof. unfold events_since. intros ->. by rewrite drop_app_length. Qed.

(* ===================================================================== *)
(** ** Logs of system calls *)
(* ===================================================================== *)

Lemma logs_refl P w : logs P w w.
Proof. exists []. by rewrite app_nil_r. Qed.

Lemma logs_trans P w1 w2 w3 : logs P w1 w2 -> logs P w2 w3 -> logs P w1 w3.
Proof.
  intros (e1 & H1 & F1) (e2 & H2 & F2). exists (e1 ++ e2).
  rewrite H2, H1, app_assoc. split; [done | by apply Forall_app].
Qed.

Lemma logs_one P w w' e : trace w' = trace w ++ [e] -> P e -> logs P w w'.
Proof. intros H HP. exists [e]. split; [done | by constructor]. Qed.

Lemma logs_events P w w' : logs P w w' -> Forall P (events_since w w').
Proof. intros (evs & H & F). by rewrite (events_since_app _ _ _ H). Qed.

Lemma logs_same_trace P w w' : trace w' = trace w -> logs P w w'.
Proof. intros H. exists []. by rewrite app_nil_r. Qed.

Lemma Write_logs P h b w :
  (forall i, P (EvWrite i b)) -> logs P w (snd (OS.Write h b w)).
Proof.
  intros HP. pose proof (Write_trace h b w) as H. destruct h.
  - apply logs_same_trace. by rewrite H, app_nil_r.
  - by eapply logs_one.
  - apply logs_same_trace. by rewrite H, app_nil_r.
Qed.

Lemma Close_logs P h w :
  (forall i, P (EvClose i)) -> logs P w (snd (OS.Close h w)).
Proof.
  intros HP. pose proof (Close_trace h w) as H. destruct h.
  - apply logs_same_trace. by rewrite H, app_nil_r.
  - by eapply logs_one.
  - apply logs_same_trace. by rewrite H, app_nil_r.
Qed.

Lemma isFileExist_trace name w :
  trace (snd (isFileExist name w)) = trace w ++ [EvStat name].
Proof.
  unfold isFileExist. pose proof (Stat_trace name w) as H.
  destruct (OS.Stat name w) as [[i err] w1]. exact H.
Qed.

Lemma reopen_trace f w :
  trace (snd (snd (OpenWronlyCreateAppend (f, w)))) =
  trace w ++ [EvOpen (Name f) append_flags].
Proof.
  unfold OpenWronlyCreateAppend.
  pose proof (OpenFile_trace (Name f) append_flags w) as H.
  unfold append_flags in H.
  destruct (OS.OpenFile (Name f) _ w) as [[r err] w1].
  by destruct err.
Qed.

(** The loop and the rollover block only probe, remove and rename, and the
    loop never renames the active file itself. *)
Lemma shift_backups_logs name k w :
  logs (fun e => dir_event e /\ moves name e = false)
       w (snd (shift_backups name k w)).
Proof.
  set (P := fun e => dir_event e /\ moves name e = false).
  assert (Pstat : forall n, P (EvStat n)) by done.
  assert (Prem : forall n, P (EvRemove n)) by done.
  assert (Pren : forall i n, P (EvRename (Sprintf_s_d name i) n)).
  { intros i n. split; [done|]. simpl. apply bool_decide_eq_false.
    apply Sprintf_s_d_base. }
  revert w. induction k as [|k IH]; intros w; [apply logs_refl|].
  cbn [shift_backups].
  pose proof (isFileExist_trace (Sprintf_s_d name (Z.of_nat (S k))) w) as H1.
  destruct (isFileExist _ w) as [ex w1]. simpl in H1.
  eapply logs_trans; [by eapply logs_one|].
  destruct ex; [|apply IH].
  pose proof (isFileExist_trace
                (Sprintf_s_d name (GoInt.add (Z.of_nat (S k)) 1)) w1) as H2.
  destruct (isFileExist _ w1) as [ex2 w2]. simpl in H2.
  eapply logs_trans; [by eapply logs_one|].
  assert (logs P w2
            (snd (if ex2
                  then OS.Remove
                         (Sprintf_s_d name (GoInt.add (Z.of_nat (S k)) 1)) w2
                  else (None, w2)))) as H3.
  { destruct ex2; [|apply logs_refl].
    eapply logs_one; [apply Remove_trace | done]. }
  destruct (if ex2 then _ else _) as [err w3]. simpl in H3.
  eapply logs_trans; [exact H3|].
  destruct err; [apply logs_refl|].
  pose proof (Rename_trace (Sprintf_s_d name (Z.of_nat (S k)))
                (Sprintf_s_d name (GoInt.add (Z.of_nat (S k)) 1)) w3) as H4.
  destruct (OS.Rename _ _ w3) as [err w4]. simpl in H4.
  eapply logs_trans; [by eapply logs_one|].
  destruct err; [apply logs_refl | apply IH].
Qed.

Lemma rollover_logs name backup w :
  logs dir_event w (snd (rollover name backup w)).
Proof.
  unfold rollover. destruct (0 <? backup); [|apply logs_refl].
  pose proof (shift_backups_logs name (Z.to_nat (GoInt.sub backup 1)) w) as H0.
  destruct (shift_backups _ _ w) as [err w0]. simpl in H0.
  eapply logs_trans.
  { destruct H0 as (evs & H & F). exists evs. split; [done|].
    eapply Forall_impl; [exact F|]. by intros e [? _]. }
  destruct err; [apply logs_refl|].
  pose proof (isFileExist_trace (Sprintf_s_d name 1) w0) as H1.
  destruct (isFileExist _ w0) as [ex w1]. simpl in H1.
  eapply logs_trans; [by eapply logs_one|].
  assert (logs dir_event w1
            (snd (if ex then OS.Remove (Sprintf_s_d name 1) w1
                  else (None, w1)))) as H3.
  { destruct ex; [|apply logs_refl].
    eapply logs_one; [apply Remove_trace | done]. }
  destruct (if ex then _ else _) as [err w3]. simpl in H3.
  eapply logs_trans; [exact H3|].
  destruct err; [apply logs_refl|].
  eapply logs_one; [apply Rename_trace | done].
Qed.

Lemma rollover_no_backup name backup w :
  backup <= 0 -> rollover name backup w = (None, w).
Proof.
  intros H. unfold rollover.
  by destruct (Z.ltb_spec 0 backup); [lia|].
Qed.

(* ===================================================================== *)
(** ** What a call of [write] logs *)
(* ===================================================================== *)

(** Every call of [write] logs writes, at most one close, the calls of the
    rollover block and at most one reopen. *)
Lemma write_logs (P : Event -> Prop) f w b :
  (forall i c, P (EvWrite i c)) ->
  (forall i, P (EvClose i)) ->
  P (EvOpen (Name f) append_flags) ->
  (forall w0, logs P w0 (snd (rollover (Name f) (Backup f) w0))) ->
  logs P w (snd (snd (write b (f, w)))).
Proof.
  intros PW PC PO PR.
  set (capSpace := GoInt.sub (CapLimit f) (CapUsing f)).
  destruct (Z.le_gt_cases (len b) capSpace) as [Hfit|Hspill].
  { rewrite write_fits by done.
    pose proof (Write_logs P (File f) b w (fun i => PW i b)) as H.
    by destruct (OS.Write (File f) b w) as [r w1]. }
  destruct (Z.lt_ge_cases capSpace 0) as [Hneg|Hpos].
  { rewrite write_negative_space by done. apply logs_refl. }
  rewrite write_spills by done. fold capSpace.
  pose proof (Write_logs P (File f) (take (Z.to_nat capSpace) b) w
                (fun i => PW i _)) as H1.
  destruct (OS.Write (File f) _ w) as [[k err] w1]. simpl in *.
  destruct err; [done|].
  pose proof (Close_logs P (File f) (snd (OS.Now w1)) PC) as H2.
  destruct (OS.Close (File f) _) as [[cerr closed] w3]. simpl in H2.
  assert (H13 : logs P w w3) by (eapply logs_trans; [exact H1 | exact H2]).
  destruct cerr; [done|].
  pose proof (PR w3) as H3.
  destruct (rollover _ _ w3) as [rerr w4]. simpl in H3.
  assert (H14 : logs P w w4) by (eapply logs_trans; [exact H13 | exact H3]).
  destruct rerr; [done|].
  pose proof (reopen_trace
                (set_File closed
                   (set_UpdateAt (clock w1)
                      (set_CapUsing (GoInt.add (CapUsing f) k) f))) w4) as H4.
  destruct (OpenWronlyCreateAppend _) as [oerr [f3 w5]]. simpl in H4.
  assert (H15 : logs P w w5).
  { eapply logs_trans; [exact H14|]. by eapply logs_one. }
  destruct oerr; [done|].
  pose proof (Write_logs P (File f3) (drop (Z.to_nat capSpace) b) w5
                (fun i => PW i _)) as H6.
  destruct (OS.Write (File f3) _ w5) as [[k' err'] w6]. simpl in *.
  eapply logs_trans; [exact H15 | exact H6].
Qed.
Lemma count_events_app p e1 e2 :
  count_events p (e1 ++ e2) = (count_events p e1 + count_events p e2)%nat.
Proof. unfold count_events. by rewrite filter_app, length_app. Qed.

Lemma count_events_none p evs :
  Forall (fun e => p e = false) evs -> count_events p evs = 0%nat.
Proof.
  unfold count_events. induction 1 as [|e evs He _ IH]; [done|].
  rewrite filter_cons. destruct (decide (p e = true)); [congruence | done].
Qed.

Lemma dir_event_not_close e : dir_event e -> is_close e = false.
Proof. by destruct e. Qed.
Lemma dir_event_not_open e : dir_event e -> is_open e = false.
Proof. by destruct e. Qed.

(** A rollover that succeeds renames the active file once when there are
    backups to keep, and not at all otherwise. *)
Lemma rollover_moves name backup w w' :
  rollover name backup w = (None, w') ->
  count_events (moves name) (events_since w w') =
  if 0 <? backup then 1%nat else 0%nat.
Proof.
  unfold rollover. destruct (0 <? backup).
  2:{ intros [= <-]. unfold events_since. by rewrite drop_all. }
  pose proof (shift_backups_logs name (Z.to_nat (GoInt.sub backup 1)) w) as H0.
  destruct (shift_backups _ _ w) as [err w0]. simpl in H0.
  destruct H0 as (evs0 & H0 & F0).
  destruct err; [done|].
  pose proof (isFileExist_trace (Sprintf_s_d name 1) w0) as H1.
  destruct (isFileExist _ w0) as [ex w1]. simpl in H1.
  assert (exists evs, trace (snd (if ex then OS.Remove (Sprintf_s_d name 1) w1
                  else (None, w1))) = trace w1 ++ evs /\
            Forall (fun e => moves name e = false) evs)
    as (evs3 & H3 & F3).
  { destruct ex.
    - eexists. split; [apply Remove_trace|]. by repeat constructor.
    - exists []. by rewrite app_nil_r. }
  destruct (if ex then _ else _) as [err w3]. simpl in H3.
  destruct err; [done|].
  pose proof (Rename_trace name (Sprintf_s_d name 1) w3) as H4.
  intros HR. rewrite HR in H4. simpl in H4.
  rewrite H3, H1, H0, <- !app_assoc in H4.
  rewrite (events_since_app _ _ _ H4).
  rewrite !count_events_app.
  rewrite (count_events_none _ evs0), (count_events_none _ evs3); try done.
  - unfold count_events. simpl. rewrite filter_cons. simpl.
    rewrite bool_decide_eq_true_2 by done. done.
  - eapply Forall_impl; [exact F0|]. by intros e [_ ?].
Qed.

(** A spilling call that succeeds, step by step. *)
Lemma write_spills_ok f w b n f' w' :
  let capSpace := GoInt.sub (CapLimit f) (CapUsing f) in
  0 <= capSpace < len b ->
  write b (f, w) = (Val (n, None), (f', w')) ->
  exists i j evs,
    File f = FileOpen i /\ File f' = FileOpen j /\
    events_since w w' =
      [EvWrite i (take (Z.to_nat capSpace) b); EvClose i] ++ evs ++
      [EvOpen (Name f) append_flags; EvWrite j (drop (Z.to_nat capSpace) b)] /\
    Forall dir_event evs /\
    count_events (moves (Name f)) evs =
      (if 0 <? Backup f then 1%nat else 0%nat) /\
    CapUsing f' = len b - capSpace /\
    n = GoInt.wrap (len b).
Proof.
  intros capSpace Hc. rewrite write_spills by done. fold capSpace.
  set (head := take (Z.to_nat capSpace) b).
  set (tail := drop (Z.to_nat capSpace) b).
  pose proof (Write_trace (File f) head w) as T1.
  destruct (OS.Write (File f) head w) as [[k err] w1] eqn:W1. simpl in T1.
  simpl. destruct err; [done|].
  apply Write_nil_error in W1 as [-> [i Hi]]. rewrite Hi in *.
  pose proof (Close_trace (FileOpen i) (snd (OS.Now w1))) as T2.
  destruct (OS.Close (FileOpen i) _) as [[cerr closed] w3]. simpl in T2.
  destruct cerr; [done|].
  pose proof (rollover_logs (Name f) (Backup f) w3) as (evs & T3 & F3).
  pose proof (rollover_moves (Name f) (Backup f) w3) as M3.
  destruct (rollover _ _ w3) as [rerr w4]. simpl in T3.
  destruct rerr; [done|]. specialize (M3 w4 eq_refl).
  rewrite (events_since_app _ _ _ T3) in M3.
  match goal with |- context [OpenWronlyCreateAppend (?g, w4)] =>
    pose proof (reopen_trace g w4) as T4; 
    destruct (OpenWronlyCreateAppend (g, w4)) as [oerr [f3 w5]] eqn:O4 end.
  simpl in T4.
  destruct oerr; [done|].
  pose proof (Write_trace (File f3) tail w5) as T5.
  destruct (OS.Write (File f3) tail w5) as [[k' err'] w6] eqn:W5. simpl in T5.
  unfold touch. intros E. injection E as En Ee Ef Ew. subst n err' f' w'.
  apply Write_nil_error in W5 as [-> [j Hj]]. rewrite Hj in *.
  assert (Hh : len head = capSpace) by (apply len_take; lia).
  assert (Ht : len tail = len b - capSpace) by (apply len_drop; lia).
  exists i, j, evs. repeat split; try done.
  - apply events_since_app. simpl.
    rewrite T5, T4, T3, T2, T1. by rewrite <- !app_assoc.
  - rewrite add_zero_l.
    + unfold GoInt.add. f_equal. lia.
    + rewrite Hh. apply sub_range.
Qed.

(** A fitting call that succeeds. *)
Lemma write_fits_ok f w b n f' w' :
  len b <= GoInt.sub (CapLimit f) (CapUsing f) ->
  write b (f, w) = (Val (n, None), (f', w')) ->
  exists i,
    File f = FileOpen i /\ File f' = FileOpen i /\
    events_since w w' = [EvWrite i b] /\
    CapUsing f' = GoInt.add (CapUsing f) (len b) /\
    n = len b.
Proof.
  intros Hfit. rewrite write_fits by done.
  pose proof (Write_trace (File f) b w) as T1.
  destruct (OS.Write (File f) b w) as [[k err] w1] eqn:W1. simpl in T1.
  unfold touch. simpl. intros E. injection E as En Ee Ef Ew.
  subst k err f' w'.
  apply Write_nil_error in W1 as [-> [i Hi]]. rewrite Hi in *.
  exists i. repeat split; try done.
  by apply events_since_app.
Qed.

(** On success the count returned is the length of the input. *)
Lemma write_ok_count f w b n s' :
  len b <= GoInt.max_int ->
  write b (f, w) = (Val (n, None), s') -> n = len b.
Proof.
  intros Hb H. destruct s' as [f' w'].
  set (capSpace := GoInt.sub (CapLimit f) (CapUsing f)).
  destruct (Z.le_gt_cases (len b) capSpace) as [Hfit|Hspill].
  { by destruct (write_fits_ok _ _ _ _ _ _ Hfit H)
      as (i & _ & _ & _ & _ & ->). }
  destruct (Z.lt_ge_cases capSpace 0) as [Hneg|Hpos].
  { by rewrite write_negative_space in H. }
  destruct (write_spills_ok f w b n f' w')
    as (i & j & evs & _ & _ & _ & _ & _ & _ & ->); [done | done |].
  apply wrap_in_range. pose proof (len_nonneg b).
  unfold GoInt.in_range, GoInt.min_int. lia.
Qed.

(* ===================================================================== *)
(** ** A call of [write] as a sequence of steps *)
(* ===================================================================== *)

Lemma write_steps f w b : rtc step (f, w) (snd (write b (f, w))).
Proof.
  set (capSpace := GoInt.sub (CapLimit f) (CapUsing f)).
  destruct (Z.le_gt_cases (len b) capSpace) as [Hfit|Hspill].
  { rewrite write_fits by done.
    pose proof (step_write f w b) as S1.
    destruct (OS.Write (File f) b w) as [r w1]. apply rtc_once, S1. }
  destruct (Z.lt_ge_cases capSpace 0) as [Hneg|Hpos].
  { by rewrite write_negative_space. }
  rewrite write_spills by done. fold capSpace.
  pose proof (step_write f w (take (Z.to_nat capSpace) b)) as S1.
  destruct (OS.Write (File f) _ w) as [[k err] w1].
  specialize (S1 (GoInt.add (CapUsing f) k)). apply rtc_once in S1.
  simpl in *.
  destruct err; [done|].
  etrans; [exact S1|]. clear S1.
  match goal with |- context [OS.Close (File f) ?w2] =>
    pose proof (step_close (set_UpdateAt (clock w1)
       (set_CapUsing (GoInt.add (CapUsing f) k) f)) w2) as S2 end.
  simpl in S2.
  destruct (OS.Close (File f) _) as [[cerr closed] w3]. simpl in S2.
  apply rtc_once in S2.
  destruct cerr; [done|].
  etrans; [exact S2|]. clear S2.
  match goal with |- context [OpenWronlyCreateAppend (?g, _)] =>
    pose proof (step_rollover g w3) as S3 end.
  simpl in S3.
  destruct (rollover _ _ w3) as [rerr w4]. simpl in S3.
  apply rtc_once in S3.
  destruct rerr; [done|].
  etrans; [exact S3|]. clear S3.
  match goal with |- context [OpenWronlyCreateAppend (?g, w4)] =>
    pose proof (step_reopen g w4) as S4;
    destruct (OpenWronlyCreateAppend (g, w4)) as [oerr [f3 w5]] end.
  simpl in S4. apply rtc_once in S4.
  destruct oerr; [done|].
  etrans; [exact S4|]. clear S4.
  pose proof (step_write f3 w5 (drop (Z.to_nat capSpace) b)) as S5.
  destruct (OS.Write (File f3) _ w5) as [[k' err'] w6].
  apply rtc_once, S5.
Qed.

Lemma run_writes_steps bs s : rtc step s (snd (run_writes bs s)).
Proof.
  revert s. induction bs as [|b bs IH]; intros [f w]; [done|].
  simpl. pose proof (write_steps f w b) as H.
  destruct (write b (f, w)) as [r s1]. simpl in H.
  specialize (IH s1). destruct (run_writes bs s1) as [rs s2].
  simpl in *. by etrans.
Qed.

Lemma step_config s s' : step s s' -> same_config (fst s) (fst s').
Proof.
  destruct 1; simpl; try done.
  unfold OpenWronlyCreateAppend.
  destruct (OS.OpenFile _ _ w) as [[r err] w1]. by destruct err.
Qed.

Lemma steps_config s s' : rtc step s s' -> same_config (fst s) (fst s').
Proof.
  induction 1 as [|s1 s2 s3 H12 _ IH]; [done|].
  apply step_config in H12. unfold same_config in *.
  destruct H12 as (E1 & E2 & E3), IH as (E4 & E5 & E6).
  repeat split; congruence.
Qed.

Lemma write_config f w b : same_config f (fst (snd (write b (f, w)))).
Proof. apply (steps_config (f, w)), write_steps. Qed.

Lemma sub_no_wrap a b :
  0 <= a <= GoInt.max_int -> 0 <= b <= GoInt.max_int -> GoInt.sub a b = a - b.
Proof.
  intros Ha Hb. apply wrap_in_range.
  unfold GoInt.in_range, GoInt.min_int, GoInt.max_int in *. lia.
Qed.

(* ===================================================================== *)
(** ** Writes past the capacity *)
(* ===================================================================== *)

(** Evaluations shared by the examples below. *)
Lemma example_zero_capacity :
  exists s s',
    opened "app.log" 1 0 (empty_world 0) = Some s /\
    CapLimit (fst s) = 0 /\ CapUsing (fst s) = 0 /\
    write (bytes_of "a") s = (Val (1, None), s') /\
    events_since (snd s) (snd s') =
      [EvWrite 0 []; EvClose 0; EvStat "app.log.1";
       EvRename "app.log" "app.log.1"; EvOpen "app.log" append_flags;
       EvWrite 1 (bytes_of "a")] /\
    content "app.log" (snd s') = Some (bytes_of "a") /\
    content "app.log.1" (snd s') = Some [] /\
    CapLimit (fst s') = 0 /\ CapUsing (fst s') = 1 /\
    fst (write (bytes_of "b") s') = Panic (SliceBounds (-1) 1).
Proof.
  eexists _, _. split; [vm_compute; reflexivity|].
  split; [reflexivity|]. split; [reflexivity|].
  split; [vm_compute; reflexivity|].
  repeat split; vm_compute; reflexivity.
Qed.

Lemma example_oversized_write :
  exists s s',
    opened "app.log" 1 2 (empty_world 0) = Some s /\
    CapLimit (fst s) = 2 /\ CapUsing (fst s) = 0 /\
    write (bytes_of "abcdefg") s = (Val (7, None), s') /\
    count_events is_close (events_since (snd s) (snd s')) = 1%nat /\
    count_events is_rename (events_since (snd s) (snd s')) = 1%nat /\
    count_events is_open (events_since (snd s) (snd s')) = 1%nat /\
    content "app.log" (snd s') = Some (bytes_of "cdefg") /\
    content "app.log.1" (snd s') = Some (bytes_of "ab") /\
    CapLimit (fst s') = 2 /\ CapUsing (fst s') = 5.
Proof.
  eexists _, _. split; [vm_compute; reflexivity|].
  split; [reflexivity|]. split; [reflexivity|].
  split; [vm_compute; reflexivity|].
  repeat split; vm_compute; reflexivity.
Qed.

Lemma example_large_existing_file :
  exists s,
    opened "app.log" 1 4 (one_file_world "app.log" (bytes_of "12345678") 7 9)
      = Some s /\
    CapLimit (fst s) = 4 /\ CapUsing (fst s) = 8.
Proof. eexists. split; [vm_compute; reflexivity|]. by split. Qed.

(** C2, as the code has it.  A call of [write] rotates once, whatever the
    length of the input.  For a sink with [CapLimit > 0], a successful call
    whose input is longer than the free space plus [CapLimit] closes the
    active file once, reopens it once and renames it once when
    [Backup > 0] (never otherwise); the first [capSpace] bytes go to the
    old file and the whole tail goes to the fresh one, so that [CapUsing]
    ends as the length of the tail. *)
Theorem oversized_write_rotates_once f w b n f' w' :
  0 < CapLimit f <= GoInt.max_int ->
  0 <= CapUsing f <= GoInt.max_int ->
  (CapLimit f - CapUsing f) + CapLimit f < len b ->
  write b (f, w) = (Val (n, None), (f', w')) ->
  count_events is_close (events_since w w') = 1%nat /\
  count_events is_open (events_since w w') = 1%nat /\
  count_events (moves (Name f)) (events_since w w') =
    (if 0 <? Backup f then 1%nat else 0%nat) /\
  (exists i j evs,
     events_since w w' =
       [EvWrite i (take (Z.to_nat (CapLimit f - CapUsing f)) b); EvClose i]
       ++ evs ++
       [EvOpen (Name f) append_flags;
        EvWrite j (drop (Z.to_nat (CapLimit f - CapUsing f)) b)] /\
     Forall dir_event evs) /\
  CapUsing f' = len b - (CapLimit f - CapUsing f).
Proof.
  intros HL HU Hb HW.
  assert (Hs : GoInt.sub (CapLimit f) (CapUsing f) = CapLimit f - CapUsing f)
    by (apply sub_no_wrap; lia).
  destruct (Z.lt_ge_cases (CapLimit f - CapUsing f) 0) as [Hneg|Hpos].
  { rewrite write_negative_space in HW by lia. done. }
  destruct (write_spills_ok f w b n f' w') as
    (i & j & evs & Hi & Hj & Hev & Fev & Mev & HC & Hn); [lia | done |].
  rewrite Hs in *.
  rewrite Hev, !count_events_app.
  rewrite (count_events_none is_close evs), (count_events_none is_open evs),
    Mev.
  - repeat split; try done. by exists i, j, evs.
  - eapply Forall_impl; [exact Fev | apply dir_event_not_open].
  - eapply Forall_impl; [exact Fev | apply dir_event_not_close].
Qed.

(** A sink of capacity 2 takes the seven bytes ["abcdefg"] in one call:
    the call succeeds, three boundaries are crossed, the file is rotated
    once and [CapUsing] ends at 5, above the capacity. *)
Lemma oversized_write_single_rotation_example :
  exists s s',
    opened "app.log" 1 2 (empty_world 0) = Some s /\
    0 < CapLimit (fst s) /\
    (CapLimit (fst s) - CapUsing (fst s)) + CapLimit (fst s)
      < len (bytes_of "abcdefg") /\
    write (bytes_of "abcdefg") s = (Val (7, None), s') /\
    count_events is_close (events_since (snd s) (snd s')) = 1%nat /\
    count_events is_rename (events_since (snd s) (snd s')) = 1%nat /\
    ~ CapUsing (fst s') <= CapLimit (fst s').
Proof.
  destruct example_oversized_write as
    (s & s' & H1 & H2 & H3 & H4 & H5 & H6 & _ & _ & _ & H7 & H8).
  exists s, s'. rewrite H2, H3, H7, H8.
  repeat split; try done. vm_compute. done.
Qed.

Lemma oversized_write_rotates_once_witness :
  let f := mkRotateFile 1 2 0 (FileOpen 0) "app.log" 0 in
  let w := one_file_world "app.log" [] 0 0 in
  let b := bytes_of "abcdefg" in
  exists f' w',
    write b (f, w) = (Val (7, None), (f', w')) /\
    count_events is_close (events_since w w') = 1%nat /\
    CapUsing f' = 5.
Proof.
  intros f w b.
  destruct (write b (f, w)) as [r [f' w']] eqn:HW.
  assert (Hr : r = Val (7, None))
    by (apply (f_equal fst) in HW; vm_compute in HW; congruence).
  subst r. exists f', w'. split; [done|].
  destruct (oversized_write_rotates_once f w b 7 f' w')
    as (H1 & _ & _ & _ & H4).
  - vm_compute. split; [done | discriminate].
  - vm_compute. split; discriminate.
  - vm_compute. done.
  - exact HW.
  - split; [exact H1|]. rewrite H4. vm_compute. done.
Defined.

(** C10.  Whenever [CapUsing] exceeds [CapLimit] (a capacity that is not
    negative), the next [write] panics on the slice expression
    [b[:capSpace]], whose bound is negative, for every input, the empty one
    included; nothing is written, closed or renamed and no error is
    returned.  Such states are reached: by [New] on a file larger than the
    capacity, by a rotating write whose tail is longer than the capacity,
    and with a capacity of zero after one rotation. *)
Theorem write_over_capacity_panics :
  (forall f w b,
     0 <= CapLimit f -> CapUsing f <= GoInt.max_int ->
     CapLimit f < CapUsing f ->
     write b (f, w) =
       (Panic (SliceBounds (CapLimit f - CapUsing f) (len b)), (f, w))) /\
  (exists s,
     opened "app.log" 1 4
       (one_file_world "app.log" (bytes_of "12345678") 7 9) = Some s /\
     0 <= CapLimit (fst s) < CapUsing (fst s)) /\
  (exists s s',
     opened "app.log" 1 2 (empty_world 0) = Some s /\
     write (bytes_of "abcdefg") s = (Val (7, None), s') /\
     0 <= CapLimit (fst s') < CapUsing (fst s')) /\
  (exists s s',
     opened "app.log" 1 0 (empty_world 0) = Some s /\
     write (bytes_of "a") s = (Val (1, None), s') /\
     count_events is_close (events_since (snd s) (snd s')) = 1%nat /\
     CapLimit (fst s') = 0 /\ 0 < CapUsing (fst s')).
Proof.
  split; [|split; [|split]].
  - intros f w b H0 H1 H2.
    rewrite write_negative_space; rewrite sub_no_wrap; try done; lia.
  - destruct example_large_existing_file as (s & H1 & H2 & H3).
    exists s. rewrite H2, H3. split; [done | lia].
  - destruct example_oversized_write as
      (s & s' & H1 & _ & _ & H4 & _ & _ & _ & _ & _ & H7 & H8).
    exists s, s'. rewrite H7, H8. repeat split; try done; lia.
  - destruct example_zero_capacity as
      (s & s' & H1 & _ & _ & H4 & H5 & _ & _ & H7 & H8 & _).
    exists s, s'. rewrite H5, H7, H8. repeat split; try done.
Qed.

Lemma write_over_capacity_panics_witness :
  let f := mkRotateFile 1 4 8 (FileOpen 0) "app.log" 7 in
  let w := one_file_world "app.log" (bytes_of "12345678") 7 9 in
  0 <= CapLimit f /\ CapUsing f <= GoInt.max_int /\ CapLimit f < CapUsing f /\
  write [] (f, w) = (Panic (SliceBounds (-4) 0), (f, w)).
Proof.
  intros f w.
  assert (H0 : 0 <= CapLimit f) by (simpl; lia).
  assert (H1 : CapUsing f <= GoInt.max_int) by (vm_compute; discriminate).
  assert (H2 : CapLimit f < CapUsing f) by (simpl; lia).
  split; [exact H0|]. split; [exact H1|]. split; [exact H2|].
  exact (proj1 write_over_capacity_panics f w [] H0 H1 H2).
Defined.

(* ===================================================================== *)
(** ** A failure of the first write of a rotating call *)
(* ===================================================================== *)

(** C8.  In the branch of [write] taken when the input does not fit, if
    the write of the first [capSpace] bytes reports an error after [k]
    bytes, then [write] returns [k] and that error, [CapUsing] has advanced
    by [k], [UpdateAt] is the time of the call, and nothing else was done:
    the handle is not closed, the directory is as before, the only system
    call logged is that write, and the world is the one the write left. *)
Theorem write_head_failure_keeps_partial_count f w b k e w1 :
  let capSpace := GoInt.sub (CapLimit f) (CapUsing f) in
  0 <= capSpace < len b ->
  OS.Write (File f) (take (Z.to_nat capSpace) b) w = ((k, Some e), w1) ->
  exists f' w',
    write b (f, w) = (Val (k, Some e), (f', w')) /\
    CapUsing f' = GoInt.add (CapUsing f) k /\
    UpdateAt f' = clock w /\
    File f' = File f /\
    names w' = names w /\ inodes w' = inodes w1 /\ faults w' = faults w1 /\
    events_since w w' =
      match File f with
      | FileOpen i => [EvWrite i (take (Z.to_nat capSpace) b)]
      | _ => []
      end.
Proof.
  intros capSpace Hc HW.
  pose proof (write_spills f w b Hc) as E. fold capSpace in E.
  rewrite HW in E. simpl in E.
  pose proof (Write_count (File f) (take (Z.to_nat capSpace) b) w) as Hk.
  pose proof (Write_trace (File f) (take (Z.to_nat capSpace) b) w) as Ht.
  pose proof (Write_names (File f) (take (Z.to_nat capSpace) b) w) as Hn.
  pose proof (Write_clock (File f) (take (Z.to_nat capSpace) b) w) as Hcl.
  rewrite HW in Hk, Ht, Hn, Hcl. simpl in Hk, Ht, Hn, Hcl.
  assert (Hr : GoInt.in_range k).
  { pose proof (sub_range (CapLimit f) (CapUsing f)) as Hs.
    fold capSpace in Hs.
    assert (len (take (Z.to_nat capSpace) b) = capSpace)
      by (apply len_take; lia).
    unfold GoInt.in_range, GoInt.min_int in *. lia. }
  rewrite (add_zero_l k Hr) in E.
  eexists _, _. split; [exact E|]. simpl.
  repeat split; try done.
  by apply events_since_app.
Qed.

Lemma write_head_failure_keeps_partial_count_witness :
  let f := mkRotateFile 2 10 5 (FileOpen 0) "app.log" 0 in
  let w := with_faults [Short 2 (ErrIO 5)]
             (one_file_world "app.log" (bytes_of "12345") 0 1) in
  let b := bytes_of "67890AB" in
  exists f' w',
    write b (f, w) = (Val (2, Some (ErrIO 5)), (f', w')) /\
    CapUsing f' = 7 /\ UpdateAt f' = 1 /\ File f' = FileOpen 0 /\
    events_since w w' = [EvWrite 0 (bytes_of "67890")] /\
    content "app.log" w' = Some (bytes_of "1234567").
Proof.
  intros f w b.
  set (w1 := snd (OS.Write (File f) (take 5 b) w)).
  destruct (write_head_failure_keeps_partial_count f w b 2 (ErrIO 5) w1)
    as (f' & w' & H1 & H2 & H3 & H4 & H5 & H6 & H7 & H8).
  - vm_compute. split; [discriminate | reflexivity].
  - vm_compute. reflexivity.
  - exists f', w'. split; [exact H1|]. split; [exact H2|].
    split; [exact H3|]. split; [exact H4|]. split; [exact H8|].
    unfold content. rewrite H5, H6. vm_compute. reflexivity.
Defined.

(* ===================================================================== *)
(** ** A capacity of zero *)
(* ===================================================================== *)

(** C1 (the code departs from it).  A sink made by [New] with a capacity
    of zero and one backup rotates on its first write of one byte: the
    active file is closed, renamed to ["app.log.1"] (empty) and reopened,
    and the byte goes to the fresh file.  The next write panics. *)
Theorem zero_capacity_write_rotates :
  exists s s',
    opened "app.log" 1 0 (empty_world 0) = Some s /\
    CapLimit (fst s) = 0 /\
    write (bytes_of "a") s = (Val (1, None), s') /\
    events_since (snd s) (snd s') =
      [EvWrite 0 []; EvClose 0; EvStat "app.log.1";
       EvRename "app.log" "app.log.1"; EvOpen "app.log" append_flags;
       EvWrite 1 (bytes_of "a")] /\
    count_events is_rotation (events_since (snd s) (snd s')) = 3%nat /\
    content "app.log" (snd s') = Some (bytes_of "a") /\
    content "app.log.1" (snd s') = Some [] /\
    fst (write (bytes_of "b") s') = Panic (SliceBounds (-1) 1).
Proof.
  destruct example_zero_capacity as
    (s & s' & H1 & H2 & H3 & H4 & H5 & H6 & H7 & H8 & H9 & H10).
  exists s, s'. rewrite H5. repeat split; try done.
Qed.

(* ===================================================================== *)
(** ** Writes within the capacity *)
(* ===================================================================== *)

Lemma total_len_nonneg bs : 0 <= total_len bs.
Proof.
  induction bs as [|b bs IH]; simpl; [done|]. pose proof (len_nonneg b). lia.
Qed.

(** One fitting call: only a write is logged, and the count moves by what
    the write returned. *)
Lemma write_fits_step f w b :
  0 <= CapUsing f -> CapLimit f <= GoInt.max_int ->
  CapUsing f + len b <= CapLimit f ->
  let '(r, (f', w')) := write b (f, w) in
  logs (fun e => is_rotation e = false) w w' /\
  CapLimit f' = CapLimit f /\
  CapUsing f <= CapUsing f' <= CapUsing f + len b /\
  (succeeded r = true -> CapUsing f' = CapUsing f + len b).
Proof.
  intros HU HL Hfit. pose proof (len_nonneg b) as Hb.
  assert (Hs : GoInt.sub (CapLimit f) (CapUsing f) = CapLimit f - CapUsing f)
    by (apply sub_no_wrap; lia).
  rewrite write_fits by (rewrite Hs; lia).
  pose proof (Write_logs (fun e => is_rotation e = false) (File f) b w
                (fun i => eq_refl)) as HL1.
  pose proof (Write_count (File f) b w) as Hn.
  destruct (OS.Write (File f) b w) as [[n err] w1] eqn:HW.
  simpl in *.
  assert (Ha : GoInt.add (CapUsing f) n = CapUsing f + n).
  { apply wrap_in_range.
    unfold GoInt.in_range, GoInt.min_int, GoInt.max_int in *. lia. }
  rewrite Ha. repeat split; try done; try lia.
  intros Hok. destruct err; [done|].
  apply Write_nil_error in HW as [-> _]. done.
Qed.

Lemma run_writes_fit bs : forall f w,
  CapLimit f <= GoInt.max_int ->
  0 <= CapUsing f ->
  CapUsing f + total_len bs <= CapLimit f ->
  let '(rs, (f', w')) := run_writes bs (f, w) in
  logs (fun e => is_rotation e = false) w w' /\
  CapUsing f' <= CapUsing f + total_len bs /\
  (all_succeeded rs = true -> CapUsing f' = CapUsing f + total_len bs).
Proof.
  induction bs as [|b bs IH]; intros f w HL HU Hsum.
  { simpl. split; [apply logs_refl|]. split; [lia|]. intros _. lia. }
  simpl in Hsum |- *.
  pose proof (total_len_nonneg bs) as Ht. pose proof (len_nonneg b) as Hb.
  pose proof (write_fits_step f w b HU HL) as H1.
  destruct (write b (f, w)) as [r [f1 w1]].
  destruct H1 as (L1 & C1 & [U1 U1'] & S1); [lia|].
  specialize (IH f1 w1). rewrite C1 in IH.
  destruct (run_writes bs (f1, w1)) as [rs [f2 w2]].
  destruct IH as (L2 & U2 & S2); [lia | lia | lia |].
  split; [by eapply logs_trans|]. split; [lia|].
  unfold all_succeeded. simpl. intros [Hr Hrs]%andb_prop.
  rewrite S2 by done. rewrite S1 by done. lia.
Qed.

(** C4.  A sink with [CapLimit > 0] whose active file is empty
    ([CapUsing = 0]) takes any sequence of inputs of cumulative size at
    most [CapLimit] without rotating: no close, rename or reopen is logged;
    and when every call of the sequence succeeded, [CapUsing] ends as the
    sum of the lengths of the inputs. *)
Theorem writes_within_capacity f w bs :
  0 < CapLimit f <= GoInt.max_int ->
  CapUsing f = 0 ->
  total_len bs <= CapLimit f ->
  let '(rs, (f', w')) := run_writes bs (f, w) in
  Forall (fun e => is_rotation e = false) (events_since w w') /\
  (all_succeeded rs = true -> CapUsing f' = total_len bs).
Proof.
  intros [_ HL] HU Hsum.
  pose proof (run_writes_fit bs f w HL) as G. rewrite HU in G.
  destruct (run_writes bs (f, w)) as [rs [f' w']].
  destruct G as (G1 & _ & G3); [lia | lia |].
  split; [by apply logs_events | done].
Qed.

Lemma writes_within_capacity_witness :
  let f := mkRotateFile 2 10 0 (FileOpen 0) "app.log" 0 in
  let w := one_file_world "app.log" [] 0 1 in
  let bs := [bytes_of "12345"; bytes_of "678"] in
  Forall (fun e => is_rotation e = false)
         (events_since w (snd (snd (run_writes bs (f, w))))) /\
  CapUsing (fst (snd (run_writes bs (f, w)))) = 8.
Proof.
  intros f w bs.
  assert (H1 : 0 < CapLimit f <= GoInt.max_int)
    by (vm_compute; split; [reflexivity | discriminate]).
  assert (H2 : CapUsing f = 0) by reflexivity.
  assert (H3 : total_len bs <= CapLimit f) by (vm_compute; discriminate).
  pose proof (writes_within_capacity f w bs H1 H2 H3) as H.
  destruct (run_writes bs (f, w)) as [rs [f' w']] eqn:HR.
  destruct H as [Hev Hcap]. split; [exact Hev|].
  simpl. rewrite Hcap; [reflexivity|].
  apply (f_equal fst) in HR. simpl in HR. rewrite <- HR.
  vm_compute. reflexivity.
Defined.

(* ===================================================================== *)
(** ** No backups: the file only grows *)
(* ===================================================================== *)

Lemma grows_refl w : grows w w.
Proof. by split. Qed.

Lemma grows_trans w1 w2 w3 : grows w1 w2 -> grows w2 w3 -> grows w1 w3.
Proof.
  intros [N1 D1] [N2 D2]. split; [by eauto|].
  intros i. etrans; [apply D1 | apply D2].
Qed.

Lemma grows_same w w' :
  names w' = names w -> inodes w' = inodes w -> grows w w'.
Proof. intros Hn Hi. split; intros; by rewrite ?Hn, ?Hi. Qed.

Lemma append_grows i p w : grows w (OS.append i p w).
Proof.
  split; [done|]. intros j. unfold OS.append. simpl.
  destruct (decide (i = j)) as [->|Hne].
  - rewrite lookup_total_insert_eq. simpl. by apply prefix_app_r.
  - by rewrite lookup_total_insert_ne.
Qed.

Lemma next_fault_grows e w : grows w (snd (OS.syscall e w)).
Proof.
  apply grows_same; unfold OS.syscall, OS.next_fault; simpl; by case_match.
Qed.

Lemma Write_grows h b w : grows w (snd (OS.Write h b w)).
Proof.
  unfold OS.Write. destruct h; try apply grows_refl.
  pose proof (next_fault_grows (EvWrite ino b) w) as H.
  destruct (OS.syscall _ w) as [ft w1]. simpl in H.
  destruct ft; simpl; try done;
    (eapply grows_trans; [exact H | apply append_grows]).
Qed.

Lemma Close_grows h w : grows w (snd (OS.Close h w)).
Proof.
  unfold OS.Close. destruct h; try apply grows_refl.
  pose proof (next_fault_grows (EvClose ino) w) as H.
  destruct (OS.syscall _ w) as [ft w1]. by destruct ft.
Qed.

Lemma create_grows name w :
  names w !! name = None -> grows w (snd (OS.create name w)).
Proof.
  intros Hn. unfold OS.create. simpl. split; simpl.
  - intros n i Hi. rewrite lookup_insert_ne; [done | congruence].
  - intros i.
    destruct (decide (fresh (dom (inodes w)) = i)) as [<-|Hne].
    + rewrite lookup_total_insert_eq. simpl.
      assert (inodes w !! fresh (dom (inodes w)) = None) as Hf
        by (apply not_elem_of_dom, is_fresh).
      rewrite lookup_total_alt, Hf. simpl. done.
    + by rewrite lookup_total_insert_ne.
Qed.

Lemma reopen_grows f w : grows w (snd (snd (OpenWronlyCreateAppend (f, w)))).
Proof.
  unfold OpenWronlyCreateAppend, OS.OpenFile. fold append_flags.
  pose proof (next_fault_grows (EvOpen (Name f) append_flags) w) as H.
  destruct (OS.syscall _ w) as [ft w1]. simpl in H.
  destruct ft; simpl; try done.
  destruct (names w1 !! Name f) as [i|] eqn:Hn.
  - done.
  - exact (grows_trans _ _ _ H (create_grows (Name f) w1 Hn)).
Qed.

Lemma step_grows s s' :
  step s s' -> Backup (fst s) <= 0 -> grows (snd s) (snd s').
Proof.
  destruct 1; simpl; intros HB.
  - apply (grows_trans _ (snd (OS.Write (File f) c w))); [apply Write_grows|].
    by apply grows_same.
  - apply Close_grows.
  - rewrite rollover_no_backup by done. apply grows_refl.
  - apply reopen_grows.
Qed.

Lemma steps_grow s s' :
  rtc step s s' -> Backup (fst s) <= 0 -> grows (snd s) (snd s').
Proof.
  induction 1 as [|s1 s2 s3 H12 _ IH]; intros HB; [apply grows_refl|].
  eapply grows_trans; [by apply step_grows|].
  apply IH. apply step_config in H12 as (-> & _). done.
Qed.

Lemma grows_content w w' name c :
  grows w w' -> content name w = Some c ->
  exists c', content name w' = Some (c ++ c').
Proof.
  intros [HN HD]. unfold content.
  destruct (names w !! name) as [i|] eqn:Hi; [|done]. simpl.
  intros [= <-]. rewrite (HN _ _ Hi). simpl.
  destruct (HD i) as [c' ->]. by exists c'.
Qed.

Lemma Write_ok_world i b w k w1 :
  OS.Write (FileOpen i) b w = ((k, None), w1) ->
  names w1 = names w /\
  data (inodes w1 !!! i) = data (inodes w !!! i) ++ b /\
  (forall j, j <> i -> inodes w1 !!! j = inodes w !!! j).
Proof.
  os_cases; intros; simplify_eq; simpl.
  all: split; [done|]; split;
    [by rewrite lookup_total_insert_eq
    | by intros; rewrite lookup_total_insert_ne].
Qed.

Lemma Close_ok_world h w closed w1 :
  OS.Close h w = ((None, closed), w1) ->
  names w1 = names w /\ inodes w1 = inodes w /\ closed = FileClosed.
Proof. os_cases; intros; by simplify_eq. Qed.

Lemma reopen_existing f w i f' w' :
  names w !! Name f = Some i ->
  OpenWronlyCreateAppend (f, w) = (None, (f', w')) ->
  File f' = FileOpen i /\ Name f' = Name f /\
  names w' = names w /\ inodes w' = inodes w.
Proof.
  intros Hn.
  unfold OpenWronlyCreateAppend, OS.OpenFile, OS.syscall, OS.next_fault.
  simpl. repeat case_match; simplify_eq; simpl in *; intros; simplify_eq; done.
Qed.

Lemma write_appends f w b n f' w' c :
  Backup f <= 0 -> linked (f, w) -> content (Name f) w = Some c ->
  write b (f, w) = (Val (n, None), (f', w')) ->
  linked (f', w') /\ content (Name f) w' = Some (c ++ b).
Proof.
  intros HB HL Hc.
  unfold linked in HL. simpl in HL.
  set (capSpace := GoInt.sub (CapLimit f) (CapUsing f)).
  destruct (Z.le_gt_cases (len b) capSpace) as [Hfit|Hspill].
  { rewrite write_fits by done.
    destruct (OS.Write (File f) b w) as [[k err] w1] eqn:HW.
    unfold touch. simpl. intros E. injection E as En Ee Ef Ew.
    subst k err f' w'.
    destruct (Write_nil_error _ _ _ _ _ HW) as [_ [i Hi]].
    rewrite Hi in *.
    apply Write_ok_world in HW as (N1 & D1 & _).
    unfold linked, content in *. simpl. rewrite Hi, N1, HL in *. simpl in *.
    split; [done|]. rewrite D1. congruence. }
  destruct (Z.lt_ge_cases capSpace 0) as [Hneg|Hpos].
  { by rewrite write_negative_space. }
  rewrite write_spills by done. fold capSpace.
  destruct (OS.Write (File f) _ w) as [[k err] w1] eqn:W1. simpl.
  destruct err; [done|].
  destruct (Write_nil_error _ _ _ _ _ W1) as [_ [i Hi]].
  rewrite Hi in *.
  apply Write_ok_world in W1 as (N1 & D1 & _).
  destruct (OS.Close (FileOpen i) _) as [[cerr closed] w3] eqn:C3.
  destruct cerr; [done|].
  apply Close_ok_world in C3 as (N3 & I3 & ->). simpl in N3, I3.
  rewrite rollover_no_backup by done.
  match goal with |- context [OpenWronlyCreateAppend (?g, w3)] =>
    destruct (OpenWronlyCreateAppend (g, w3)) as [oerr [f3 w5]] eqn:O4 end.
  destruct oerr; [done|].
  apply (reopen_existing _ _ i) in O4 as (F5 & Nm5 & N5 & I5);
    [|simpl; congruence].
  simpl in Nm5.
  destruct (OS.Write (File f3) _ w5) as [[k' err'] w6] eqn:W5.
  unfold touch. simpl. intros E. injection E as En Ee Ef Ew.
  subst n err' f' w'. rewrite F5 in W5.
  apply Write_ok_world in W5 as (N6 & D6 & _).
  unfold linked, content in *. simpl.
  rewrite F5, Nm5, N6, N5, N3, N1, HL in *. simpl in *.
  split; [done|]. rewrite D6, I5, I3, D1.
  injection Hc as <-. by rewrite <- app_assoc, take_drop.
Qed.

Lemma run_writes_logs (P : Event -> Prop) bs : forall f w,
  (forall i c, P (EvWrite i c)) ->
  (forall i, P (EvClose i)) ->
  P (EvOpen (Name f) append_flags) ->
  (forall w0, logs P w0 (snd (rollover (Name f) (Backup f) w0))) ->
  logs P w (snd (snd (run_writes bs (f, w)))).
Proof.
  induction bs as [|b bs IH]; intros f w PW PC PO PR; [apply logs_refl|].
  simpl.
  pose proof (write_logs P f w b PW PC PO PR) as H1.
  pose proof (write_config f w b) as (C1 & _ & C3).
  destruct (write b (f, w)) as [r [f1 w1]]. simpl in *.
  specialize (IH f1 w1 PW PC). rewrite C1, C3 in IH. specialize (IH PO PR).
  destruct (run_writes bs (f1, w1)) as [rs [f2 w2]]. simpl in *.
  by eapply logs_trans.
Qed.

Lemma run_writes_append bs : forall f w c,
  Backup f <= 0 -> linked (f, w) -> content (Name f) w = Some c ->
  all_succeeded (fst (run_writes bs (f, w))) = true ->
  content (Name f) (snd (snd (run_writes bs (f, w)))) = Some (c ++ concat bs).
Proof.
  induction bs as [|b bs IH]; intros f w c HB HL Hc.
  { simpl. by rewrite app_nil_r. }
  simpl.
  pose proof (write_appends f w b) as H1.
  pose proof (write_config f w b) as (C1 & _ & C3).
  destruct (write b (f, w)) as [r [f1 w1]]. simpl in C1, C3.
  specialize (IH f1 w1 (c ++ b)). rewrite C1, C3 in IH.
  destruct (run_writes bs (f1, w1)) as [rs [f2 w2]]. simpl in *.
  unfold all_succeeded. simpl. intros [Hr Hrs]%andb_prop.
  destruct r as [[n [e|]]|p]; try done.
  destruct (H1 n f1 w1 c) as [L1 Hc1]; try done.
  rewrite app_assoc. by apply IH.
Qed.

(** C6.  With [Backup = 0], whatever [CapLimit] is and whatever the calls
    return, a sequence of writes logs no rename and no removal, and every
    file keeps the bytes it had, followed by what was appended.  When the
    handle is on the file at [Name] (as [New] leaves it) and every call
    succeeded, the file at [Name] holds its former content followed by all
    the inputs, in order. *)
Theorem no_backup_keeps_appending f w bs :
  Backup f = 0 ->
  let '(rs, (f', w')) := run_writes bs (f, w) in
  Forall (fun e => is_rename e = false /\ is_remove e = false)
         (events_since w w') /\
  (forall name c, content name w = Some c ->
     exists c', content name w' = Some (c ++ c')) /\
  (linked (f, w) -> all_succeeded rs = true ->
   forall c, content (Name f) w = Some c ->
     content (Name f) w' = Some (c ++ concat bs)).
Proof.
  intros HB.
  pose proof (run_writes_logs
                (fun e => is_rename e = false /\ is_remove e = false)
                bs f w) as HL.
  pose proof (run_writes_steps bs (f, w)) as HS.
  pose proof (run_writes_append bs f w) as HA.
  destruct (run_writes bs (f, w)) as [rs [f' w']]. simpl in *.
  split; [|split].
  - apply logs_events, HL; try done.
    intros w0. rewrite rollover_no_backup by lia. apply logs_refl.
  - intros name c Hc. eapply grows_content; [|exact Hc].
    apply (steps_grow _ _ HS). simpl. lia.
  - intros Hlk Hok c Hc. apply HA; try done. lia.
Qed.


Lemma no_backup_keeps_appending_witness :
  let f := mkRotateFile 0 4 3 (FileOpen 0) "app.log" 0 in
  let w := one_file_world "app.log" (bytes_of "abc") 0 1 in
  let bs := [bytes_of "d"; bytes_of "efg"] in
  let w' := snd (snd (run_writes bs (f, w))) in
  Forall (fun e => is_rename e = false /\ is_remove e = false)
         (events_since w w') /\
  content "app.log" w' = Some (bytes_of "abcdefg").
Proof.
  intros f w bs w'.
  pose proof (no_backup_keeps_appending f w bs eq_refl) as H.
  unfold w'. destruct (run_writes bs (f, w)) as [rs [f1 w1]] eqn:HR.
  destruct H as (Hev & _ & Happ). split; [exact Hev|].
  assert (Hlk : linked (f, w)) by (vm_compute; reflexivity).
  assert (Hok : all_succeeded rs = true).
  { apply (f_equal fst) in HR. simpl in HR. rewrite <- HR.
    vm_compute. reflexivity. }
  exact (Happ Hlk Hok (bytes_of "abc") eq_refl).
Defined.

(* ===================================================================== *)
(** ** Construction *)
(* ===================================================================== *)

Lemma Fstat_same h w :
  names (snd (OS.Fstat h w)) = names w /\
  inodes (snd (OS.Fstat h w)) = inodes w.
Proof. by os_cases. Qed.

Lemma New_grows name backup size w :
  grows w (snd (New name backup size w)).
Proof.
  unfold New.
  pose proof (reopen_grows (mkRotateFile backup size 0 FileNil name 0) w) as H.
  destruct (OpenWronlyCreateAppend _) as [err [r w1]]. simpl in H.
  destruct err; [done|].
  pose proof (Fstat_same (File r) w1) as [Hn Hi].
  destruct (OS.Fstat (File r) w1) as [[s e] w2]. simpl in *.
  assert (grows w w2).
  { eapply grows_trans; [exact H|]. by apply grows_same. }
  by destruct s, e.
Qed.

Lemma New_existing name backup size w i :
  names w !! name = Some i ->
  calm 2 w ->
  len (data (inodes w !!! i)) <= GoInt.max_int ->
  exists w',
    New name backup size w =
      ((Some (mkRotateFile backup size (len (data (inodes w !!! i)))
                (FileOpen i) name (modTime (inodes w !!! i))), None), w') /\
    names w' = names w /\ inodes w' = inodes w.
Proof.
  intros Hn Hcalm Hsz.
  assert (Hw : GoInt.wrap (len (data (inodes w !!! i)))
               = len (data (inodes w !!! i))).
  { apply wrap_in_range. pose proof (len_nonneg (data (inodes w !!! i))).
    unfold GoInt.in_range, GoInt.min_int. lia. }
  unfold calm in Hcalm.
  unfold New, OpenWronlyCreateAppend, OS.OpenFile, OS.Fstat, OS.syscall,
    OS.next_fault, OS.info. simpl.
  destruct (faults w) as [|f1 [|f2 rest]] eqn:Hf; simpl in *.
  - rewrite Hn. simpl. rewrite Hf. simpl. rewrite Hw. eexists. by repeat split.
  - apply Forall_cons in Hcalm as [<- _].
    rewrite Hn. simpl. rewrite Hw. eexists. by repeat split.
  - apply Forall_cons in Hcalm as [<- Hc]. apply Forall_cons in Hc as [<- _].
    rewrite Hn. simpl. rewrite Hw. eexists. by repeat split.
Qed.

Lemma New_stat_failure name backup size w r1 w1 e w2 :
  OpenWronlyCreateAppend (mkRotateFile backup size 0 FileNil name 0, w)
    = (None, (r1, w1)) ->
  OS.Fstat (File r1) w1 = ((None, Some e), w2) ->
  New name backup size w = ((None, Some e), w2).
Proof. intros HO HF. unfold New. by rewrite HO, HF. Qed.

Lemma New_events name backup size w :
  exists evs,
    events_since w (snd (New name backup size w))
      = EvOpen name append_flags :: evs /\
    Forall (fun e => is_open e = false) evs.
Proof.
  unfold New.
  pose proof (reopen_trace (mkRotateFile backup size 0 FileNil name 0) w) as H.
  destruct (OpenWronlyCreateAppend _) as [err [r w1]]. simpl in H.
  destruct err.
  { exists []. split; [|done]. by apply events_since_app. }
  assert (exists evs, trace (snd (OS.Fstat (File r) w1)) = trace w1 ++ evs /\
            Forall (fun e => is_open e = false) evs) as (evs & HF & FF).
  { os_cases; try (exists []; by rewrite app_nil_r);
      (eexists [_]; split; [reflexivity|]; by repeat constructor). }
  destruct (OS.Fstat (File r) w1) as [[s e] w2]. simpl in HF.
  exists evs. split; [|done].
  assert (trace w2 = trace w ++ EvOpen name append_flags :: evs)
    by (rewrite HF, H, <- app_assoc; done).
  destruct s, e; simpl; by apply events_since_app.
Qed.

(** C7.  [New] opens [name] with create and append and without truncate
    (this is its only open), and no file loses a byte, whatever fails.
    When the file exists, with inode [i], and the open and the stat go
    through, [New] returns a sink whose [CapUsing] is the size of the file
    and whose [UpdateAt] is its modification time, on a handle on [i], and
    the directory and the files are as before.  When the stat that follows
    a successful open fails, [New] returns the error and no sink. *)
Theorem New_opens_for_append name backup size w :
  let w' := snd (New name backup size w) in
  (has_flag append_flags O_CREATE = true /\
   has_flag append_flags O_APPEND = true /\
   has_flag append_flags O_TRUNC = false) /\
  (exists evs,
     events_since w w' = EvOpen name append_flags :: evs /\
     Forall (fun e => is_open e = false) evs) /\
  grows w w' /\
  (forall i,
     names w !! name = Some i ->
     calm 2 w ->
     len (data (inodes w !!! i)) <= GoInt.max_int ->
     fst (New name backup size w) =
       (Some (mkRotateFile backup size (len (data (inodes w !!! i)))
                (FileOpen i) name (modTime (inodes w !!! i))), None) /\
     names w' = names w /\ inodes w' = inodes w) /\
  (forall r1 w1 e w2,
     OpenWronlyCreateAppend (mkRotateFile backup size 0 FileNil name 0, w)
       = (None, (r1, w1)) ->
     OS.Fstat (File r1) w1 = ((None, Some e), w2) ->
     New name backup size w = ((None, Some e), w2)).
Proof.
  intros w'. split; [by repeat split|].
  split; [apply New_events|].
  split; [apply New_grows|].
  split; [|apply New_stat_failure].
  intros i Hn Hc Hs.
  destruct (New_existing name backup size w i Hn Hc Hs) as (w1 & E & N & I).
  unfold w'. rewrite E. done.
Qed.

Lemma New_opens_for_append_witness :
  let w := one_file_world "app.log" (bytes_of "12345678") 7 9 in
  let wf := with_faults [Pass; Fail (ErrIO 5)] w in
  fst (New "app.log" 1 4 w)
    = (Some (mkRotateFile 1 4 8 (FileOpen 0) "app.log" 7), None) /\
  content "app.log" (snd (New "app.log" 1 4 w)) = Some (bytes_of "12345678") /\
  fst (New "app.log" 1 4 wf) = (None, Some (ErrIO 5)).
Proof.
  intros w wf.
  destruct (New_opens_for_append "app.log" 1 4 w) as (_ & _ & _ & Hex & _).
  destruct (Hex 0%nat) as (Hr & Hn & Hi).
  { vm_compute. reflexivity. }
  { unfold calm. simpl. constructor. }
  { vm_compute. discriminate. }
  split; [exact Hr|].
  split; [unfold content; rewrite Hn, Hi; vm_compute; reflexivity|].
  destruct (New_opens_for_append "app.log" 1 4 wf) as (_ & _ & _ & _ & Hst).
  set (r0 := mkRotateFile 1 4 0 FileNil "app.log" 0).
  rewrite (Hst (fst (snd (OpenWronlyCreateAppend (r0, wf))))
               (snd (snd (OpenWronlyCreateAppend (r0, wf))))
               (ErrIO 5)
               (snd (OS.Fstat (FileOpen 0)
                       (snd (snd (OpenWronlyCreateAppend (r0, wf))))))).
  - reflexivity.
  - vm_compute. reflexivity.
  - vm_compute. reflexivity.
Defined.

(* ===================================================================== *)
(** ** The rotation of the backups *)
(* ===================================================================== *)

Lemma quiet_syscall e w :
  quiet w ->
  exists w1, OS.syscall e w = (Pass, w1) /\ after w [e] (names w) w1.
Proof.
  unfold quiet, OS.syscall, OS.next_fault. simpl.
  destruct (faults w) as [|ft rest] eqn:Hf; intros Hq.
  - eexists. split; [reflexivity|]. repeat split; simpl; try done.
    unfold quiet. simpl. by rewrite Hf.
  - apply Forall_cons in Hq as [<- Hq].
    eexists. split; [reflexivity|]. by repeat split.
Qed.

Lemma isFileExist_quiet n w :
  quiet w ->
  exists w1,
    isFileExist n w = (bool_decide (is_Some (names w !! n)), w1) /\
    after w [EvStat n] (names w) w1.
Proof.
  intros Hq. unfold isFileExist, OS.Stat.
  destruct (quiet_syscall (EvStat n) w Hq) as (w1 & -> & A).
  exists w1. split; [|done]. destruct A as (-> & _).
  by destruct (names w !! n).
Qed.

Lemma Remove_quiet n x w :
  quiet w -> names w !! n = Some x ->
  exists w1,
    OS.Remove n w = (None, w1) /\
    after w [EvRemove n] (delete n (names w)) w1.
Proof.
  intros Hq Hn. unfold OS.Remove.
  destruct (quiet_syscall (EvRemove n) w Hq) as (w1 & -> & A).
  destruct A as (N & I & T & Q). rewrite N, Hn.
  eexists. split; [reflexivity|]. by repeat split.
Qed.

Lemma Rename_quiet src dst x w :
  quiet w -> names w !! src = Some x ->
  exists w1,
    OS.Rename src dst w = (None, w1) /\
    after w [EvRename src dst] (<[dst := x]> (delete src (names w))) w1.
Proof.
  intros Hq Hn. unfold OS.Rename.
  destruct (quiet_syscall (EvRename src dst) w Hq) as (w1 & -> & A).
  destruct A as (N & I & T & Q). rewrite N, Hn.
  eexists. split; [reflexivity|]. by repeat split.
Qed.

Lemma after_trans w evs1 d1 w1 evs2 d2 w2 :
  after w evs1 d1 w1 -> after w1 evs2 d2 w2 -> after w (evs1 ++ evs2) d2 w2.
Proof.
  intros (N1 & I1 & T1 & Q1) (N2 & I2 & T2 & Q2).
  repeat split; try done; [congruence|]. by rewrite T2, T1, app_assoc.
Qed.

Lemma mutations_app e1 e2 : mutations (e1 ++ e2) = mutations e1 ++ mutations e2.
Proof. unfold mutations. by rewrite filter_app. Qed.


Lemma shift_backups_unfold name k w :
  shift_backups name (S k) w =
    let sfn := Sprintf_s_d name (Z.of_nat (S k)) in
    let dfn := Sprintf_s_d name (GoInt.add (Z.of_nat (S k)) 1) in
    let (src_exists, w) := isFileExist sfn w in
    if src_exists then
      let (err, w) := remove_then_rename sfn dfn w in
      match err with
      | Some e => (Some e, w)
      | None => shift_backups name k w
      end
    else shift_backups name k w.
Proof.
  cbn [shift_backups]. unfold remove_then_rename.
  destruct (isFileExist _ w) as [[] w1]; [|done].
  destruct (isFileExist _ w1) as [ex2 w2].
  destruct (if ex2 then _ else _) as [[e|] w3]; [done|].
  by destruct (OS.Rename _ _ w3) as [[e|] w4].
Qed.

Lemma rollover_unfold name backup w :
  rollover name backup w =
    if 0 <? backup then
      let (err, w) :=
        shift_backups name (Z.to_nat (GoInt.sub backup 1)) w in
      match err with
      | Some e => (Some e, w)
      | None => remove_then_rename name (Sprintf_s_d name 1) w
      end
    else (None, w).
Proof.
  unfold rollover, remove_then_rename. destruct (0 <? backup); [|done].
  destruct (shift_backups _ _ w) as [[e|] w0]; [done|].
  destruct (isFileExist _ w0) as [ex w1].
  by destruct (if ex then _ else _) as [[e|] w3].
Qed.

(** When nothing fails, that code does what [spec_replace] says. *)
Lemma remove_then_rename_quiet src dst x w :
  quiet w -> names w !! src = Some x -> src <> dst ->
  exists w' evs,
    remove_then_rename src dst w = (None, w') /\
    after w evs (fst (spec_replace src dst x (names w, []))) w' /\
    mutations evs = snd (spec_replace src dst x (names w, [])).
Proof.
  intros Hq Hs Hne. unfold remove_then_rename.
  destruct (isFileExist_quiet dst w Hq) as (w1 & -> & A1).
  pose proof A1 as (N1 & _ & _ & Q1).
  unfold spec_replace.
  destruct (names w !! dst) as [y|] eqn:Hd; simpl.
  - destruct (Remove_quiet dst y w1 Q1) as (w2 & -> & A2); [by rewrite N1|].
    pose proof A2 as (N2 & _ & _ & Q2).
    destruct (Rename_quiet src dst x w2 Q2) as (w3 & E3 & A3).
    { rewrite N2, N1, lookup_delete_ne; done. }
    exists w3, ([EvStat dst] ++ [EvRemove dst] ++ [EvRename src dst]).
    split; [done|]. split; [|reflexivity].
    rewrite N2, N1 in A3. rewrite N1 in A2.
    exact (after_trans _ _ _ _ _ _ _ A1 (after_trans _ _ _ _ _ _ _ A2 A3)).
  - destruct (Rename_quiet src dst x w1 Q1) as (w3 & E3 & A3).
    { by rewrite N1. }
    exists w3, ([EvStat dst] ++ [EvRename src dst]).
    split; [done|]. split; [|reflexivity].
    rewrite N1 in A3.
    exact (after_trans _ _ _ _ _ _ _ A1 A3).
Qed.

Lemma spec_replace_ops src dst x d ops :
  spec_replace src dst x (d, ops) =
  (fst (spec_replace src dst x (d, [])),
   ops ++ snd (spec_replace src dst x (d, []))).
Proof.
  unfold spec_replace. destruct (d !! dst); simpl; by rewrite <- ?app_assoc.
Qed.

Lemma add_one_no_wrap i : 0 <= i < GoInt.max_int -> GoInt.add i 1 = i + 1.
Proof.
  intros H. apply wrap_in_range.
  unfold GoInt.in_range, GoInt.min_int, GoInt.max_int in *. lia.
Qed.

Lemma Sprintf_s_d_ne name i j :
  i <> j -> Sprintf_s_d name i <> Sprintf_s_d name j.
Proof. intros H E. by apply Sprintf_s_d_inj in E. Qed.

(** The loop, when nothing fails, does what [spec_shift] says. *)
Lemma shift_backups_quiet name k : forall w ops,
  quiet w -> Z.of_nat k < GoInt.max_int ->
  exists w' evs,
    shift_backups name k w = (None, w') /\
    after w evs (fst (spec_shift name k (names w, ops))) w' /\
    ops ++ mutations evs = snd (spec_shift name k (names w, ops)).
Proof.
  induction k as [|k IH]; intros w ops Hq Hk.
  { exists w, []. split; [done|]. simpl. rewrite app_nil_r.
    split; [|done]. repeat split; try done. by rewrite app_nil_r. }
  rewrite shift_backups_unfold. cbn zeta.
  rewrite add_one_no_wrap by lia.
  cbn [spec_shift]. unfold spec_shift_step. cbn [fst].
  set (sfn := Sprintf_s_d name (Z.of_nat (S k))).
  set (dfn := Sprintf_s_d name (Z.of_nat (S k) + 1)).
  destruct (isFileExist_quiet sfn w Hq) as (w1 & -> & A1).
  pose proof A1 as (N1 & _ & _ & Q1).
  destruct (names w !! sfn) as [x|] eqn:Hs; simpl.
  - destruct (remove_then_rename_quiet sfn dfn x w1 Q1)
      as (w3 & evs3 & -> & A3 & M3).
    { by rewrite N1. }
    { apply Sprintf_s_d_ne. lia. }
    pose proof A3 as (N3 & _ & _ & Q3).
    rewrite N1 in A3, M3, N3.
    rewrite spec_replace_ops.
    destruct (IH w3 (ops ++ snd (spec_replace sfn dfn x (names w, []))) Q3)
      as (w' & evs & E & A & M); [lia|].
    rewrite N3 in A, M.
    exists w', ([EvStat sfn] ++ evs3 ++ evs). split; [done|].
    split.
    + exact (after_trans _ _ _ _ _ _ _ A1 (after_trans _ _ _ _ _ _ _ A3 A)).
    + rewrite <- M, !mutations_app, M3. simpl. by rewrite <- app_assoc.
  - destruct (IH w1 ops Q1) as (w' & evs & E & A & M); [lia|].
    rewrite N1 in A, M.
    exists w', ([EvStat sfn] ++ evs). split; [done|]. split.
    + exact (after_trans _ _ _ _ _ _ _ A1 A).
    + rewrite <- M, mutations_app. done.
Qed.

(** The rollover block, when nothing fails and the active file is there,
    does what [spec_rotate] says. *)
Lemma rollover_quiet name backup x w :
  0 < backup <= GoInt.max_int ->
  quiet w -> names w !! name = Some x ->
  exists w' evs,
    rollover name backup w = (None, w') /\
    after w evs (fst (spec_rotate name backup x (names w))) w' /\
    mutations evs = snd (spec_rotate name backup x (names w)).
Proof.
  intros HB Hq Hn. rewrite rollover_unfold.
  destruct (Z.ltb_spec 0 backup); [|lia].
  assert (Hs : GoInt.sub backup 1 = backup - 1).
  { apply wrap_in_range.
    unfold GoInt.in_range, GoInt.min_int, GoInt.max_int in *. lia. }
  rewrite Hs. unfold spec_rotate.
  destruct (shift_backups_quiet name (Z.to_nat (backup - 1)) w [] Hq)
    as (w1 & evs1 & -> & A1 & M1); [lia|].
  pose proof A1 as (N1 & _ & _ & Q1). simpl in M1.
  assert (Hn1 : names w1 !! name = Some x).
  { rewrite N1. clear -Hn.
    generalize (@nil Event). generalize (names w) Hn.
    induction (Z.to_nat (backup - 1)) as [|k IH]; intros d Hd ops; [done|].
    cbn [spec_shift]. unfold spec_shift_step. cbn [fst].
    destruct (d !! Sprintf_s_d name (Z.of_nat (S k))) as [y|] eqn:Hy.
    - rewrite spec_replace_ops. apply IH.
      unfold spec_replace.
      destruct (d !! Sprintf_s_d name (Z.of_nat (S k) + 1)); cbn [fst].
      + rewrite lookup_insert_ne by apply Sprintf_s_d_base.
        rewrite !lookup_delete_ne; [done|..];
          apply not_eq_sym, not_eq_sym, Sprintf_s_d_base.
      + rewrite lookup_insert_ne by apply Sprintf_s_d_base.
        rewrite !lookup_delete_ne; [done|..];
          apply not_eq_sym, not_eq_sym, Sprintf_s_d_base.
    - by apply IH. }
  destruct (remove_then_rename_quiet name (Sprintf_s_d name 1) x w1 Q1 Hn1)
    as (w' & evs2 & -> & A2 & M2).
  { apply not_eq_sym, Sprintf_s_d_base. }
  rewrite N1 in A2, M2.
  exists w', (evs1 ++ evs2). split; [done|].
  destruct (spec_shift name (Z.to_nat (backup - 1)) (names w, []))
    as [d1 ops1] eqn:Hsp. simpl in *.
  rewrite spec_replace_ops. simpl. split.
  - exact (after_trans _ _ _ _ _ _ _ A1 A2).
  - by rewrite mutations_app, M1, M2.
Qed.

Lemma spec_replace_lookup src dst x d ops n :
  fst (spec_replace src dst x (d, ops)) !! n =
  if decide (n = dst) then Some x
  else if decide (n = src) then None
  else d !! n.
Proof.
  unfold spec_replace.
  destruct (d !! dst) eqn:Hd; cbn [fst];
    repeat case_decide; subst;
    rewrite ?lookup_insert_eq, ?lookup_insert_ne, ?lookup_delete_eq,
      ?lookup_delete_ne by done; done.
Qed.

Lemma spec_shift_step_other name i d ops n :
  n <> Sprintf_s_d name i -> n <> Sprintf_s_d name (i + 1) ->
  fst (spec_shift_step name i (d, ops)) !! n = d !! n.
Proof.
  intros H1 H2. unfold spec_shift_step. cbn [fst].
  destruct (d !! Sprintf_s_d name i); [|done].
  rewrite spec_replace_lookup. by repeat case_decide.
Qed.

(** What the loop leaves alone. *)
Lemma spec_shift_other name k : forall d ops n,
  (forall j, 1 <= j <= Z.of_nat k + 1 -> n <> Sprintf_s_d name j) ->
  fst (spec_shift name k (d, ops)) !! n = d !! n.
Proof.
  induction k as [|k IH]; intros d ops n Hn; [done|].
  cbn [spec_shift].
  destruct (spec_shift_step name (Z.of_nat (S k)) (d, ops)) as [d1 ops1] eqn:E.
  rewrite IH by (intros j Hj; apply Hn; lia).
  change d1 with (fst (d1, ops1)). rewrite <- E.
  apply spec_shift_step_other; apply Hn; lia.
Qed.

(** Every backup in the range of the loop moves up by one. *)
Lemma spec_shift_up name k : forall d ops i x,
  1 <= i <= Z.of_nat k ->
  d !! Sprintf_s_d name i = Some x ->
  fst (spec_shift name k (d, ops)) !! Sprintf_s_d name (i + 1) = Some x.
Proof.
  induction k as [|k IH]; intros d ops i x Hi Hx; [lia|].
  cbn [spec_shift].
  destruct (spec_shift_step name (Z.of_nat (S k)) (d, ops)) as [d1 ops1] eqn:E.
  assert (E1 : forall n,
             d1 !! n
             = fst (spec_shift_step name (Z.of_nat (S k)) (d, ops)) !! n)
    by (by rewrite E).
  destruct (decide (i = Z.of_nat (S k))) as [->|Hne].
  - rewrite spec_shift_other.
    + rewrite E1. unfold spec_shift_step. cbn [fst]. rewrite Hx.
      rewrite spec_replace_lookup. by case_decide.
    + intros j Hj. apply Sprintf_s_d_ne. lia.
  - apply IH; [lia|]. rewrite E1.
    rewrite spec_shift_step_other; [done|..]; apply Sprintf_s_d_ne; lia.
Qed.

Lemma spec_rotate_lookup name backup x d n :
  fst (spec_rotate name backup x d) !! n =
  if decide (n = Sprintf_s_d name 1) then Some x
  else if decide (n = name) then None
  else fst (spec_shift name (Z.to_nat (backup - 1)) (d, [])) !! n.
Proof.
  unfold spec_rotate.
  destruct (spec_shift name (Z.to_nat (backup - 1)) (d, [])) as [d1 ops1].
  apply spec_replace_lookup.
Qed.

(** The directory after a rotation, as the specification words it: the
    active file has become the first backup, the name of the active file
    is free, every backup below [backup] has moved up by one, and the
    other names are as before. *)
Lemma spec_rotate_effect name backup x d :
  0 < backup ->
  let d' := fst (spec_rotate name backup x d) in
  d' !! Sprintf_s_d name 1 = Some x /\
  d' !! name = None /\
  (forall i y, 1 <= i < backup -> d !! Sprintf_s_d name i = Some y ->
     d' !! Sprintf_s_d name (i + 1) = Some y) /\
  (forall n, n <> name ->
     (forall j, 1 <= j <= backup -> n <> Sprintf_s_d name j) ->
     d' !! n = d !! n).
Proof.
  intros HB d'. unfold d'. repeat split.
  - rewrite spec_rotate_lookup. by case_decide.
  - rewrite spec_rotate_lookup. case_decide as H1.
    + symmetry in H1. by apply Sprintf_s_d_base in H1.
    + by case_decide.
  - intros i y Hi Hy. rewrite spec_rotate_lookup.
    case_decide as H1; [apply Sprintf_s_d_inj in H1; lia|].
    case_decide as H2; [by apply Sprintf_s_d_base in H2|].
    apply spec_shift_up; [lia | done].
  - intros n Hn Hj. rewrite spec_rotate_lookup.
    case_decide as H1; [subst; exfalso; apply (Hj 1); [lia | done]|].
    case_decide; [done|].
    apply spec_shift_other. intros j Hj'. apply Hj. lia.
Qed.

Lemma bounded_delete name backup n d :
  bounded name backup d -> bounded name backup (delete n d).
Proof.
  intros H j Hj. destruct (decide (n = Sprintf_s_d name j)) as [->|Hne].
  - apply lookup_delete_eq.
  - rewrite lookup_delete_ne by done. by apply H.
Qed.

Lemma bounded_insert name backup n x d :
  (forall j, ~ (1 <= j <= backup) -> n <> Sprintf_s_d name j) ->
  bounded name backup d -> bounded name backup (<[n := x]> d).
Proof.
  intros Hn H j Hj. rewrite lookup_insert_ne by (by apply Hn). by apply H.
Qed.

Lemma isFileExist_names n w : names (snd (isFileExist n w)) = names w.
Proof. unfold isFileExist. by os_cases. Qed.

Lemma Remove_names n w :
  names (snd (OS.Remove n w)) = names w \/
  names (snd (OS.Remove n w)) = delete n (names w).
Proof. os_cases; auto. Qed.

Lemma Rename_names src dst w :
  names (snd (OS.Rename src dst w)) = names w \/
  exists x, names (snd (OS.Rename src dst w))
            = <[dst := x]> (delete src (names w)).
Proof. os_cases; eauto. Qed.

Lemma remove_then_rename_bounded name backup src dst w :
  (forall j, ~ (1 <= j <= backup) -> dst <> Sprintf_s_d name j) ->
  bounded name backup (names w) ->
  bounded name backup (names (snd (remove_then_rename src dst w))).
Proof.
  intros Hd HB. unfold remove_then_rename.
  pose proof (isFileExist_names dst w) as H1.
  destruct (isFileExist dst w) as [ex w1]. simpl in H1.
  assert (HB2 : bounded name backup
                  (names (snd (if ex then OS.Remove dst w1 else (None, w1))))).
  { destruct ex; simpl; [|by rewrite H1].
    destruct (Remove_names dst w1) as [-> | ->]; rewrite H1;
      [done | by apply bounded_delete]. }
  destruct (if ex then _ else _) as [[e|] w2]; simpl in HB2; [done|].
  destruct (Rename_names src dst w2) as [-> | [x ->]]; [done|].
  by apply bounded_insert, bounded_delete.
Qed.

Lemma shift_backups_bounded name backup k : forall w,
  Z.of_nat k < backup <= GoInt.max_int ->
  bounded name backup (names w) ->
  bounded name backup (names (snd (shift_backups name k w))).
Proof.
  induction k as [|k IH]; intros w Hk HB; [done|].
  rewrite shift_backups_unfold. cbn zeta.
  rewrite add_one_no_wrap by lia.
  pose proof (isFileExist_names (Sprintf_s_d name (Z.of_nat (S k))) w) as H1.
  destruct (isFileExist _ w) as [ex w1]. simpl in H1.
  destruct ex.
  - pose proof (remove_then_rename_bounded name backup
                  (Sprintf_s_d name (Z.of_nat (S k)))
                  (Sprintf_s_d name (Z.of_nat (S k) + 1)) w1) as H2.
    destruct (remove_then_rename _ _ w1) as [[e|] w2]; simpl in H2.
    + apply H2; [|by rewrite H1]. intros j Hj. apply Sprintf_s_d_ne. lia.
    + apply IH; [lia|]. apply H2; [|by rewrite H1].
      intros j Hj. apply Sprintf_s_d_ne. lia.
  - apply IH; [lia | by rewrite H1].
Qed.

Lemma rollover_bounded name backup w :
  backup <= GoInt.max_int ->
  bounded name backup (names w) ->
  bounded name backup (names (snd (rollover name backup w))).
Proof.
  intros Hk HB. rewrite rollover_unfold.
  destruct (Z.ltb_spec 0 backup); [|done].
  assert (Hs : GoInt.sub backup 1 = backup - 1).
  { apply wrap_in_range.
    unfold GoInt.in_range, GoInt.min_int, GoInt.max_int in *. lia. }
  rewrite Hs.
  pose proof (shift_backups_bounded name backup (Z.to_nat (backup - 1)) w)
    as H1.
  destruct (shift_backups _ _ w) as [[e|] w1]; simpl in H1.
  - apply H1; [lia | done].
  - apply remove_then_rename_bounded.
    + intros j Hj. apply Sprintf_s_d_ne. lia.
    + apply H1; [lia | done].
Qed.

Lemma reopen_names f w :
  names (snd (snd (OpenWronlyCreateAppend (f, w)))) = names w \/
  exists i, names (snd (snd (OpenWronlyCreateAppend (f, w))))
            = <[Name f := i]> (names w).
Proof.
  unfold OpenWronlyCreateAppend, OS.OpenFile, OS.syscall, OS.next_fault,
    OS.create.
  simpl. repeat case_match; simplify_eq; simpl; eauto.
Qed.

Lemma step_bounded s s' :
  step s s' ->
  Backup (fst s) <= GoInt.max_int ->
  bounded (Name (fst s)) (Backup (fst s)) (names (snd s)) ->
  bounded (Name (fst s)) (Backup (fst s)) (names (snd s')).
Proof.
  destruct 1; simpl; intros Hk HB.
  - by rewrite Write_names.
  - assert (names (snd (OS.Close (File f) w)) = names w) as -> by (by os_cases).
    done.
  - by apply rollover_bounded.
  - destruct (reopen_names f w) as [-> | [i ->]]; [done|].
    apply bounded_insert; [|done].
    intros j _. apply not_eq_sym, Sprintf_s_d_base.
Qed.

Lemma steps_bounded s s' :
  rtc step s s' ->
  Backup (fst s) <= GoInt.max_int ->
  bounded (Name (fst s)) (Backup (fst s)) (names (snd s)) ->
  bounded (Name (fst s)) (Backup (fst s)) (names (snd s')).
Proof.
  induction 1 as [|s1 s2 s3 H12 _ IH]; intros Hk HB; [done|].
  pose proof (step_config _ _ H12) as (C1 & _ & C3).
  rewrite <- C1, <- C3. apply IH; rewrite C1, ?C3; [done|].
  by apply step_bounded.
Qed.

Lemma run_writes_bounded f w bs :
  Backup f <= GoInt.max_int ->
  bounded (Name f) (Backup f) (names w) ->
  bounded (Name f) (Backup f) (names (snd (snd (run_writes bs (f, w))))).
Proof.
  intros Hk HB.
  apply (steps_bounded (f, w)); [apply run_writes_steps | done | done].
Qed.

(** C5.  With [0 < backup], the rotation step of [write] (the rollover
    block), when no system call fails and the active file is there, does
    what the specification says: for [i] from [backup - 1] down to [1], a
    file suffixed [.i] that exists replaces the one suffixed [.(i+1)],
    which is deleted first if it exists; then the active file replaces the
    file suffixed [.1].  The directory and the removals and renames made
    are those of [spec_rotate]; afterwards the active file is the first
    backup, its former name is free, every backup below [backup] has
    moved up by one and all other names are untouched.  Consequently the
    numbered backups stay among [.1], ..., [.backup]: a directory with no
    other numbered backup keeps none through any sequence of writes,
    whatever fails and wherever a failure stops a rotation. *)
Theorem rotation_shifts_backups name backup :
  0 < backup <= GoInt.max_int ->
  (forall w x,
     quiet w -> names w !! name = Some x ->
     exists w',
       rollover name backup w = (None, w') /\
       names w' = fst (spec_rotate name backup x (names w)) /\
       mutations (events_since w w')
         = snd (spec_rotate name backup x (names w)) /\
       inodes w' = inodes w /\
       names w' !! Sprintf_s_d name 1 = Some x /\
       names w' !! name = None /\
       (forall i y, 1 <= i < backup ->
          names w !! Sprintf_s_d name i = Some y ->
          names w' !! Sprintf_s_d name (i + 1) = Some y) /\
       (forall n, n <> name ->
          (forall j, 1 <= j <= backup -> n <> Sprintf_s_d name j) ->
          names w' !! n = names w !! n)) /\
  (forall f w bs,
     Name f = name -> Backup f = backup ->
     bounded name backup (names w) ->
     bounded name backup (names (snd (snd (run_writes bs (f, w)))))).
Proof.
  intros HB. split.
  - intros w x Hq Hn.
    destruct (rollover_quiet name backup x w HB Hq Hn)
      as (w' & evs & E & (N & I & T & Q) & M).
    exists w'. split; [done|]. split; [done|].
    split; [by rewrite (events_since_app _ _ _ T)|]. split; [done|].
    rewrite N. apply spec_rotate_effect. lia.
  - intros f w bs <- <- Hbd. apply run_writes_bounded; [lia | done].
Qed.

Lemma rotation_shifts_backups_witness :
  let w := three_backups_world in
  exists w',
    rollover "app.log" 3 w = (None, w') /\
    names w' !! "app.log" = None /\
    names w' !! "app.log.1" = Some 0%nat /\
    names w' !! "app.log.2" = Some 1%nat /\
    names w' !! "app.log.3" = Some 2%nat /\
    mutations (events_since w w') =
      [EvRemove "app.log.3"; EvRename "app.log.2" "app.log.3";
       EvRename "app.log.1" "app.log.2"; EvRename "app.log" "app.log.1"].
Proof.
  intros w.
  assert (HB : 0 < 3 <= GoInt.max_int)
    by (split; [reflexivity | vm_compute; discriminate]).
  destruct (proj1 (rotation_shifts_backups "app.log" 3 HB) w 0%nat)
    as (w' & E & N & M & I & H1 & H0 & Hup & Hoth).
  { unfold quiet. simpl. constructor. }
  { vm_compute. reflexivity. }
  exists w'. split; [exact E|]. split; [exact H0|]. split; [exact H1|].
  split; [apply (Hup 1 1%nat); [lia | vm_compute; reflexivity]|].
  split; [apply (Hup 2 2%nat); [lia | vm_compute; reflexivity]|].
  rewrite M. vm_compute. reflexivity.
Defined.

(* ===================================================================== *)
(** ** The scenario of the specification *)
(* ===================================================================== *)

Lemma Write_quiet i b w :
  quiet w ->
  exists w1,
    OS.Write (FileOpen i) b w = ((len b, None), w1) /\
    names w1 = names w /\
    data (inodes w1 !!! i) = data (inodes w !!! i) ++ b /\
    (forall j, j <> i -> inodes w1 !!! j = inodes w !!! j) /\
    dom (inodes w1) = {[i]} ∪ dom (inodes w) /\
    trace w1 = trace w ++ [EvWrite i b] /\
    quiet w1.
Proof.
  intros Hq. unfold OS.Write.
  destruct (quiet_syscall (EvWrite i b) w Hq) as (w1 & -> & N & I & T & Q).
  eexists. split; [reflexivity|]. unfold OS.append. simpl. rewrite I.
  split; [done|]. split; [by rewrite lookup_total_insert_eq|].
  split; [by intros; rewrite lookup_total_insert_ne|].
  split; [by rewrite dom_insert_L|]. done.
Qed.

Lemma Close_quiet i w :
  quiet w ->
  exists w1,
    OS.Close (FileOpen i) w = ((None, FileClosed), w1) /\
    after w [EvClose i] (names w) w1.
Proof.
  intros Hq. unfold OS.Close.
  destruct (quiet_syscall (EvClose i) w Hq) as (w1 & -> & A). by exists w1.
Qed.

(** Reopening when the name is free creates a file on a fresh inode. *)
Lemma reopen_quiet_absent f w :
  quiet w -> names w !! Name f = None ->
  exists w1 t,
    let j := fresh (dom (inodes w)) in
    OpenWronlyCreateAppend (f, w) = (None, (set_File (FileOpen j) f, w1)) /\
    names w1 = <[Name f := j]> (names w) /\
    inodes w1 = <[j := mkInode [] t]> (inodes w) /\
    trace w1 = trace w ++ [EvOpen (Name f) append_flags] /\
    quiet w1.
Proof.
  intros Hq Hn. unfold OpenWronlyCreateAppend, OS.OpenFile.
  fold append_flags.
  destruct (quiet_syscall (EvOpen (Name f) append_flags) w Hq)
    as (w1 & -> & N & I & T & Q).
  rewrite N, Hn. simpl. unfold OS.create. rewrite I, N.
  eexists _, _. split; [reflexivity|]. simpl. by repeat split.
Qed.

(** Reopening an existing file gives a handle on it and changes nothing. *)
Lemma reopen_quiet_present f w i :
  quiet w -> names w !! Name f = Some i ->
  exists w1,
    OpenWronlyCreateAppend (f, w) = (None, (set_File (FileOpen i) f, w1)) /\
    after w [EvOpen (Name f) append_flags] (names w) w1.
Proof.
  intros Hq Hn. unfold OpenWronlyCreateAppend, OS.OpenFile.
  fold append_flags.
  destruct (quiet_syscall (EvOpen (Name f) append_flags) w Hq)
    as (w1 & -> & A).
  pose proof A as (N & _). rewrite N, Hn. simpl. by exists w1.
Qed.

Lemma Fstat_quiet i w :
  quiet w ->
  exists w1,
    OS.Fstat (FileOpen i) w =
      ((Some (mkFileInfo (len (data (inodes w !!! i)))
                (modTime (inodes w !!! i))), None), w1) /\
    after w [EvFstat i] (names w) w1.
Proof.
  intros Hq. unfold OS.Fstat.
  destruct (quiet_syscall (EvFstat i) w Hq) as (w1 & -> & A).
  pose proof A as (_ & I & _). unfold OS.info. rewrite I. by exists w1.
Qed.

(** [New] on a path that is absent or empty, when nothing fails: the sink
    starts at zero on a handle on the file at [name], which is empty. *)
Lemma New_quiet_empty name backup size w :
  quiet w ->
  content name w = None \/ content name w = Some [] ->
  exists i t w1,
    New name backup size w =
      ((Some (mkRotateFile backup size 0 (FileOpen i) name t), None), w1) /\
    names w1 = <[name := i]> (names w) /\
    data (inodes w1 !!! i) = [] /\
    quiet w1.
Proof.
  intros Hq Hc. unfold New.
  set (r0 := mkRotateFile backup size 0 FileNil name 0).
  unfold content in Hc.
  destruct (names w !! name) as [i|] eqn:Hn; simpl in Hc.
  - destruct Hc as [Hc|Hc]; [done|]. injection Hc as Hd.
    destruct (reopen_quiet_present r0 w i Hq Hn)
      as (w1 & -> & N1 & I1 & T1 & Q1).
    simpl.
    destruct (Fstat_quiet i w1 Q1) as (w2 & -> & N2 & I2 & T2 & Q2).
    rewrite I1, Hd. simpl. exists i, (modTime (inodes w !!! i)), w2.
    split; [done|]. rewrite N2, N1, I2, I1.
    split; [by rewrite insert_id|]. done.
  - destruct (reopen_quiet_absent r0 w Hq Hn)
      as (w1 & t & -> & N1 & I1 & T1 & Q1).
    simpl.
    destruct (Fstat_quiet (fresh (dom (inodes w))) w1 Q1)
      as (w2 & -> & N2 & I2 & T2 & Q2).
    rewrite I1, lookup_total_insert_eq. simpl.
    exists (fresh (dom (inodes w))), t, w2.
    split; [done|]. rewrite N2, N1, I2, I1, lookup_total_insert_eq.
    done.
Qed.

(** A fitting write, when nothing fails. *)
Lemma write_fits_quiet f w b i :
  File f = FileOpen i -> quiet w ->
  len b <= GoInt.sub (CapLimit f) (CapUsing f) ->
  exists w1,
    write b (f, w) =
      (Val (len b, None), touch (GoInt.add (CapUsing f) (len b)) w1 f) /\
    names w1 = names w /\
    data (inodes w1 !!! i) = data (inodes w !!! i) ++ b /\
    trace w1 = trace w ++ [EvWrite i b] /\
    quiet w1.
Proof.
  intros Hf Hq Hfit. rewrite write_fits by done. rewrite Hf.
  destruct (Write_quiet i b w Hq) as (w1 & -> & N & D & _ & _ & T & Q).
  by exists w1.
Qed.

Lemma spec_rotate_two name x d :
  d !! Sprintf_s_d name 1 = None ->
  spec_rotate name 2 x d =
    (<[Sprintf_s_d name 1 := x]> (delete name d),
     [EvRename name (Sprintf_s_d name 1)]).
Proof.
  intros H1. unfold spec_rotate.
  change (Z.to_nat (2 - 1)) with 1%nat. cbn [spec_shift].
  change (Z.of_nat 1) with 1. unfold spec_shift_step. cbn [fst].
  rewrite H1. unfold spec_replace. by rewrite H1.
Qed.

(** A spilling write with two backups allowed and none present, when
    nothing fails. *)
Lemma write_spills_quiet f w b i :
  let capSpace := GoInt.sub (CapLimit f) (CapUsing f) in
  let head := take (Z.to_nat capSpace) b in
  let tail := drop (Z.to_nat capSpace) b in
  File f = FileOpen i -> Backup f = 2 -> quiet w ->
  0 <= capSpace < len b -> len b <= GoInt.max_int ->
  names w !! Name f = Some i ->
  names w !! Sprintf_s_d (Name f) 1 = None ->
  exists f' w' j evs,
    write b (f, w) = (Val (len b, None), (f', w')) /\
    CapUsing f' = len tail /\
    events_since w w' =
      [EvWrite i head; EvClose i] ++ evs ++
      [EvOpen (Name f) append_flags; EvWrite j tail] /\
    mutations evs = [EvRename (Name f) (Sprintf_s_d (Name f) 1)] /\
    names w' =
      <[Name f := j]>
        (<[Sprintf_s_d (Name f) 1 := i]> (delete (Name f) (names w))) /\
    j <> i /\
    data (inodes w' !!! i) = data (inodes w !!! i) ++ head /\
    data (inodes w' !!! j) = tail.
Proof.
  intros capSpace head tail Hf HB Hq Hc Hb Hn H1.
  rewrite write_spills by done. fold capSpace head tail. rewrite Hf, HB.
  destruct (Write_quiet i head w Hq)
    as (w1 & -> & N1 & D1 & O1 & Dom1 & T1 & Q1).
  cbn [touch fst snd]. cbv zeta.
  destruct (Close_quiet i (snd (OS.Now w1)) Q1)
    as (w3 & -> & N3 & I3 & T3 & Q3).
  destruct (rollover_quiet (Name f) 2 i w3)
    as (w4 & evs & -> & (N4 & I4 & T4 & Q4) & M4).
  { split; [lia | vm_compute; discriminate]. }
  { done. }
  { rewrite N3. simpl. by rewrite N1. }
  rewrite N3 in N4, M4. simpl in N4, M4. rewrite N1 in N4, M4.
  rewrite spec_rotate_two in N4, M4 by done. simpl in N4, M4.
  match goal with |- context [OpenWronlyCreateAppend (?g, w4)] =>
    destruct (reopen_quiet_absent g w4 Q4) as (w5 & t & E5 & N5 & I5 & T5 & Q5)
  end.
  { simpl. rewrite N4, lookup_insert_ne by apply Sprintf_s_d_base.
    apply lookup_delete_eq. }
  cbv zeta in E5. rewrite E5. simpl in N5, T5 |- *.
  set (j := fresh (dom (inodes w4))) in *.
  destruct (Write_quiet j tail w5 Q5)
    as (w6 & -> & N6 & D6 & O6 & Dom6 & T6 & Q6).
  assert (Hji : j <> i).
  { intros E. pose proof (is_fresh (dom (inodes w4))) as Hfr. fold j in Hfr.
    apply Hfr. rewrite I4, I3. simpl. rewrite Dom1, E.
    apply elem_of_union_l, elem_of_singleton. reflexivity. }
  assert (Hh : len head = capSpace) by (apply len_take; lia).
  assert (Ht : len tail = len b - capSpace) by (apply len_drop; lia).
  eexists _, _, j, evs. split.
  { f_equal. f_equal. f_equal. rewrite add_zero_l.
    - unfold GoInt.add. rewrite Hh, Ht.
      replace (capSpace + (len b - capSpace)) with (len b) by lia.
      apply wrap_in_range.
      pose proof (len_nonneg b).
      unfold GoInt.in_range, GoInt.min_int. lia.
    - rewrite Hh. apply sub_range. }
  cbn [touch fst snd CapUsing set_UpdateAt set_CapUsing].
  split; [done|]. split.
  { apply events_since_app. simpl. rewrite T6, T5, T4, T3. simpl.
    rewrite T1. by rewrite <- !app_assoc. }
  split; [done|]. split; [simpl; by rewrite N6, N5, N4|]. split; [done|].
  simpl. split.
  - rewrite O6 by done. rewrite I5, lookup_total_insert_ne by done.
    rewrite I4, I3. simpl. done.
  - rewrite D6, I5, lookup_total_insert_eq. done.
Qed.

(** C9.  A sink opened with a capacity of 10 and 2 backups on a path that
    is absent or empty, with no backup [.1] or [.2], when no system call
    fails: the write of ["12345"] succeeds with the single system call
    that writes it, and leaves ["12345"] in the file and [CapUsing = 5];
    the write of ["67890AB"] succeeds, writes ["67890"] to the same file,
    closes it, renames it to [.1] (the only removal or rename), reopens
    the path and writes ["AB"]; in the end the path holds ["AB"],
    [CapUsing = 2], the backup [.1] holds ["1234567890"] and there is no
    backup [.2]. *)
Theorem scenario_ten_bytes_two_backups name w :
  quiet w ->
  content name w = None \/ content name w = Some [] ->
  names w !! Sprintf_s_d name 1 = None ->
  names w !! Sprintf_s_d name 2 = None ->
  exists s0 s1 s2 i j evs,
    opened name 2 10 w = Some s0 /\
    write (bytes_of "12345") s0 = (Val (5, None), s1) /\
    events_since (snd s0) (snd s1) = [EvWrite i (bytes_of "12345")] /\
    content name (snd s1) = Some (bytes_of "12345") /\
    CapUsing (fst s1) = 5 /\
    write (bytes_of "67890AB") s1 = (Val (7, None), s2) /\
    events_since (snd s1) (snd s2) =
      [EvWrite i (bytes_of "67890"); EvClose i] ++ evs ++
      [EvOpen name append_flags; EvWrite j (bytes_of "AB")] /\
    mutations evs = [EvRename name (Sprintf_s_d name 1)] /\
    content name (snd s2) = Some (bytes_of "AB") /\
    CapUsing (fst s2) = 2 /\
    content (Sprintf_s_d name 1) (snd s2) = Some (bytes_of "1234567890") /\
    content (Sprintf_s_d name 2) (snd s2) = None.
Proof.
  intros Hq Hc H1 H2.
  destruct (New_quiet_empty name 2 10 w Hq Hc)
    as (i & t & w0 & EN & N0 & D0 & Q0).
  set (f0 := mkRotateFile 2 10 0 (FileOpen i) name t) in *.
  destruct (write_fits_quiet f0 w0 (bytes_of "12345") i eq_refl Q0)
    as (w1 & E1 & N1 & D1 & T1 & Q1).
  { vm_compute. discriminate. }
  set (s1 := touch (GoInt.add (CapUsing f0) (len (bytes_of "12345"))) w1 f0)
    in *.

  assert (Hcap : 0 <= GoInt.sub (CapLimit (fst s1)) (CapUsing (fst s1))
                 < len (bytes_of "67890AB"))
    by (vm_compute; split; [discriminate | reflexivity]).
  assert (Hlen : len (bytes_of "67890AB") <= GoInt.max_int)
    by (vm_compute; discriminate).
  assert (Hn1 : names (snd s1) !! Name (fst s1) = Some i).
  { simpl. rewrite N1, N0. apply lookup_insert_eq. }
  assert (Hb1 : names (snd s1) !! Sprintf_s_d (Name (fst s1)) 1 = None).
  { simpl. rewrite N1, N0, lookup_insert_ne; [done|].
    apply not_eq_sym, Sprintf_s_d_base. }
  destruct (write_spills_quiet (fst s1) (snd s1) (bytes_of "67890AB") i
              eq_refl eq_refl Q1 Hcap Hlen Hn1 Hb1)
    as (f2 & w2 & j & evs & E2 & C2 & T2 & M2 & N2 & Hji & Di & Dj).
  exists (f0, w0), s1, (f2, w2), i, j, evs.
  split; [unfold opened; by rewrite EN|].
  split; [exact E1|].
  split; [by apply events_since_app|].
  split.
  { unfold content. simpl. rewrite N1, N0, lookup_insert_eq. simpl.
    by rewrite D1, D0. }
  split; [reflexivity|].
  split; [by destruct s1|].
  split; [exact T2|]. split; [exact M2|].
  simpl in N2, Di, Dj.
  split.
  { unfold content. simpl. rewrite N2, lookup_insert_eq. simpl.
    by rewrite Dj. }
  split; [exact C2|].
  split.
  { unfold content. simpl. rewrite N2.
    rewrite lookup_insert_ne by (apply not_eq_sym, Sprintf_s_d_base).
    rewrite lookup_insert_eq. simpl. by rewrite Di, D1, D0. }
  unfold content. simpl. rewrite N2.
  rewrite lookup_insert_ne by (apply not_eq_sym, Sprintf_s_d_base).
  rewrite lookup_insert_ne by (apply Sprintf_s_d_ne; lia).
  rewrite lookup_delete_ne by (apply not_eq_sym, Sprintf_s_d_base).
  rewrite N1, N0.
  rewrite lookup_insert_ne by (apply not_eq_sym, Sprintf_s_d_base).
  by rewrite H2.
Qed.

Lemma scenario_ten_bytes_two_backups_witness :
  exists s0 s1 s2,
    opened "app.log" 2 10 (empty_world 0) = Some s0 /\
    write (bytes_of "12345") s0 = (Val (5, None), s1) /\
    write (bytes_of "67890AB") s1 = (Val (7, None), s2) /\
    content "app.log" (snd s2) = Some (bytes_of "AB") /\
    content "app.log.1" (snd s2) = Some (bytes_of "1234567890") /\
    content "app.log.2" (snd s2) = None.
Proof.
  destruct (scenario_ten_bytes_two_backups "app.log" (empty_world 0))
    as (s0 & s1 & s2 & i & j & evs & H0 & H1 & _ & _ & _ & H2 & _ & _ &
        H3 & _ & H4 & H5).
  - unfold quiet. simpl. constructor.
  - left. vm_compute. reflexivity.
  - vm_compute. reflexivity.
  - vm_compute. reflexivity.
  - exists s0, s1, s2. split; [exact H0|]. split; [exact H1|].
    split; [exact H2|]. split; [exact H3|]. split; [exact H4 | exact H5].
Defined.

(* ===================================================================== *)
(** ** The failures of the system calls and the panic of [Write] *)
(* ===================================================================== *)

Lemma surfaces_same w w' err :
  trace w' = trace w -> faults w' = faults w -> surfaces w w' err.
Proof.
  intros T F. exists []. rewrite app_nil_r. split; [done|].
  split; [done|]. intros k ev e Hk. by rewrite lookup_nil in Hk.
Qed.

Lemma surfaces_ext w w' v v' err :
  trace v = trace w -> faults v = faults w ->
  trace v' = trace w' -> faults v' = faults w' ->
  surfaces w w' err -> surfaces v v' err.
Proof.
  intros T F T' F' (evs & H1 & H2 & H3). exists evs.
  rewrite T, F, T', F'. split; [done|]. split; done.
Qed.

Lemma surfaces_trans w1 w2 w3 err :
  surfaces w1 w2 None -> surfaces w2 w3 err -> surfaces w1 w3 err.
Proof.
  intros (e1 & T1 & F1 & H1) (e2 & T2 & F2 & H2). exists (e1 ++ e2).
  split; [by rewrite T2, T1, app_assoc|].
  split; [by rewrite F2, F1, drop_drop, length_app|].
  intros k ev e Hk Hf Hs.
  destruct (decide (k < length e1)%nat) as [Hlt|Hge].
  - rewrite lookup_app_l in Hk by done.
    by destruct (H1 k ev e Hk Hf Hs).
  - rewrite lookup_app_r in Hk by lia.
    destruct (H2 (k - length e1)%nat ev e Hk) as [-> Hl]; [|done|].
    + rewrite F1, lookup_drop.
      by replace (length e1 + (k - length e1))%nat with k by lia.
    + split; [done|]. rewrite length_app. lia.
Qed.

Lemma surfaces_one ev ft w w1 err :
  OS.syscall ev w = (ft, w1) ->
  (forall e, fault_error (Some ft) = Some e -> is_stat ev = false ->
             err = Some e) ->
  surfaces w w1 err.
Proof.
  unfold OS.syscall, OS.next_fault. simpl. intros E He. exists [ev].
  destruct (faults w) as [|ft0 rest] eqn:Hf; simplify_eq; simpl.
  - split; [done|]. split; [done|]. by intros k ev0 e Hk Hfe.
  - split; [done|]. split; [done|]. intros [|k] ev0 e Hk Hfe Hs; [|done].
    simpl in *. simplify_eq. split; [|done]. by apply He.
Qed.

Lemma Write_surfaces h c w :
  surfaces w (snd (OS.Write h c w)) (snd (fst (OS.Write h c w))).
Proof.
  destruct h as [|i|]; simpl; try by apply surfaces_same.
  unfold OS.Write.
  destruct (OS.syscall (EvWrite i c) w) as [ft w1] eqn:E.
  destruct ft; simpl.
  - eapply surfaces_ext; [done|done| | |by eapply surfaces_one]; done.
  - eapply surfaces_one; [done|]. by intros e0 [= <-].
  - eapply surfaces_ext; [done|done| | |eapply surfaces_one; [done|]];
      done.
Qed.

Lemma Close_surfaces h w :
  surfaces w (snd (OS.Close h w)) (fst (fst (OS.Close h w))).
Proof.
  destruct h as [|i|]; simpl; try by apply surfaces_same.
  unfold OS.Close.
  destruct (OS.syscall (EvClose i) w) as [ft w1] eqn:E.
  destruct ft; simpl; (eapply surfaces_one; [done|]); try done;
    by intros e0 [= <-].
Qed.

Lemma isFileExist_surfaces name w :
  surfaces w (snd (isFileExist name w)) None.
Proof.
  unfold isFileExist, OS.Stat.
  destruct (OS.syscall (EvStat name) w) as [ft w1] eqn:E.
  assert (surfaces w w1 None) by (by eapply surfaces_one).
  destruct ft; simpl; try done. by destruct (names w1 !! name).
Qed.

Lemma Remove_surfaces name w :
  surfaces w (snd (OS.Remove name w)) (fst (OS.Remove name w)).
Proof.
  unfold OS.Remove.
  destruct (OS.syscall (EvRemove name) w) as [ft w1] eqn:E.
  destruct ft; simpl.
  - assert (forall err, surfaces w w1 err) as H
      by (intros err; by eapply surfaces_one).
    destruct (names w1 !! name); simpl; [|done].
    eapply surfaces_ext; [done|done| | |apply H]; done.
  - eapply surfaces_one; [done|]. by intros e0 [= <-].
  - eapply surfaces_one; [done|]. by intros e0 [= <-].
Qed.

Lemma Rename_surfaces src dst w :
  surfaces w (snd (OS.Rename src dst w)) (fst (OS.Rename src dst w)).
Proof.
  unfold OS.Rename.
  destruct (OS.syscall (EvRename src dst) w) as [ft w1] eqn:E.
  destruct ft; simpl.
  - assert (forall err, surfaces w w1 err) as H
      by (intros err; by eapply surfaces_one).
    destruct (names w1 !! src); simpl; [|done].
    eapply surfaces_ext; [done|done| | |apply H]; done.
  - eapply surfaces_one; [done|]. by intros e0 [= <-].
  - eapply surfaces_one; [done|]. by intros e0 [= <-].
Qed.

Lemma reopen_surfaces f w :
  surfaces w (snd (snd (OpenWronlyCreateAppend (f, w))))
           (fst (OpenWronlyCreateAppend (f, w))).
Proof.
  unfold OpenWronlyCreateAppend, OS.OpenFile. fold append_flags.
  destruct (OS.syscall (EvOpen (Name f) append_flags) w) as [ft w1] eqn:E.
  destruct ft; simpl.
  - assert (forall err, surfaces w w1 err) as H
      by (intros err; by eapply surfaces_one).
    destruct (names w1 !! Name f); simpl; [done|].
    eapply surfaces_ext; [done|done| | |apply H]; done.
  - eapply surfaces_one; [done|]. by intros e0 [= <-].
  - eapply surfaces_one; [done|]. by intros e0 [= <-].
Qed.

Lemma remove_then_rename_surfaces src dst w :
  surfaces w (snd (remove_then_rename src dst w))
           (fst (remove_then_rename src dst w)).
Proof.
  unfold remove_then_rename.
  pose proof (isFileExist_surfaces dst w) as H1.
  destruct (isFileExist dst w) as [ex w1]. simpl in H1.
  assert (surfaces w1 (snd (if ex then OS.Remove dst w1 else (None, w1)))
            (fst (if ex then OS.Remove dst w1 else (None, w1)))) as H2.
  { destruct ex; [apply Remove_surfaces | by apply surfaces_same]. }
  destruct (if ex then _ else _) as [[e|] w2]; simpl in *.
  - by eapply surfaces_trans.
  - pose proof (Rename_surfaces src dst w2) as H3.
    destruct (OS.Rename src dst w2) as [err w3]. simpl in *.
    eapply surfaces_trans; [|exact H3]. by eapply surfaces_trans.
Qed.

Lemma shift_backups_surfaces name k : forall w,
  surfaces w (snd (shift_backups name k w)) (fst (shift_backups name k w)).
Proof.
  induction k as [|k IH]; intros w; [by apply surfaces_same|].
  rewrite shift_backups_unfold. cbn zeta.
  pose proof (isFileExist_surfaces (Sprintf_s_d name (Z.of_nat (S k))) w)
    as H1.
  destruct (isFileExist _ w) as [ex w1]. simpl in H1.
  destruct ex.
  - pose proof (remove_then_rename_surfaces
                  (Sprintf_s_d name (Z.of_nat (S k)))
                  (Sprintf_s_d name (GoInt.add (Z.of_nat (S k)) 1)) w1) as H2.
    destruct (remove_then_rename _ _ w1) as [[e|] w2]; simpl in *.
    + by eapply surfaces_trans.
    + eapply surfaces_trans; [|apply IH]. by eapply surfaces_trans.
  - eapply surfaces_trans; [exact H1 | apply IH].
Qed.

Lemma rollover_surfaces name backup w :
  surfaces w (snd (rollover name backup w)) (fst (rollover name backup w)).
Proof.
  rewrite rollover_unfold. destruct (0 <? backup); [|by apply surfaces_same].
  pose proof (shift_backups_surfaces name
                (Z.to_nat (GoInt.sub backup 1)) w) as H1.
  destruct (shift_backups _ _ w) as [[e|] w1]; simpl in *; [done|].
  eapply surfaces_trans; [exact H1|]. apply remove_then_rename_surfaces.
Qed.

(** A call of [write] that returns: the error returned is that of the
    system call made to fail, unless that call is an [os.Stat]. *)
Lemma write_surfaces f w b n err s' :
  write b (f, w) = (Val (n, err), s') -> surfaces w (snd s') err.
Proof.
  set (capSpace := GoInt.sub (CapLimit f) (CapUsing f)).
  destruct (Z.le_gt_cases (len b) capSpace) as [Hfit|Hspill].
  { rewrite write_fits by done.
    pose proof (Write_surfaces (File f) b w) as H.
    destruct (OS.Write (File f) b w) as [[k e] w1].
    unfold touch. simpl. intros E. simplify_eq. simpl in *.
    eapply surfaces_ext; [done|done| | |exact H]; done. }
  destruct (Z.lt_ge_cases capSpace 0) as [Hneg|Hpos].
  { by rewrite write_negative_space. }
  rewrite write_spills by done. fold capSpace.
  pose proof (Write_surfaces (File f) (take (Z.to_nat capSpace) b) w) as H1.
  destruct (OS.Write (File f) _ w) as [[k e1] w1]. simpl in H1.
  cbn [touch fst snd]. cbv zeta.
  assert (H2 : surfaces w (snd (OS.Now w1)) e1)
    by (eapply surfaces_ext; [done|done| | |exact H1]; done).
  destruct e1 as [e1|]; [intros E; by simplify_eq|].
  pose proof (Close_surfaces (File f) (snd (OS.Now w1))) as H3.
  destruct (OS.Close (File f) _) as [[cerr closed] w3]. simpl in H3.
  pose proof (surfaces_trans _ _ _ _ H2 H3) as H3'.
  destruct cerr as [e3|]; [intros E; by simplify_eq|].
  pose proof (rollover_surfaces (Name f) (Backup f) w3) as H4.
  destruct (rollover _ _ w3) as [rerr w4]. simpl in H4.
  pose proof (surfaces_trans _ _ _ _ H3' H4) as H4'.
  destruct rerr as [e4|]; [intros E; by simplify_eq|].
  match goal with |- context [OpenWronlyCreateAppend (?g, w4)] =>
    pose proof (reopen_surfaces g w4) as H5;
    destruct (OpenWronlyCreateAppend (g, w4)) as [oerr [f3 w5]] end.
  simpl in H5. pose proof (surfaces_trans _ _ _ _ H4' H5) as H5'.
  destruct oerr as [e5|]; [intros E; by simplify_eq|].
  pose proof (Write_surfaces (File f3) (drop (Z.to_nat capSpace) b) w5) as H6.
  destruct (OS.Write (File f3) _ w5) as [[k' e6] w6]. simpl in H6.
  unfold touch. simpl. intros E. simplify_eq. simpl.
  eapply surfaces_trans; [exact H5'|].
  eapply surfaces_ext; [done|done| | |exact H6]; done.
Qed.

(** A panic of [write] leaves the sink and the world as they were. *)
Lemma write_panic_state f w b p :
  fst (write b (f, w)) = Panic p -> snd (write b (f, w)) = (f, w).
Proof.
  destruct (Z.lt_ge_cases (GoInt.sub (CapLimit f) (CapUsing f)) 0)
    as [Hneg|Hpos]; [by rewrite write_negative_space|].
  destruct (Z.le_gt_cases (len b) (GoInt.sub (CapLimit f) (CapUsing f)))
    as [Hfit|Hspill].
  - rewrite write_fits by done. by destruct (OS.Write (File f) b w).
  - rewrite write_spills by done.
    repeat (case_match; simpl in *; simplify_eq); done.
Qed.

(** C3, as the code has it.  The public [Write] never returns a non-nil
    error.  Whatever error [write] returns, [Write] panics with it (and a
    panic of [write] goes through); when [write] succeeds, [Write] returns
    its count with a nil error, and the count is the length of the input.
    When a system call of the call is made to fail, and it is not an
    [os.Stat] (so it is a file write, the close, a remove, a rename or the
    reopen), it is the last call made, its error is the one [write]
    returns, and [Write] panics with that error.  A failure of [os.Stat]
    is not surfaced: [isFileExist] answers [false] and the call goes on,
    so that [Write] can succeed although a system call failed. *)
Theorem Write_panics_on_failure f w b :
  len b <= GoInt.max_int ->
  match write b (f, w) with
  | (Val (n, None), s') => Write b (f, w) = (Val (n, None), s') /\ n = len b
  | (Val (n, Some e), s') => Write b (f, w) = (Panic (PanicError e), s')
  | (Panic p, s') => Write b (f, w) = (Panic p, s')
  end /\
  (forall n err s',
     Write b (f, w) = (Val (n, err), s') -> err = None /\ n = len b) /\
  (forall k ev e,
     events_since w (snd (snd (write b (f, w)))) !! k = Some ev ->
     fault_error (faults w !! k) = Some e ->
     is_stat ev = false ->
     length (events_since w (snd (snd (write b (f, w))))) = S k /\
     (exists n, fst (write b (f, w)) = Val (n, Some e)) /\
     Write b (f, w) = (Panic (PanicError e), snd (write b (f, w)))) /\
  (forall name w0 ft rest,
     faults w0 = ft :: rest -> ft <> Pass ->
     fst (isFileExist name w0) = false) /\
  (exists f0 w0,
     faults w0 = [Pass; Pass; Fail (ErrIO 13)] /\
     events_since w0 (snd (snd (write (bytes_of "x") (f0, w0)))) !! 2%nat
       = Some (EvStat "app.log.1") /\
     fst (write (bytes_of "x") (f0, w0)) = Val (1, None) /\
     fst (Write (bytes_of "x") (f0, w0)) = Val (1, None)).
Proof.
  intros Hb.
  assert (H1 : match write b (f, w) with
    | (Val (n, None), s') => Write b (f, w) = (Val (n, None), s') /\ n = len b
    | (Val (n, Some e), s') => Write b (f, w) = (Panic (PanicError e), s')
    | (Panic p, s') => Write b (f, w) = (Panic p, s')
    end).
  { unfold Write. run_go.
    destruct (write b (f, w)) as [[[n [e|]]|p] s'] eqn:HW; simpl; try done.
    split; [done|]. by eapply write_ok_count. }
  split; [exact H1|]. split; [|split; [|split]].
  - intros n err s' HW.
    destruct (write b (f, w)) as [[[n0 [e0|]]|p] s0]; try congruence.
    destruct H1 as [H1 Hn]. rewrite H1 in HW. by simplify_eq.
  - intros k ev e Hk Hf Hs.
    destruct (write b (f, w)) as [[[n err]|p] [f' w']] eqn:HW.
    + destruct (write_surfaces _ _ _ _ _ _ HW) as (evs & T & _ & H).
      simpl in *. rewrite (events_since_app _ _ _ T) in *.
      destruct (H k ev e Hk Hf Hs) as [-> Hl].
      split; [done|]. split; [by exists n | done].
    + pose proof (write_panic_state f w b p) as Hp. rewrite HW in Hp.
      simpl in Hp. specialize (Hp eq_refl). simplify_eq. simpl in Hk.
      unfold events_since in Hk. by rewrite drop_all in Hk.
  - intros name w0 ft rest Hf Hft.
    unfold isFileExist, OS.Stat, OS.syscall, OS.next_fault. simpl.
    rewrite Hf. by destruct ft.
  - exists (mkRotateFile 1 1 1 (FileOpen 0) "app.log" 0),
      (with_faults [Pass; Pass; Fail (ErrIO 13)]
         (one_file_world "app.log" (bytes_of "a") 0 1)).
    split; [reflexivity|]. repeat split; vm_compute; reflexivity.
Qed.

(** A failing write makes [write] return the error and [Write] panic
    with it: nothing is returned to the caller.  A failing [os.Stat] is
    not reported at all: the call goes on and succeeds. *)
Lemma Write_failure_is_a_panic_example :
  let f := mkRotateFile 1 10 0 (FileOpen 0) "app.log" 0 in
  let w := with_faults [Fail (ErrIO 28)] (one_file_world "app.log" [] 0 0) in
  let f1 := mkRotateFile 1 1 1 (FileOpen 0) "app.log" 0 in
  let w1 := with_faults [Pass; Pass; Fail (ErrIO 13)]
              (one_file_world "app.log" (bytes_of "a") 0 1) in
  fst (write (bytes_of "x") (f, w)) = Val (0, Some (ErrIO 28)) /\
  fst (Write (bytes_of "x") (f, w)) = Panic (PanicError (ErrIO 28)) /\
  (~ exists n e, fst (Write (bytes_of "x") (f, w)) = Val (n, Some e)) /\
  events_since w1 (snd (snd (Write (bytes_of "x") (f1, w1)))) !! 2%nat
    = Some (EvStat "app.log.1") /\
  fst (Write (bytes_of "x") (f1, w1)) = Val (1, None).
Proof.
  intros f w f1 w1. split; [vm_compute; reflexivity|].
  assert (H : fst (Write (bytes_of "x") (f, w))
              = Panic (PanicError (ErrIO 28))) by (vm_compute; reflexivity).
  split; [exact H|]. split; [intros (n & e & H'); congruence|].
  split; vm_compute; reflexivity.
Qed.

Lemma Write_panics_on_failure_witness :
  let f := mkRotateFile 1 10 0 (FileOpen 0) "app.log" 0 in
  let w := with_faults [Fail (ErrIO 28)] (one_file_world "app.log" [] 0 0) in
  len (bytes_of "x") <= GoInt.max_int /\
  fst (Write (bytes_of "x") (f, w)) = Panic (PanicError (ErrIO 28)).
Proof.
  intros f w.
  assert (Hb : len (bytes_of "x") <= GoInt.max_int)
    by (vm_compute; discriminate).
  split; [exact Hb|].
  destruct (Write_panics_on_failure f w (bytes_of "x") Hb)
    as (_ & _ & H & _).
  destruct (H 0%nat (EvWrite 0 (bytes_of "x")) (ErrIO 28))
    as (_ & _ & HW); [vm_compute; reflexivity | reflexivity | reflexivity |].
  rewrite HW. reflexivity.
Defined.

(* ===================================================================== *)
(** ** What each system call changes *)
(* ===================================================================== *)

Lemma total_bytes_insert (m : gmap nat Inode) i y :
  map_fold (fun _ f acc => len (data f) + acc) 0 (<[i := y]> m) =
  map_fold (fun _ f acc => len (data f) + acc) 0 m
  - len (data (m !!! i)) + len (data y).
Proof.
  rewrite lookup_total_alt.
  destruct (m !! i) as [x|] eqn:Hi; simpl.
  - rewrite <- insert_delete_eq.
    rewrite map_fold_insert_L; [|intros; cbn beta; lia|apply lookup_delete_eq].
    rewrite (map_fold_delete_L _ _ i x m); [cbn beta; lia|intros; cbn beta; lia|done].
  - rewrite map_fold_insert_L; [|intros; cbn beta; lia|done].
    cbn beta. change (data inhabitant) with (@nil Byte.byte). change (len []) with 0. lia.
Qed.

Lemma syscall_same e w :
  same_files w (snd (OS.syscall e w)) /\
  clock (snd (OS.syscall e w)) = clock w.
Proof.
  unfold OS.syscall, OS.next_fault. simpl. by destruct (faults w).
Qed.

(** What [File.Write] does to the world, whatever its outcome: [n] bytes
    of the input, the first ones, are appended to the file of the handle,
    and nothing else changes. *)
Lemma Write_effect h c w :
  let '((n, err), w1) := OS.Write h c w in
  0 <= n <= len c /\
  names w1 = names w /\ clock w1 = clock w /\
  total_bytes w1 = total_bytes w + n /\
  (err = None -> n = len c) /\
  match h with
  | FileOpen i =>
      exists p, len p = n /\ p `prefix_of` c /\
        data (inodes w1 !!! i) = data (inodes w !!! i) ++ p /\
        (forall j, j <> i -> inodes w1 !!! j = inodes w !!! j)
  | _ => w1 = w /\ n = 0 /\ err <> None
  end.
Proof.
  pose proof (len_nonneg c) as Hc.
  destruct h as [|i|]; simpl; try by repeat split; try lia.
  unfold OS.Write.
  destruct (syscall_same (EvWrite i c) w) as [[N I] C].
  destruct (OS.syscall (EvWrite i c) w) as [ft w0]. simpl in *.
  assert (Happ : forall p, p `prefix_of` c ->
    0 <= len p <= len c /\
    names (OS.append i p w0) = names w /\
    clock (OS.append i p w0) = clock w /\
    total_bytes (OS.append i p w0) = total_bytes w + len p /\
    exists q, len q = len p /\ q `prefix_of` c /\
      data (inodes (OS.append i p w0) !!! i) = data (inodes w !!! i) ++ q /\
      (forall j, j <> i -> inodes (OS.append i p w0) !!! j = inodes w !!! j)).
  { intros p Hp. pose proof (len_nonneg p).
    assert (len p <= len c).
    { destruct Hp as [k ->]. unfold len. rewrite length_app. lia. }
    split; [lia|]. split; [done|]. split; [done|].
    unfold total_bytes, OS.append. simpl. rewrite total_bytes_insert. simpl.
    rewrite I. split.
    { unfold len. rewrite length_app. lia. }
    exists p. split; [done|]. split; [done|].
    rewrite lookup_total_insert_eq. simpl. split; [done|].
    by intros; rewrite lookup_total_insert_ne. }
  destruct ft as [|e|k e].
  - destruct (Happ c) as (H1 & H2 & H3 & H4 & H5); [done|]. by repeat split.
  - split; [lia|]. split; [done|]. split; [done|].
    unfold total_bytes. rewrite I. split; [lia|]. split; [done|].
    exists []. rewrite app_nil_r. repeat split; try done.
    by apply prefix_nil.
  - destruct (Happ (take k c)) as (H1 & H2 & H3 & H4 & H5);
      [apply prefix_take|].
    split; [done|]. split; [done|]. split; [done|]. split; [done|].
    split; [done|]. exact H5.
Qed.

Lemma Close_effect h w :
  let '((err, h'), w1) := OS.Close h w in
  same_files w w1 /\ clock w1 = clock w /\ is_open_file h' = false.
Proof.
  destruct h as [|i|]; simpl; try done.
  unfold OS.Close.
  destruct (syscall_same (EvClose i) w) as [SF C].
  destruct (OS.syscall (EvClose i) w) as [ft w0]. by destruct ft.
Qed.

(** The calls on the directory leave the files and the clock alone. *)
Lemma isFileExist_effect n w :
  same_files w (snd (isFileExist n w)) /\
  clock (snd (isFileExist n w)) = clock w.
Proof.
  unfold isFileExist, OS.Stat.
  destruct (syscall_same (EvStat n) w) as [SF C].
  destruct (OS.syscall (EvStat n) w) as [ft w0].
  destruct ft; simpl; try done. by destruct (names w0 !! n).
Qed.

Lemma Remove_effect n w :
  let (err, w1) := OS.Remove n w in
  inodes w1 = inodes w /\ clock w1 = clock w /\
  forall m, m <> n -> names w1 !! m = names w !! m.
Proof.
  unfold OS.Remove.
  destruct (syscall_same (EvRemove n) w) as [[N I] C].
  destruct (OS.syscall (EvRemove n) w) as [ft w0]. simpl in *.
  destruct ft; simpl; try (by rewrite N).
  destruct (names w0 !! n); simpl; [|by rewrite N].
  split; [done|]. split; [done|]. intros m Hm.
  by rewrite lookup_delete_ne, N.
Qed.

Lemma Rename_effect src dst w :
  let (err, w1) := OS.Rename src dst w in
  inodes w1 = inodes w /\ clock w1 = clock w /\
  (forall m, m <> src -> m <> dst -> names w1 !! m = names w !! m) /\
  (err = None -> src <> dst -> names w1 !! src = None) /\
  (err <> None -> names w1 = names w).
Proof.
  unfold OS.Rename.
  destruct (syscall_same (EvRename src dst) w) as [[N I] C].
  destruct (OS.syscall (EvRename src dst) w) as [ft w0]. simpl in *.
  destruct ft; simpl; try (by rewrite N).
  destruct (names w0 !! src) eqn:Hs; simpl; [|by rewrite N].
  split; [done|]. split; [done|]. split; [|split; [|done]].
  - intros m H1 H2. by rewrite lookup_insert_ne, lookup_delete_ne, N.
  - intros _ Hne. rewrite lookup_insert_ne by done. apply lookup_delete_eq.
Qed.

Lemma remove_then_rename_effect src dst w :
  let (err, w1) := remove_then_rename src dst w in
  inodes w1 = inodes w /\ clock w1 = clock w /\
  (forall m, m <> src -> m <> dst -> names w1 !! m = names w !! m) /\
  (src <> dst -> err = None -> names w1 !! src = None) /\
  (src <> dst -> err <> None -> names w1 !! src = names w !! src).
Proof.
  unfold remove_then_rename.
  destruct (isFileExist_effect dst w) as [[N1 I1] C1].
  destruct (isFileExist dst w) as [ex w1]. simpl in *.
  assert (let (err, w2) := if ex then OS.Remove dst w1 else (None, w1) in
          inodes w2 = inodes w /\ clock w2 = clock w /\
          forall m, m <> dst -> names w2 !! m = names w !! m) as H2.
  { destruct ex; [|by rewrite N1].
    pose proof (Remove_effect dst w1) as H.
    destruct (OS.Remove dst w1) as [err w2].
    destruct H as (I2 & C2 & N2). split; [congruence|]. split; [congruence|].
    intros m Hm. by rewrite N2, N1. }
  destruct (if ex then _ else _) as [[e|] w2]; destruct H2 as (I2 & C2 & N2).
  { split; [done|]. split; [done|]. split; [by intros; apply N2|].
    split; [done|]. intros Hne _. by apply N2. }
  pose proof (Rename_effect src dst w2) as H.
  destruct (OS.Rename src dst w2) as [err w3].
  destruct H as (I3 & C3 & N3 & S3 & F3).
  split; [congruence|]. split; [congruence|]. split; [|split].
  - intros m H1 H2. rewrite N3, N2; done.
  - intros Hne ->. by apply S3.
  - intros Hne He. rewrite (F3 He). by apply N2.
Qed.

Lemma shift_backups_effect name k : forall w,
  let (err, w1) := shift_backups name k w in
  inodes w1 = inodes w /\ clock w1 = clock w /\
  names w1 !! name = names w !! name.
Proof.
  induction k as [|k IH]; intros w; [done|].
  rewrite shift_backups_unfold. cbn zeta.
  destruct (isFileExist_effect (Sprintf_s_d name (Z.of_nat (S k))) w)
    as [[N1 I1] C1].
  destruct (isFileExist _ w) as [ex w1]. simpl in *.
  destruct ex.
  - pose proof (remove_then_rename_effect
                  (Sprintf_s_d name (Z.of_nat (S k)))
                  (Sprintf_s_d name (GoInt.add (Z.of_nat (S k)) 1)) w1) as H.
    destruct (remove_then_rename _ _ w1) as [err w2].
    destruct H as (I2 & C2 & N2 & _).
    assert (names w2 !! name = names w !! name).
    { rewrite N2, N1; [done|..]; apply not_eq_sym, Sprintf_s_d_base. }
    destruct err as [e|]; [by repeat split; congruence|].
    specialize (IH w2). destruct (shift_backups name k w2) as [err' w3].
    destruct IH as (I3 & C3 & N3). repeat split; congruence.
  - specialize (IH w1). destruct (shift_backups name k w1) as [err' w3].
    destruct IH as (I3 & C3 & N3). repeat split; congruence.
Qed.

(** The rollover block never touches a file or the clock; when it returns
    no error and there are backups to keep, the active file has been
    renamed away; when it returns an error, or keeps no backup, the active
    file is where it was. *)
Lemma rollover_effect name backup w :
  let (err, w1) := rollover name backup w in
  inodes w1 = inodes w /\ clock w1 = clock w /\
  (0 < backup -> err = None -> names w1 !! name = None) /\
  (backup <= 0 \/ err <> None -> names w1 !! name = names w !! name).
Proof.
  rewrite rollover_unfold. destruct (Z.ltb_spec 0 backup) as [HB|HB].
  2:{ split; [done|]. split; [done|]. split; [lia | done]. }
  pose proof (shift_backups_effect name (Z.to_nat (GoInt.sub backup 1)) w)
    as H1.
  destruct (shift_backups _ _ w) as [[e|] w1]; destruct H1 as (I1 & C1 & N1).
  { split; [done|]. split; [done|]. split; [done|]. done. }
  pose proof (remove_then_rename_effect name (Sprintf_s_d name 1) w1) as H2.
  destruct (remove_then_rename _ _ w1) as [err w2].
  destruct H2 as (I2 & C2 & _ & S2 & F2).
  assert (Hne : name <> Sprintf_s_d name 1)
    by apply not_eq_sym, Sprintf_s_d_base.
  split; [congruence|]. split; [congruence|]. split.
  - intros _ He. by apply S2.
  - intros [?|He]; [lia|]. rewrite F2 by done. done.
Qed.

(** The reopen creates an empty file when the name is free, opens the
    file that is there otherwise, and assigns the handle only when it
    succeeds. *)
Lemma reopen_effect f w :
  let '(err, (f', w1)) := OpenWronlyCreateAppend (f, w) in
  clock w1 = clock w /\ total_bytes w1 = total_bytes w /\
  match err with
  | Some _ => f' = f /\ same_files w w1
  | None =>
      exists j, f' = set_File (FileOpen j) f /\
        names w1 !! Name f = Some j /\
        match names w !! Name f with
        | Some i => j = i /\ same_files w w1
        | None => data (inodes w1 !!! j) = []
        end
  end.
Proof.
  unfold OpenWronlyCreateAppend, OS.OpenFile. fold append_flags.
  destruct (syscall_same (EvOpen (Name f) append_flags) w) as [[N I] C].
  destruct (OS.syscall _ w) as [ft w0]. simpl in *.
  assert (T0 : total_bytes w0 = total_bytes w)
    by (unfold total_bytes; by rewrite I).
  destruct ft; simpl; try done.
  rewrite <- N.
  destruct (names w0 !! Name f) as [i|] eqn:Hn; simpl.
  - split; [done|]. split; [done|]. exists i. by repeat split.
  - split; [done|]. split.
    + unfold total_bytes. simpl. rewrite total_bytes_insert. simpl.
      assert (inodes w0 !! fresh (dom (inodes w0)) = None) as Hf
        by (apply not_elem_of_dom, is_fresh).
      rewrite lookup_total_alt, Hf. simpl. fold (total_bytes w0).
      rewrite T0. unfold total_bytes. lia.
    + eexists. split; [reflexivity|]. rewrite lookup_insert_eq.
      split; [done|]. by rewrite lookup_total_insert_eq.
Qed.

(* ===================================================================== *)
(** ** The probe, the truncating open and [Close] *)
(* ===================================================================== *)

(** X1.  [isFileExist] makes one [os.Stat] and changes no file and no name.
    When the call goes through it answers whether the name is in the
    directory; when the call fails, for whatever reason, it answers
    [false], also for a name that is there. *)
Theorem isFileExist_reports_directory name w :
  same_files w (snd (isFileExist name w)) /\
  events_since w (snd (isFileExist name w)) = [EvStat name] /\
  (calm 1 w ->
   fst (isFileExist name w) = bool_decide (is_Some (names w !! name))) /\
  (forall e rest, faults w = Fail e :: rest ->
   fst (isFileExist name w) = false).
Proof.
  split; [|split; [|split]].
  - apply isFileExist_effect.
  - apply events_since_app, isFileExist_trace.
  - unfold calm. intros Hc.
    unfold isFileExist, OS.Stat, OS.syscall, OS.next_fault.
    simpl. destruct (faults w) as [|ft rest]; simpl in *.
    + by destruct (names w !! name).
    + apply Forall_cons in Hc as [<- _]. simpl. by destruct (names w !! name).
  - intros e rest Hf. unfold isFileExist, OS.Stat, OS.syscall, OS.next_fault.
    simpl. by rewrite Hf.
Qed.

Lemma isFileExist_reports_directory_witness :
  let w := one_file_world "app.log" (bytes_of "abc") 0 1 in
  fst (isFileExist "app.log" w) = true /\
  fst (isFileExist "app.log.1" w) = false /\
  fst (isFileExist "app.log" (with_faults [Fail (ErrIO 13)] w)) = false.
Proof.
  intros w.
  destruct (isFileExist_reports_directory "app.log" w) as (_ & _ & H1 & _).
  destruct (isFileExist_reports_directory "app.log.1" w) as (_ & _ & H2 & _).
  destruct (isFileExist_reports_directory "app.log"
              (with_faults [Fail (ErrIO 13)] w)) as (_ & _ & _ & H3).
  assert (Hc : calm 1 w) by (unfold calm; simpl; constructor).
  split; [exact (H1 Hc)|]. split; [exact (H2 Hc)|].
  exact (H3 (ErrIO 13) [] eq_refl).
Defined.

(** X2.  [OpenWronlyTrunca], when the system call goes through.  On a name
    that is not in the directory it returns the error of a missing file,
    creates nothing and leaves the sink as it was.  On a name that is
    there it empties that file, leaves every other file and the directory
    alone, and puts the sink on a handle on it; [CapUsing] is not reset. *)
Theorem OpenWronlyTrunca_truncates_existing f w :
  calm 1 w ->
  (names w !! Name f = None ->
   exists w',
     OpenWronlyTrunca (f, w) = (Some ErrNotExist, (f, w')) /\
     same_files w w') /\
  (forall i, names w !! Name f = Some i ->
   exists w',
     OpenWronlyTrunca (f, w) = (None, (set_File (FileOpen i) f, w')) /\
     names w' = names w /\
     content (Name f) w' = Some [] /\
     (forall j, j <> i -> inodes w' !!! j = inodes w !!! j) /\
     CapUsing (set_File (FileOpen i) f) = CapUsing f).
Proof.
  unfold calm. intros Hc.
  assert (exists w1, OS.syscall (EvOpen (Name f) (Z.lor O_WRONLY O_TRUNC)) w
                          = (Pass, w1) /\ same_files w w1 /\ clock w1 = clock w)
    as (w1 & Hs & [N1 I1] & C1).
  { unfold OS.syscall, OS.next_fault. simpl.
    destruct (faults w) as [|ft rest]; simpl in *.
    - by eexists.
    - apply Forall_cons in Hc as [<- _]. by eexists. }
  split.
  - intros Hn. unfold OpenWronlyTrunca, OS.OpenFile. rewrite Hs, N1, Hn.
    simpl. by exists w1.
  - intros i Hn. unfold OpenWronlyTrunca, OS.OpenFile. rewrite Hs, N1, Hn.
    simpl. eexists. split; [reflexivity|]. simpl.
    split; [done|]. unfold content. simpl. rewrite N1, Hn. simpl.
    rewrite lookup_total_insert_eq. split; [done|].
    split; [|done]. intros j Hj. by rewrite lookup_total_insert_ne, I1.
Qed.

Lemma OpenWronlyTrunca_truncates_existing_witness :
  let w := one_file_world "app.log" (bytes_of "abc") 0 1 in
  let f := mkRotateFile 1 10 3 FileNil "app.log" 0 in
  calm 1 w /\
  exists w',
    OpenWronlyTrunca (f, w) = (None, (set_File (FileOpen 0) f, w')) /\
    content "app.log" w' = Some [] /\
    CapUsing (set_File (FileOpen 0) f) = 3.
Proof.
  intros w f.
  assert (Hc : calm 1 w) by (unfold calm; simpl; constructor).
  split; [exact Hc|].
  destruct (proj2 (OpenWronlyTrunca_truncates_existing f w Hc) 0%nat eq_refl)
    as (w' & E & _ & C & _ & U).
  exists w'. split; [exact E|]. split; [exact C | exact U].
Defined.

(** X3.  [Close] always returns.  It changes no file and no name, and no
    field of the sink but the handle, which is not open afterwards; it
    makes one system call on an open handle and none otherwise.  On a sink
    whose file is nil it returns the error of an invalid argument, on a
    closed one the error of a closed file; so a second [Close] always
    returns that error, and does nothing. *)
Theorem Close_releases_handle f w :
  exists err f' w',
    Close (f, w) = (Val err, (f', w')) /\
    same_files w w' /\
    same_config f f' /\ CapUsing f' = CapUsing f /\
    UpdateAt f' = UpdateAt f /\
    is_open_file (File f') = false /\
    events_since w w' =
      match File f with FileOpen i => [EvClose i] | _ => [] end /\
    (File f = FileNil -> err = Some ErrInvalid) /\
    (File f = FileClosed -> err = Some ErrClosed) /\
    (File f <> FileNil -> Close (f', w') = (Val (Some ErrClosed), (f', w'))).
Proof.
  unfold Close. run_go.
  pose proof (Close_trace (File f) w) as T.
  destruct f as [bk cl cu h nm ua]. simpl in *.
  destruct h as [|i|]; simpl in *.
  - eexists _, _, _. split; [reflexivity|]. simpl.
    repeat split; try done. by apply events_since_app.
  - unfold OS.Close in *.
    destruct (OS.syscall (EvClose i) w) as [ft w1] eqn:Hs.
    assert (same_files w w1).
    { unfold OS.syscall, OS.next_fault in Hs. simpl in Hs.
      destruct (faults w); simplify_eq; by split. }
    destruct ft; simpl in *; (eexists _, _, _; split; [reflexivity|]; simpl;
      repeat split; try done; try apply H; by apply events_since_app).
  - eexists _, _, _. split; [reflexivity|]. simpl.
    repeat split; try done. by apply events_since_app.
Qed.

(* ===================================================================== *)
(** ** A sink without an open file *)
(* ===================================================================== *)

(** A write on a sink whose file is nil or closed is refused, or panics
    when the free space is negative; no system call is made. *)
Lemma write_not_open f w b :
  is_open_file (File f) = false ->
  exists r f' w',
    write b (f, w) = (r, (f', w')) /\
    same_files w w' /\ trace w' = trace w /\ faults w' = faults w /\
    File f' = File f /\ same_config f f' /\
    refused r.
Proof.
  intros Hf.
  assert (HW : forall c, OS.Write (File f) c w
            = ((0, Some (match File f with
                         | FileNil => ErrInvalid | _ => ErrClosed end)), w)).
  { intros c. destruct (File f); done. }
  assert (He : forall r : Res (Z * option error),
            r = Val (0, Some (match File f with
                              | FileNil => ErrInvalid | _ => ErrClosed end)) ->
            refused r).
  { intros r ->. simpl. split; [done|]. destruct (File f); auto. }
  set (capSpace := GoInt.sub (CapLimit f) (CapUsing f)).
  destruct (Z.le_gt_cases (len b) capSpace) as [Hfit|Hspill].
  { rewrite write_fits by done. rewrite HW. eexists _, _, _.
    split; [reflexivity|]. do 5 (split; [done|]). by apply He. }
  destruct (Z.lt_ge_cases capSpace 0) as [Hneg|Hpos].
  { rewrite write_negative_space by done. eexists _, _, _.
    split; [reflexivity|]. by repeat split. }
  rewrite write_spills by done. fold capSpace. rewrite HW.
  eexists _, _, _. split; [reflexivity|]. do 5 (split; [done|]).
  by apply He.
Qed.

Lemma run_writes_not_open bs : forall f w,
  is_open_file (File f) = false ->
  let '(rs, (f', w')) := run_writes bs (f, w) in
  same_files w w' /\ events_since w w' = [] /\ faults w' = faults w /\
  File f' = File f /\ Forall refused rs.
Proof.
  induction bs as [|b bs IH]; intros f w Hf.
  { simpl. repeat split; try done. unfold events_since. by rewrite drop_all. }
  simpl.
  destruct (write_not_open f w b Hf)
    as (r & f1 & w1 & -> & [N1 I1] & T1 & F1 & H1 & _ & S1).
  specialize (IH f1 w1). rewrite H1 in IH. specialize (IH Hf).
  destruct (run_writes bs (f1, w1)) as [rs [f2 w2]].
  destruct IH as ([N2 I2] & T2 & F2 & H2 & S2).
  split; [split; congruence|]. split.
  - unfold events_since in *. by rewrite <- T1.
  - split; [congruence|]. split; [congruence|]. by constructor.
Qed.

(** X4.  Once the file of the sink is nil or closed, it stays so: every
    later call of [write] is refused with a count of zero and the error of
    a closed file or of an invalid argument (or panics, when the free space
    is negative), makes no system call and changes no file.  No call of
    [write] reopens the file. *)
Theorem writes_on_closed_sink_do_nothing bs f w :
  is_open_file (File f) = false ->
  let '(rs, (f', w')) := run_writes bs (f, w) in
  same_files w w' /\ events_since w w' = [] /\ faults w' = faults w /\
  File f' = File f /\ Forall refused rs.
Proof. apply run_writes_not_open. Qed.

Lemma writes_on_closed_sink_do_nothing_witness :
  let w := one_file_world "app.log" (bytes_of "abc") 0 1 in
  let f := mkRotateFile 1 10 3 FileClosed "app.log" 0 in
  is_open_file (File f) = false /\
  let '(rs, (f', w')) :=
    run_writes [bytes_of "de"; bytes_of "0123456789"] (f, w) in
  same_files w w' /\ events_since w w' = [] /\ faults w' = faults w /\
  File f' = File f /\ Forall refused rs.
Proof.
  intros w f.
  assert (H : is_open_file (File f) = false) by reflexivity.
  split; [exact H|].
  exact (writes_on_closed_sink_do_nothing
           [bytes_of "de"; bytes_of "0123456789"] f w H).
Defined.

(** [Write] on a sink whose file is nil or closed panics: with the error
    [write] returned, or on the slice bound. *)
Lemma Write_not_open f w b :
  is_open_file (File f) = false -> exists p, fst (Write b (f, w)) = Panic p.
Proof.
  intros Hf.
  destruct (write_not_open f w b Hf)
    as (r & f' & w' & E & _ & _ & _ & _ & _ & R).
  unfold Write. run_go. rewrite E.
  destruct r as [[n [e1|]]|p]; simpl in *.
  - by eexists.
  - destruct R as [_ [R|R]]; discriminate R.
  - by eexists.
Qed.



Lemma Close_releases_handle_witness :
  let w := one_file_world "app.log" (bytes_of "abc") 0 1 in
  let f := mkRotateFile 1 10 3 (FileOpen 0) "app.log" 0 in
  exists err f' w',
    Close (f, w) = (Val err, (f', w')) /\
    is_open_file (File f') = false /\
    events_since w w' = [EvClose 0] /\
    Close (f', w') = (Val (Some ErrClosed), (f', w')).
Proof.
  intros w f.
  destruct (Close_releases_handle f w)
    as (err & f' & w' & E & _ & _ & _ & _ & Hc & Ev & _ & _ & H2).
  exists err, f', w'. split; [exact E|]. split; [exact Hc|].
  split; [exact Ev|]. apply H2. discriminate.
Defined.

(* ===================================================================== *)
(** ** The count returned, the bytes appended and the time stamp *)
(* ===================================================================== *)

Lemma rollover_total name backup w :
  total_bytes (snd (rollover name backup w)) = total_bytes w.
Proof.
  pose proof (rollover_effect name backup w) as H.
  destruct (rollover name backup w) as [err w1]. destruct H as (I & _).
  unfold total_bytes. simpl. by rewrite I.
Qed.

Lemma same_files_total w w' : same_files w w' -> total_bytes w' = total_bytes w.
Proof. intros [_ I]. unfold total_bytes. by rewrite I. Qed.

(** What a call of [write] that returns has done, whatever it returns. *)
Lemma write_accounting f w b n err f' w' :
  write b (f, w) = (Val (n, err), (f', w')) ->
  (len b <= GoInt.max_int ->
   0 <= n <= len b /\ total_bytes w' = total_bytes w + n) /\
  clock w < clock w' /\ UpdateAt f' = clock w' - 1.
Proof.
  pose proof (len_nonneg b) as Hb0.
  set (capSpace := GoInt.sub (CapLimit f) (CapUsing f)).
  destruct (Z.le_gt_cases (len b) capSpace) as [Hfit|Hspill].
  { rewrite write_fits by done.
    pose proof (Write_effect (File f) b w) as H.
    destruct (OS.Write (File f) b w) as [[k e] w1].
    destruct H as (Hk & _ & C & T & _).
    unfold touch. simpl. intros E. injection E as <- <- <- <-. simpl.
    unfold total_bytes in *. simpl in *. repeat split; lia. }
  destruct (Z.lt_ge_cases capSpace 0) as [Hneg|Hpos].
  { by rewrite write_negative_space. }
  rewrite write_spills by done. fold capSpace.
  assert (Hcs : capSpace <= GoInt.max_int) by apply sub_range.
  assert (Hh : len (take (Z.to_nat capSpace) b) = capSpace)
    by (apply len_take; lia).
  assert (Ht : len (drop (Z.to_nat capSpace) b) = len b - capSpace)
    by (apply len_drop; lia).
  pose proof (Write_effect (File f) (take (Z.to_nat capSpace) b) w) as H1.
  destruct (OS.Write (File f) _ w) as [[k e1] w1].
  destruct H1 as (Hk & _ & C1 & T1 & S1 & _). rewrite Hh in Hk, S1.
  assert (Hn : GoInt.add 0 k = k).
  { apply add_zero_l. unfold GoInt.in_range, GoInt.min_int. lia. }
  cbn [touch fst snd]. cbv zeta. rewrite Hn.
  assert (T2 : total_bytes (snd (OS.Now w1)) = total_bytes w + k) by done.
  destruct e1 as [e1|].
  { intros E. injection E as <- <- <- <-. simpl.
    unfold total_bytes in *. simpl in *. repeat split; lia. }
  specialize (S1 eq_refl). subst k.
  pose proof (Close_effect (File f) (snd (OS.Now w1))) as H3.
  destruct (OS.Close (File f) _) as [[cerr closed] w3].
  destruct H3 as (SF3 & C3 & _). apply same_files_total in SF3.
  simpl in C3.
  destruct cerr as [e3|].
  { intros E. injection E as <- <- <- <-. simpl.
    unfold total_bytes in *. simpl in *. repeat split; lia. }
  pose proof (rollover_effect (Name f) (Backup f) w3) as H4.
  pose proof (rollover_total (Name f) (Backup f) w3) as T4.
  destruct (rollover _ _ w3) as [rerr w4]. destruct H4 as (_ & C4 & _).
  simpl in T4.
  destruct rerr as [e4|].
  { intros E. injection E as <- <- <- <-. simpl.
    unfold total_bytes in *. simpl in *. repeat split; lia. }
  match goal with |- context [OpenWronlyCreateAppend (?g, w4)] =>
    pose proof (reopen_effect g w4) as H5;
    destruct (OpenWronlyCreateAppend (g, w4)) as [oerr [f3 w5]] end.
  destruct H5 as (C5 & T5 & H5).
  destruct oerr as [e5|].
  { destruct H5 as [-> _].
    intros E. injection E as <- <- <- <-. simpl.
    unfold total_bytes in *. simpl in *. repeat split; lia. }
  pose proof (Write_effect (File f3) (drop (Z.to_nat capSpace) b) w5) as H6.
  destruct (OS.Write (File f3) _ w5) as [[k' e6] w6].
  destruct H6 as (Hk' & _ & C6 & T6 & _). rewrite Ht in Hk'.
  unfold touch. simpl. intros E. injection E as <- <- <- <-. simpl.
  split; [|lia]. intros Hb.
  assert (Hs : GoInt.add capSpace k' = capSpace + k').
  { apply wrap_in_range. unfold GoInt.in_range, GoInt.min_int. lia. }
  rewrite Hs. unfold total_bytes in *. simpl in *. repeat split; lia.
Qed.

(** X6.  The count a call of [write] returns, with or without an error, is
    the number of bytes it appended to files: the count lies between zero
    and the length of the input, and the bytes held by all the files
    together, renamed and removed ones included, have grown by exactly
    that count.  No call truncates a file. *)
Theorem write_count_is_bytes_appended f w b n err f' w' :
  len b <= GoInt.max_int ->
  write b (f, w) = (Val (n, err), (f', w')) ->
  0 <= n <= len b /\ total_bytes w' = total_bytes w + n.
Proof.
  intros Hb HW. by apply (write_accounting f w b n err f' w').
Qed.

(** X7.  Every call of [write] that returns, with or without an error, has
    read the clock and left in [UpdateAt] the last time it read. *)
Theorem write_stamps_UpdateAt f w b n err f' w' :
  write b (f, w) = (Val (n, err), (f', w')) ->
  clock w < clock w' /\ UpdateAt f' = clock w' - 1.
Proof.
  intros HW. by apply (write_accounting f w b n err f' w').
Qed.

(** X8.  [write] panics in one case only, the negative free space: with
    [CapLimit - CapUsing] (as an [int]) at zero or above it returns,
    whatever the handle is and whatever fails; below zero it panics for
    every input and leaves the sink and the world as they were. *)
Theorem write_panics_only_on_negative_space f w b :
  ((exists p, fst (write b (f, w)) = Panic p) <->
   GoInt.sub (CapLimit f) (CapUsing f) < 0) /\
  (forall p, fst (write b (f, w)) = Panic p ->
   snd (write b (f, w)) = (f, w) /\
   p = SliceBounds (GoInt.sub (CapLimit f) (CapUsing f)) (len b)).
Proof.
  assert (Hp : forall p, fst (write b (f, w)) = Panic p ->
            GoInt.sub (CapLimit f) (CapUsing f) < 0).
  { intros p Hp.
    destruct (Z.lt_ge_cases (GoInt.sub (CapLimit f) (CapUsing f)) 0)
      as [Hneg|Hpos]; [done|].
    exfalso. revert Hp.
    destruct (Z.le_gt_cases (len b) (GoInt.sub (CapLimit f) (CapUsing f)))
      as [Hfit|Hspill].
    + rewrite write_fits by done. by destruct (OS.Write (File f) b w).
    + rewrite write_spills by done.
      repeat (case_match; simpl in *; simplify_eq); done. }
  split; [split|].
  - intros [p H]. by apply (Hp p).
  - intros Hneg. rewrite write_negative_space by done. by eexists.
  - intros p H. pose proof (Hp p H) as Hneg. revert H.
    rewrite write_negative_space by done. simpl. by intros [= <-].
Qed.

Lemma write_count_is_bytes_appended_witness :
  let f := mkRotateFile 1 10 3 (FileOpen 0) "app.log" 0 in
  let w := with_faults [Short 2 (ErrIO 28)]
             (one_file_world "app.log" (bytes_of "abc") 0 1) in
  let b := bytes_of "defgh" in
  len b <= GoInt.max_int /\
  exists f' w',
    write b (f, w) = (Val (2, Some (ErrIO 28)), (f', w')) /\
    total_bytes w' = total_bytes w + 2.
Proof.
  intros f w b.
  assert (Hb : len b <= GoInt.max_int) by (vm_compute; discriminate).
  split; [exact Hb|].
  destruct (write b (f, w)) as [r [f' w']] eqn:HW.
  assert (Hr : r = Val (2, Some (ErrIO 28)))
    by (apply (f_equal fst) in HW; vm_compute in HW; congruence).
  subst r. exists f', w'. split; [reflexivity|].
  exact (proj2 (write_count_is_bytes_appended f w b 2 _ f' w' Hb HW)).
Defined.

Lemma write_stamps_UpdateAt_witness :
  let f := mkRotateFile 1 10 3 (FileOpen 0) "app.log" 0 in
  let w := with_faults [Fail (ErrIO 28)]
             (one_file_world "app.log" (bytes_of "abc") 0 7) in
  let b := bytes_of "defgh" in
  exists f' w',
    write b (f, w) = (Val (0, Some (ErrIO 28)), (f', w')) /\
    clock w < clock w' /\ UpdateAt f' = clock w' - 1.
Proof.
  intros f w b.
  destruct (write b (f, w)) as [r [f' w']] eqn:HW.
  assert (Hr : r = Val (0, Some (ErrIO 28)))
    by (apply (f_equal fst) in HW; vm_compute in HW; congruence).
  subst r. exists f', w'. split; [reflexivity|].
  exact (write_stamps_UpdateAt f w b 0 _ f' w' HW).
Defined.

Lemma write_panics_only_on_negative_space_witness :
  let f := mkRotateFile 1 4 8 (FileOpen 0) "app.log" 7 in
  let w := one_file_world "app.log" (bytes_of "12345678") 7 9 in
  fst (write [] (f, w)) = Panic (SliceBounds (-4) 0) /\
  snd (write [] (f, w)) = (f, w).
Proof.
  intros f w.
  assert (H : fst (write [] (f, w)) = Panic (SliceBounds (-4) 0))
    by (vm_compute; reflexivity).
  split; [exact H|].
  exact (proj1 (proj2 (write_panics_only_on_negative_space f w []) _ H)).
Defined.

(* ===================================================================== *)
(** ** The sink keeps track of its file *)
(* ===================================================================== *)





(** X11.  [New] on a name that is not in the directory, when the open and
    the stat go through: a file is created under that name, on an inode
    that was not in use, empty and with the current time as its
    modification time; the sink returned counts zero bytes and carries
    that time; no other name and no other file changes. *)
Theorem New_creates_missing_file name backup size w :
  calm 2 w -> names w !! name = None ->
  exists i w',
    New name backup size w =
      ((Some (mkRotateFile backup size 0 (FileOpen i) name (clock w)), None),
       w') /\
    inodes w !! i = None /\
    names w' = <[name := i]> (names w) /\
    inodes w' = <[i := mkInode [] (clock w)]> (inodes w) /\
    events_since w w' = [EvOpen name append_flags; EvFstat i].
Proof.
  intros Hcalm Hn.
  assert (Hfr : inodes w !! fresh (dom (inodes w)) = None)
    by (apply not_elem_of_dom, is_fresh).
  unfold calm in Hcalm.
  unfold New, OpenWronlyCreateAppend, OS.OpenFile, OS.Fstat, OS.syscall,
    OS.next_fault, OS.info, OS.create. simpl.
  destruct (faults w) as [|f1 [|f2 rest]] eqn:Hf; simpl in *.
  - rewrite Hn. simpl. rewrite Hf. simpl. rewrite lookup_total_insert_eq.
    eexists _, _. split; [reflexivity|]. simpl.
    repeat split; try done. apply events_since_app. simpl.
    by rewrite <- app_assoc.
  - apply Forall_cons in Hcalm as [<- _].
    rewrite Hn. simpl. rewrite lookup_total_insert_eq.
    eexists _, _. split; [reflexivity|]. simpl.
    repeat split; try done. apply events_since_app. simpl.
    by rewrite <- app_assoc.
  - apply Forall_cons in Hcalm as [<- Hc]. apply Forall_cons in Hc as [<- _].
    rewrite Hn. simpl. rewrite lookup_total_insert_eq.
    eexists _, _. split; [reflexivity|]. simpl.
    repeat split; try done. apply events_since_app. simpl.
    by rewrite <- app_assoc.
Qed.



Lemma New_creates_missing_file_witness :
  let w := empty_world 5 in
  exists i w',
    New "app.log" 2 10 w =
      ((Some (mkRotateFile 2 10 0 (FileOpen i) "app.log" 5), None), w') /\
    names w' = <[ "app.log"%string := i ]> (names w).
Proof.
  intros w.
  assert (Hc : calm 2 w) by (unfold calm; simpl; constructor).
  assert (Hn : names w !! "app.log"%string = None) by reflexivity.
  destruct (New_creates_missing_file "app.log" 2 10 w Hc Hn)
    as (i & w' & E & _ & N & _).
  exists i, w'. split; [exact E | exact N].
Defined.

(* ===================================================================== *)
(** ** A rotating write, from the bytes' point of view *)
(* ===================================================================== *)

(** X12.  A write that does not fit, on a sink that keeps backups and is
    on the file at [Name], when no system call fails: the call succeeds
    with the length of the input; the bytes that fit go to the end of the
    old file, which is then found under the first backup name; the rest
    goes to a file created empty on an inode not in use before, found
    under [Name]; no other file changes, and the sink tracks the new
    file. *)
Theorem rotating_write_keeps_every_byte f w b i :
  let capSpace := GoInt.sub (CapLimit f) (CapUsing f) in
  let head := take (Z.to_nat capSpace) b in
  let tail := drop (Z.to_nat capSpace) b in
  File f = FileOpen i -> names w !! Name f = Some i ->
  0 < Backup f <= GoInt.max_int ->
  0 <= capSpace < len b -> len b <= GoInt.max_int ->
  quiet w ->
  exists f' w' j,
    write b (f, w) = (Val (len b, None), (f', w')) /\
    File f' = FileOpen j /\ j <> i /\ inodes w !! j = None /\
    content (Name f) w' = Some tail /\
    content (Sprintf_s_d (Name f) 1) w' =
      Some (data (inodes w !!! i) ++ head) /\
    (forall l, l <> i -> l <> j -> inodes w' !!! l = inodes w !!! l) /\
    tracks (f', w') /\ quiet w'.
Proof.
  intros capSpace head tail Hf Hn HB Hc Hb Hq.
  rewrite write_spills by done. fold capSpace head tail. rewrite Hf.
  destruct (Write_quiet i head w Hq)
    as (w1 & -> & N1 & D1 & O1 & Dom1 & T1 & Q1).
  cbn [touch fst snd]. cbv zeta.
  destruct (Close_quiet i (snd (OS.Now w1)) Q1)
    as (w3 & -> & N3 & I3 & T3 & Q3).
  destruct (rollover_quiet (Name f) (Backup f) i w3)
    as (w4 & evs & -> & (N4 & I4 & T4 & Q4) & M4); [done | done | |].
  { rewrite N3. simpl. by rewrite N1. }
  destruct (spec_rotate_effect (Name f) (Backup f) i (names w3))
    as (R1 & R0 & _); [lia|].
  rewrite <- N4 in R1, R0.
  match goal with |- context [OpenWronlyCreateAppend (?g, w4)] =>
    destruct (reopen_quiet_absent g w4 Q4) as (w5 & t & E5 & N5 & I5 & T5 & Q5)
  end; [done|].
  cbv zeta in E5. rewrite E5. simpl in N5, T5 |- *.
  set (j := fresh (dom (inodes w4))) in *.
  destruct (Write_quiet j tail w5 Q5)
    as (w6 & -> & N6 & D6 & O6 & Dom6 & T6 & Q6).
  assert (Hfr : j ∉ dom (inodes w1)).
  { pose proof (is_fresh (dom (inodes w4))) as Hfr. fold j in Hfr.
    by rewrite I4, I3 in Hfr. }
  rewrite Dom1 in Hfr.
  assert (Hji : j <> i).
  { intros E. apply Hfr. rewrite E.
    apply elem_of_union_l, elem_of_singleton. reflexivity. }
  assert (Hj0 : inodes w !! j = None).
  { apply not_elem_of_dom. intros E. apply Hfr. by apply elem_of_union_r. }
  assert (Hh : len head = capSpace) by (apply len_take; lia).
  assert (Ht : len tail = len b - capSpace) by (apply len_drop; lia).
  pose proof (len_nonneg b) as Hb0.
  assert (Hsum : GoInt.add (GoInt.add 0 (len head)) (len tail) = len b).
  { rewrite add_zero_l by (rewrite Hh; apply sub_range).
    unfold GoInt.add. rewrite Hh, Ht.
    replace (capSpace + (len b - capSpace)) with (len b) by lia.
    apply wrap_in_range. unfold GoInt.in_range, GoInt.min_int. lia. }
  rewrite Hsum.
  assert (Hnew : names w6 !! Name f = Some j)
    by (rewrite N6, N5; apply lookup_insert_eq).
  assert (Hdj : data (inodes w6 !!! j) = tail)
    by (by rewrite D6, I5, lookup_total_insert_eq).
  eexists _, _, j. split; [reflexivity|].
  split; [done|]. split; [done|]. split; [done|].
  unfold content. simpl. rewrite Hnew. simpl. split; [by rewrite Hdj|].
  split; [|split; [|split]].
  - rewrite N6, N5, lookup_insert_ne
      by apply not_eq_sym, Sprintf_s_d_base.
    rewrite R1. simpl. f_equal.
    rewrite O6 by done. rewrite I5, lookup_total_insert_ne by done.
    by rewrite I4, I3.
  - intros l Hli Hlj. rewrite O6 by done.
    rewrite I5, lookup_total_insert_ne by done. rewrite I4, I3. simpl.
    by apply O1.
  - unfold tracks, linked, accurate, content. simpl. rewrite Hnew. simpl.
    split; [done|]. rewrite Hdj. split; [lia|]. by intros c [= <-].
  - done.
Qed.

Lemma rotating_write_keeps_every_byte_witness :
  let f := mkRotateFile 3 5 4 (FileOpen 0) "app.log" 4 in
  let w := three_backups_world in
  exists f' w' j,
    write (bytes_of "xyz") (f, w) = (Val (3, None), (f', w')) /\
    File f' = FileOpen j /\
    content "app.log" w' = Some (bytes_of "yz") /\
    content "app.log.1" w' = Some (bytes_of "ddddx").
Proof.
  intros f w.
  assert (HB : 0 < Backup f <= GoInt.max_int)
    by (split; [reflexivity | vm_compute; discriminate]).
  assert (Hc : 0 <= GoInt.sub (CapLimit f) (CapUsing f)
               < len (bytes_of "xyz")) by (vm_compute; split; done).
  assert (Hb : len (bytes_of "xyz") <= GoInt.max_int)
    by (vm_compute; discriminate).
  assert (Hq : quiet w) by (unfold quiet; simpl; constructor).
  destruct (rotating_write_keeps_every_byte f w (bytes_of "xyz") 0%nat
              eq_refl eq_refl HB Hc Hb Hq)
    as (f' & w' & j & E & F & _ & _ & C0 & C1 & _).
  exists f', w', j. split; [exact E|]. split; [exact F|].
  split; [exact C0 | exact C1].
Defined.

(** X13.  Without a backup to keep ([Backup] at zero or below), a
    successful write that does not fit leaves the whole input at the end
    of the same file, and restarts [CapUsing] at the length of what was
    written after the reopen: the counter ends [CapLimit] bytes short of
    the size of the file, so the sink tracks its file no more and the file
    grows past the capacity. *)
Theorem no_backup_counter_falls_behind f w b n f' w' c :
  Backup f <= 0 ->
  0 <= CapLimit f <= GoInt.max_int ->
  tracks (f, w) -> content (Name f) w = Some c ->
  CapLimit f - CapUsing f < len b ->
  write b (f, w) = (Val (n, None), (f', w')) ->
  content (Name f) w' = Some (c ++ b) /\
  CapUsing f' = len (c ++ b) - CapLimit f /\
  (0 < CapLimit f -> ~ accurate (f', w')).
Proof.
  intros HB HL (Hlk & HU & Hacc) Hc Hlt HW.
  assert (Hs : GoInt.sub (CapLimit f) (CapUsing f) = CapLimit f - CapUsing f)
    by (apply sub_no_wrap; simpl in *; lia).
  destruct (Z.lt_ge_cases (CapLimit f - CapUsing f) 0) as [Hneg|Hpos].
  { rewrite write_negative_space in HW by lia. done. }
  destruct (write_appends f w b n f' w' c HB Hlk Hc HW) as [_ Hc'].
  destruct (write_spills_ok f w b n f' w')
    as (i & j & evs & _ & _ & _ & _ & _ & HC & _); [lia | done |].
  rewrite Hs in HC. specialize (Hacc c Hc). simpl in Hacc.
  assert (HU' : CapUsing f' = len (c ++ b) - CapLimit f).
  { rewrite HC. unfold len in *. rewrite length_app. lia. }
  split; [done|]. split; [done|].
  intros Hpos' Ha. pose proof (write_config f w b) as (_ & _ & E).
  rewrite HW in E. simpl in E.
  specialize (Ha (c ++ b)). simpl in Ha. rewrite E in Ha.
  specialize (Ha Hc'). lia.
Qed.

Lemma no_backup_counter_falls_behind_witness :
  let f := mkRotateFile 0 4 3 (FileOpen 0) "app.log" 0 in
  let w := one_file_world "app.log" (bytes_of "abc") 0 1 in
  exists f' w',
    write (bytes_of "defgh") (f, w) = (Val (5, None), (f', w')) /\
    content "app.log" w' = Some (bytes_of "abcdefgh") /\
    CapUsing f' = 4.
Proof.
  intros f w.
  assert (HB : Backup f <= 0) by (simpl; lia).
  assert (HL : 0 <= CapLimit f <= GoInt.max_int)
    by (split; [done | vm_compute; discriminate]).
  assert (Tr : tracks (f, w)).
  { split; [reflexivity|]. split.
    - split; [done | vm_compute; discriminate].
    - intros c Hc. vm_compute in Hc. by injection Hc as <-. }
  assert (Hc : content (Name f) w = Some (bytes_of "abc")) by reflexivity.
  assert (Hlt : CapLimit f - CapUsing f < len (bytes_of "defgh"))
    by (vm_compute; reflexivity).
  destruct (write (bytes_of "defgh") (f, w)) as [r [f' w']] eqn:HW.
  assert (Hr : r = Val (5, None))
    by (apply (f_equal fst) in HW; vm_compute in HW; congruence).
  subst r. exists f', w'. split; [reflexivity|].
  destruct (no_backup_counter_falls_behind f w (bytes_of "defgh") 5 f' w'
              (bytes_of "abc") HB HL Tr Hc Hlt HW) as (C & U & _).
  split; [exact C | exact U].
Defined.

(* ===================================================================== *)
(** ** Failures after the head was written *)
(* ===================================================================== *)

Lemma rollover_trace name backup w :
  exists evs, trace (snd (rollover name backup w)) = trace w ++ evs /\
              Forall dir_event evs.
Proof. apply rollover_logs. Qed.

(** The handle a call of [write] leaves, by the last system call made. *)
Lemma write_error_handle f w b n e f' w' :
  write b (f, w) = (Val (n, Some e), (f', w')) ->
  (exists evs i c, events_since w w' = evs ++ [EvWrite i c]) \/
  is_open_file (File f') = false.
Proof.
  set (capSpace := GoInt.sub (CapLimit f) (CapUsing f)).
  assert (HW : forall c k e1 w1,
            OS.Write (File f) c w = ((k, e1), w1) ->
            (exists i, File f = FileOpen i /\
                       trace w1 = trace w ++ [EvWrite i c]) \/
            (is_open_file (File f) = false /\ e1 <> None)).
  { intros c k e1 w1 E. pose proof (Write_trace (File f) c w) as T.
    pose proof (Write_effect (File f) c w) as H.
    rewrite E in T, H. simpl in T. destruct (File f) as [|i|].
    - right. by destruct H as (_&_&_&_&_&_&_&?).
    - left. by exists i.
    - right. by destruct H as (_&_&_&_&_&_&_&?). }
  destruct (Z.le_gt_cases (len b) capSpace) as [Hfit|Hspill].
  { rewrite write_fits by done.
    destruct (OS.Write (File f) b w) as [[k e1] w1] eqn:E.
    destruct (HW _ _ _ _ E) as [(i & Hi & T)|[Hc _]].
    - unfold touch. simpl. intros EW; injection EW as _ _ <- <-. left.
      exists [], i, b. by apply events_since_app.
    - unfold touch. simpl. intros EW; injection EW as _ _ <- <-. by right. }
  destruct (Z.lt_ge_cases capSpace 0) as [Hneg|Hpos].
  { by rewrite write_negative_space. }
  rewrite write_spills by done. fold capSpace.
  destruct (OS.Write (File f) _ w) as [[k e1] w1] eqn:E.
  cbn [touch fst snd]. cbv zeta.
  destruct (HW _ _ _ _ E) as [(i & Hi & T1)|[Hc He]].
  2:{ destruct e1 as [e1|]; [|done].
      intros EW; injection EW as _ _ <- <-. by right. }
  destruct e1 as [e1|].
  { intros EW; injection EW as _ _ <- <-. left. eexists [], i, _.
    by apply events_since_app. }
  pose proof (Close_effect (File f) (snd (OS.Now w1))) as H3.
  pose proof (Close_trace (File f) (snd (OS.Now w1))) as T3.
  destruct (OS.Close (File f) _) as [[cerr closed] w3].
  destruct H3 as (_ & _ & Hcl). simpl in T3.
  destruct cerr as [e3|]; [intros EW; injection EW as _ _ <- <-; by right|].
  destruct (rollover_trace (Name f) (Backup f) w3) as (evs & T4 & _).
  destruct (rollover _ _ w3) as [rerr w4]. simpl in T4.
  destruct rerr as [e4|]; [intros EW; injection EW as _ _ <- <-; by right|].
  match goal with |- context [OpenWronlyCreateAppend (?g, w4)] =>
    pose proof (reopen_effect g w4) as H5;
    pose proof (reopen_trace g w4) as T5;
    destruct (OpenWronlyCreateAppend (g, w4)) as [oerr [f3 w5]] end.
  destruct H5 as (_ & _ & H5). simpl in T5.
  destruct oerr as [e5|].
  { destruct H5 as [-> _]. intros EW; injection EW as _ _ <- <-. by right. }
  destruct H5 as (j & -> & _).
  pose proof (Write_trace (FileOpen j) (drop (Z.to_nat capSpace) b) w5) as T6.
  simpl. destruct (OS.Write (FileOpen j) _ w5) as [[k' e6] w6].
  simpl in T6. unfold touch. simpl. intros EW; injection EW as _ _ <- <-.
  left. rewrite Hi in T3.
  exists ([EvWrite i (take (Z.to_nat capSpace) b); EvClose i] ++ evs ++
          [EvOpen (Name f) append_flags]), j, (drop (Z.to_nat capSpace) b).
  apply events_since_app. simpl.
  rewrite T6, T5, T4, T3. simpl. rewrite T1.
  rewrite <- !app_assoc. reflexivity.
Qed.

(** X14.  When a call of [write] returns an error and the last system
    call it made is not a write to a file (the error came from the close,
    from the rollover or from the reopen), the sink is left on a closed
    file: every later call of [write] is refused and changes nothing; only
    a new sink brings the log back. *)
Theorem failed_rotation_leaves_sink_closed f w b n e f' w' :
  write b (f, w) = (Val (n, Some e), (f', w')) ->
  (forall i c, last (events_since w w') <> Some (EvWrite i c)) ->
  is_open_file (File f') = false /\
  forall bs,
    same_files w' (snd (snd (run_writes bs (f', w')))) /\
    Forall refused (fst (run_writes bs (f', w'))).
Proof.
  intros HW Hlast.
  assert (Hc : is_open_file (File f') = false).
  { destruct (write_error_handle _ _ _ _ _ _ _ HW)
      as [(evs & i & c & E)|Hc]; [|done].
    exfalso. apply (Hlast i c). rewrite E. apply last_snoc. }
  split; [done|]. intros bs.
  pose proof (run_writes_not_open bs f' w' Hc) as H.
  destruct (run_writes bs (f', w')) as [rs [f2 w2]].
  by destruct H as (SF & _ & _ & _ & R).
Qed.

Lemma failed_rotation_leaves_sink_closed_witness :
  let f := mkRotateFile 1 4 3 (FileOpen 0) "app.log" 0 in
  let w := with_faults [Pass; Pass; Pass; Fail (ErrIO 13)]
             (one_file_world "app.log" (bytes_of "abc") 0 1) in
  exists f' w',
    write (bytes_of "defgh") (f, w) = (Val (1, Some (ErrIO 13)), (f', w')) /\
    is_open_file (File f') = false /\
    Forall refused (fst (run_writes [bytes_of "ij"] (f', w'))).
Proof.
  intros f w.
  destruct (write (bytes_of "defgh") (f, w)) as [r [f' w']] eqn:HW.
  assert (Hr : r = Val (1, Some (ErrIO 13)))
    by (apply (f_equal fst) in HW; vm_compute in HW; congruence).
  subst r. exists f', w'. split; [reflexivity|].
  assert (Hl : forall i c,
            last (events_since w w') <> Some (EvWrite i c)).
  { intros i c.
    apply (f_equal (fun x => trace (snd (snd x)))) in HW. simpl in HW.
    unfold events_since. rewrite <- HW. vm_compute. discriminate. }
  destruct (failed_rotation_leaves_sink_closed f w (bytes_of "defgh") 1 _
              f' w' HW Hl) as [Hc H].
  split; [exact Hc|]. exact (proj2 (H [bytes_of "ij"])).
Defined.

(* ===================================================================== *)
(** ** When a call rotates *)
(* ===================================================================== *)

(** X15.  A successful call of [write] rotates exactly when the input is
    longer than the free space [CapLimit - CapUsing]: it then closes the
    file once, reopens the name once and, when backups are kept, renames
    the active file once; otherwise it makes none of these calls. *)
Theorem successful_write_rotates_on_overflow f w b n f' w' :
  write b (f, w) = (Val (n, None), (f', w')) ->
  let k := if decide (len b <= GoInt.sub (CapLimit f) (CapUsing f))
           then 0%nat else 1%nat in
  count_events is_close (events_since w w') = k /\
  count_events is_open (events_since w w') = k /\
  count_events (moves (Name f)) (events_since w w') =
    (if 0 <? Backup f then k else 0%nat).
Proof.
  intros HW. cbv zeta. case_decide as Hfit.
  { destruct (write_fits_ok f w b n f' w' Hfit HW) as (i & _ & _ & -> & _).
    by destruct (0 <? Backup f). }
  destruct (Z.lt_ge_cases (GoInt.sub (CapLimit f) (CapUsing f)) 0)
    as [Hneg|Hpos].
  { rewrite write_negative_space in HW by lia. done. }
  destruct (write_spills_ok f w b n f' w') as
    (i & j & evs & _ & _ & -> & Fev & Mev & _); [lia | done |].
  rewrite !count_events_app.
  rewrite (count_events_none is_close evs), (count_events_none is_open evs),
    Mev.
  - repeat split; try done.
  - eapply Forall_impl; [exact Fev | apply dir_event_not_open].
  - eapply Forall_impl; [exact Fev | apply dir_event_not_close].
Qed.

Lemma successful_write_rotates_on_overflow_witness :
  let f := mkRotateFile 1 4 3 (FileOpen 0) "app.log" 0 in
  let w := one_file_world "app.log" (bytes_of "abc") 0 1 in
  exists f' w' f'' w'',
    write (bytes_of "d") (f, w) = (Val (1, None), (f', w')) /\
    count_events is_close (events_since w w') = 0%nat /\
    write (bytes_of "e") (f', w') = (Val (1, None), (f'', w'')) /\
    count_events is_close (events_since w' w'') = 1%nat.
Proof.
  intros f w.
  destruct (write (bytes_of "d") (f, w)) as [r [f' w']] eqn:HW.
  assert (Hr : r = Val (1, None))
    by (apply (f_equal fst) in HW; vm_compute in HW; congruence).
  subst r.
  assert (Hf : f' = mkRotateFile 1 4 4 (FileOpen 0) "app.log" 1).
  { apply (f_equal (fun x => fst (snd x))) in HW. simpl in HW.
    rewrite <- HW. vm_compute. reflexivity. }
  destruct (write (bytes_of "e") (f', w')) as [r [f'' w'']] eqn:HW'.
  assert (Hr : r = Val (1, None)).
  { apply (f_equal fst) in HW'. simpl in HW'. rewrite <- HW'.
    apply (f_equal snd) in HW. simpl in HW. rewrite <- HW.
    vm_compute. reflexivity. }
  subst r. exists f', w', f'', w''.
  split; [reflexivity|].
  split; [exact (proj1 (successful_write_rotates_on_overflow
                          f w _ 1 f' w' HW))|].
  split; [exact HW'|].
  pose proof (proj1 (successful_write_rotates_on_overflow
                          f' w' _ 1 f'' w'' HW')) as H.
  rewrite Hf in H. exact H.
Defined.

(* ===================================================================== *)
(** ** The rollover block under failures *)
(* ===================================================================== *)

Lemma shift_backups_others name k : forall w n,
  (forall j, n <> Sprintf_s_d name j) ->
  names (snd (shift_backups name k w)) !! n = names w !! n.
Proof.
  induction k as [|k IH]; intros w n Hn; [done|].
  rewrite shift_backups_unfold. cbn zeta.
  destruct (isFileExist_effect (Sprintf_s_d name (Z.of_nat (S k))) w)
    as [[N1 I1] C1].
  destruct (isFileExist _ w) as [ex w1]. simpl in *.
  destruct ex; [|by rewrite IH, N1].
  pose proof (remove_then_rename_effect
                (Sprintf_s_d name (Z.of_nat (S k)))
                (Sprintf_s_d name (GoInt.add (Z.of_nat (S k)) 1)) w1) as H.
  destruct (remove_then_rename _ _ w1) as [err w2].
  destruct H as (_ & _ & N2 & _).
  assert (names w2 !! n = names w !! n) by (rewrite N2, N1; done).
  destruct err as [e|]; [done|]. by rewrite IH.
Qed.

(** X16.  The rollover block, whatever fails and wherever it stops, only
    probes, removes and renames; it changes the bytes of no file, and it
    leaves alone every name that is neither the active one nor of the
    form [name.<number>].  When it returns an error, the active file is
    still under its name. *)
Theorem rollover_touches_only_its_names name backup w :
  let (err, w') := rollover name backup w in
  inodes w' = inodes w /\
  Forall dir_event (events_since w w') /\
  (forall n, n <> name -> (forall j, n <> Sprintf_s_d name j) ->
     names w' !! n = names w !! n) /\
  (err <> None -> names w' !! name = names w !! name).
Proof.
  pose proof (rollover_effect name backup w) as H.
  pose proof (rollover_logs name backup w) as L.
  assert (Ho : forall n, n <> name -> (forall j, n <> Sprintf_s_d name j) ->
             names (snd (rollover name backup w)) !! n = names w !! n).
  { intros n Hn Hj. rewrite rollover_unfold.
    destruct (0 <? backup); [|done].
    pose proof (shift_backups_others name
                  (Z.to_nat (GoInt.sub backup 1)) w n Hj) as H1.
    destruct (shift_backups _ _ w) as [[e|] w1]; [done|]. simpl in H1.
    pose proof (remove_then_rename_effect name (Sprintf_s_d name 1) w1)
      as H2.
    destruct (remove_then_rename _ _ w1) as [err w2].
    destruct H2 as (_ & _ & N2 & _). simpl. by rewrite N2, H1. }
  destruct (rollover name backup w) as [err w']. simpl in *.
  destruct H as (I & _ & _ & Hk).
  split; [done|]. split; [by apply logs_events|]. split; [done|].
  intros He. apply Hk. by right.
Qed.

Lemma rollover_touches_only_its_names_witness :
  let w := with_faults [Pass; Pass; Pass; Fail (ErrIO 13)]
             three_backups_world in
  exists w',
    rollover "app.log" 3 w = (Some (ErrIO 13), w') /\
    inodes w' = inodes w /\
    names w' !! "app.log"%string = Some 0%nat.
Proof.
  intros w.
  pose proof (rollover_touches_only_its_names "app.log" 3 w) as H.
  destruct (rollover "app.log" 3 w) as [err w'] eqn:E.
  assert (He : err = Some (ErrIO 13))
    by (apply (f_equal fst) in E; vm_compute in E; congruence).
  subst err. exists w'. split; [reflexivity|].
  destruct H as (I & _ & _ & Hk). split; [exact I|].
  rewrite Hk by discriminate. reflexivity.
Defined.

(* ===================================================================== *)
(** ** [Write] after [Close] *)
(* ===================================================================== *)

(** X17.  After [Close], whatever it returned, no [Write] goes through:
    every call panics (with the error of a closed or invalid file, or on
    the slice bound), and nothing is written. *)
Theorem Write_after_Close_panics f w b :
  exists err f' w',
    Close (f, w) = (Val err, (f', w')) /\
    (exists p, fst (Write b (f', w')) = Panic p) /\
    same_files w' (snd (snd (Write b (f', w')))).
Proof.
  unfold Close. run_go.
  pose proof (Close_effect (File f) w) as H.
  destruct (OS.Close (File f) w) as [[err closed] w1].
  destruct H as (_ & _ & Hc).
  eexists _, _, _. split; [reflexivity|].
  split; [by apply Write_not_open|].
  destruct (write_not_open (set_File closed f) w1 b Hc)
    as (r & f' & w' & E & SF & _).
  unfold Write. run_go. rewrite E.
  by destruct r as [[n [e1|]]|p].
Qed.
